(** * moltbot-memory-sqlite: a shallow embedding of [src/index.ts]

    The development follows the source file top to bottom: the types, the
    default configuration, the [SqliteMemoryPlugin] class with its private
    helpers and its public API, and the [plugin] wrapper object.

    Conventions of the embedding.
    - A JavaScript string is a [string]: a sequence of characters with codes
      below 256 (the Latin-1 range of UTF-16, which ISO-8601 timestamps,
      UUIDs and the default noise words stay inside).
    - A JavaScript [number] that the code uses as a count or a duration is a
      [Z]; an importance is a rational [Q].
    - An optional field is an [option]; JavaScript truthiness is written out
      where the code relies on it.
    - The sql.js engine is embedded by what its statements compute on a table
      held as the list of its rows in insertion order: [LIKE], [ORDER BY],
      [LIMIT], [INSERT] under the primary key, [DELETE ... WHERE id IN].
    - [randomUUID()] and [new Date().toISOString()] are inputs of [store].
    - The file at [dbPath] and whether it can be written are the environment
      of the class, carried next to the instance. *)

From Stdlib Require Import String Ascii Bool Arith ZArith QArith Lia.
From Stdlib Require Import List Permutation Sorted.
Import ListNotations.
Local Close Scope Q_scope.
Local Open Scope nat_scope.
Local Open Scope list_scope.
Local Open Scope bool_scope.

Set Implicit Arguments.

(* ------------------------------------------------------------------------- *)
(** * Characters and strings *)
(* ------------------------------------------------------------------------- *)

Module Str.

Definition code (c : ascii) : nat := nat_of_ascii c.

Definition in_range (lo hi : nat) (c : ascii) : bool :=
  (lo <=? code c) && (code c <=? hi).

(** ASCII upper-case letters, the only ones SQLite folds. *)
Definition is_ascii_upper (c : ascii) : bool := in_range 65 90 c.

(** Latin-1 upper-case letters: A-Z and U+00C0..U+00DE without the
    multiplication sign U+00D7. *)
Definition is_upper (c : ascii) : bool :=
  is_ascii_upper c || (in_range 192 222 c && negb (code c =? 215)).

Definition shift32 (c : ascii) : ascii := ascii_of_nat (code c + 32).

(** [String.prototype.toLowerCase] on one character. *)
Definition lower_char (c : ascii) : ascii :=
  if is_upper c then shift32 c else c.

(** [sqlite3Tolower]: ASCII only. *)
Definition sqlite_lower (c : ascii) : ascii :=
  if is_ascii_upper c then shift32 c else c.

(** [s.toLowerCase()] *)
Fixpoint toLowerCase (s : string) : string :=
  match s with
  | EmptyString => EmptyString
  | String c s' => String (lower_char c) (toLowerCase s')
  end.

(** The class [\s] of a JavaScript regular expression, below 256:
    TAB, LF, VT, FF, CR, SPACE and NO-BREAK SPACE. *)
Definition is_space (c : ascii) : bool :=
  in_range 9 13 c || (code c =? 32) || (code c =? 160).

(** [s.split(/\s+/)]: the pieces between maximal runs of white space;
    a leading or trailing run leaves an empty piece at that end.
    [skipping] is true inside a run, [cur] is the piece being read. *)
Fixpoint split_from (skipping : bool) (cur : string) (s : string)
  : list string :=
  match s with
  | EmptyString => [cur]
  | String c s' =>
      if is_space c then
        if skipping then split_from true cur s'
        else cur :: split_from true EmptyString s'
      else split_from false (cur ++ String c EmptyString)%string s'
  end.

Definition split_ws (s : string) : list string :=
  split_from false EmptyString s.

(** A string is truthy when it is not empty. *)
Definition truthy (s : string) : bool := negb (s =? "")%string.

(** [w] occurs in [t] as a contiguous substring. *)
Definition contains (t w : string) : Prop :=
  exists pre suf : string, t = (pre ++ w ++ suf)%string.

End Str.

(* ------------------------------------------------------------------------- *)
(** * The SQL operators the statements use *)
(* ------------------------------------------------------------------------- *)

Module Sql.

(** Two characters agree for [LIKE]: equal, or equal after ASCII folding. *)
Definition like_char (p c : ascii) : bool :=
  (Str.sqlite_lower p =? Str.sqlite_lower c)%char.

(** [text LIKE pat] with SQLite's defaults: [%] stands for any run of
    characters, [_] for any one character, no escape character. *)
Fixpoint like (pat text : string) {struct pat} : bool :=
  match pat with
  | EmptyString =>
      match text with EmptyString => true | String _ _ => false end
  | String p pat' =>
      if (p =? "%")%char then
        (fix skip (t : string) : bool :=
           if like pat' t then true
           else match t with
                | EmptyString => false
                | String _ t' => skip t'
                end) text
      else
        match text with
        | EmptyString => false
        | String c t' =>
            if (p =? "_")%char || like_char p c then like pat' t' else false
        end
  end.

(** [LIMIT n]: a negative bound means no bound. *)
Definition limit {A : Type} (n : Z) (rows : list A) : list A :=
  if (n <? 0)%Z then rows else firstn (Z.to_nat n) rows.

(** [ORDER BY]: rows come out in the order [le]; rows that [le] does not
    separate keep their table order. *)
Fixpoint insert_by {A : Type} (le : A -> A -> bool) (x : A) (l : list A)
  : list A :=
  match l with
  | [] => [x]
  | y :: l' => if le x y then x :: l else y :: insert_by le x l'
  end.

Fixpoint order_by {A : Type} (le : A -> A -> bool) (l : list A) : list A :=
  match l with
  | [] => []
  | x :: l' => insert_by le x (order_by le l')
  end.

End Sql.

(* ------------------------------------------------------------------------- *)
(** * Regular expressions of the noise filter *)
(* ------------------------------------------------------------------------- *)

Module RegExp.

(** The parsed form of a pattern; [new RegExp(p, 'i')] is the engine's
    parser, so the configuration holds patterns already parsed. *)
Inductive regex : Type :=
| Eps                          (* the empty pattern *)
| Chr (c : ascii)              (* a literal character *)
| WhiteSpace                   (* \s *)
| Bol                          (* ^ *)
| Eol                          (* $ *)
| Cat (r1 r2 : regex)          (* r1r2 *)
| Alt (r1 r2 : regex)          (* r1|r2 *)
| Star (r : regex).            (* r* *)

(** Characters agree under the [i] flag. *)
Definition char_ci (c d : ascii) : bool :=
  (Str.lower_char c =? Str.lower_char d)%char.

Definition char_at (s : string) (i : nat) (p : ascii -> bool) : bool :=
  match String.get i s with
  | Some d => p d
  | None => false
  end.

(** [span r s i j]: [r] matches the characters of [s] from position [i]
    up to position [j]; the anchors look at where the span sits in [s]. *)
Fixpoint span (r : regex) (s : string) (i j : nat) {struct r} : bool :=
  match r with
  | Eps => i =? j
  | Chr c => if j =? i + 1 then char_at s i (char_ci c) else false
  | WhiteSpace => if j =? i + 1 then char_at s i Str.is_space else false
  | Bol => (i =? j) && (i =? 0)
  | Eol => (i =? j) && (i =? String.length s)
  | Cat r1 r2 =>
      existsb (fun k => if span r1 s i k then span r2 s k j else false)
              (seq i (j - i + 1))
  | Alt r1 r2 => if span r1 s i j then true else span r2 s i j
  | Star r' =>
      (fix star (fuel : nat) (i : nat) : bool :=
         if i =? j then true
         else match fuel with
              | O => false
              | S fuel' =>
                  existsb (fun k => if span r' s i k then star fuel' k
                                    else false)
                          (seq (i + 1) (j - i))
              end) (j - i) i
  end.

(** [re.test(s)] for a regex without the [g] flag: some span matches. *)
Definition test (r : regex) (s : string) : bool :=
  existsb (fun i =>
             existsb (fun j => span r s i j)
                     (seq i (String.length s - i + 1)))
          (seq 0 (String.length s + 1)).

(** [r] matches all of [s]. *)
Definition whole (r : regex) (s : string) : bool :=
  span r s 0 (String.length s).

(** Pattern builders. *)
Fixpoint lit (w : string) : regex :=
  match w with
  | EmptyString => Eps
  | String c EmptyString => Chr c
  | String c w' => Cat (Chr c) (lit w')
  end.

Fixpoint alts (rs : list regex) : regex :=
  match rs with
  | [] => Eps
  | [r] => r
  | r :: rs' => Alt r (alts rs')
  end.

(** [^r$] *)
Definition anchored (r : regex) : regex := Cat Bol (Cat r Eol).

End RegExp.

Import RegExp.

(* ------------------------------------------------------------------------- *)
(** * Types *)
(* ------------------------------------------------------------------------- *)

(** [MemoryCategory]: the type names six literals, and nothing checks a
    category at run time, so a category is the string the caller passed. *)
Definition MemoryCategory : Type := string.

Definition categories : list MemoryCategory :=
  ["preference"; "fact"; "decision"; "entity"; "conversation"; "other"]%string.

(** A [metadata] object is kept by its JSON text, which is what the table
    stores; [JSON.stringify] and [JSON.parse] pass it along. *)
Definition Json : Type := string.

Record Memory : Type := mkMemory {
  mem_id : string;
  mem_text : string;
  mem_category : MemoryCategory;
  mem_importance : Q;
  mem_createdAt : string;
  mem_updatedAt : string;
  mem_sessionKey : option string;
  mem_metadata : option Json
}.

Record MemoryStoreParams : Type := mkStoreParams {
  sp_text : string;
  sp_category : option MemoryCategory;
  sp_importance : option Q;
  sp_sessionKey : option string;
  sp_metadata : option Json
}.

Record MemoryRecallParams : Type := mkRecallParams {
  rp_query : string;
  rp_limit : option Z;
  rp_category : option MemoryCategory;
  rp_dateFrom : option string;
  rp_dateTo : option string;
  rp_filterNoise : option bool
}.

Record MemoryForgetParams : Type := mkForgetParams {
  fp_memoryId : option string;
  fp_query : option string
}.

Record PluginConfig : Type := mkPluginConfig {
  pc_dbPath : option string;
  pc_maxMemories : option Z;
  pc_defaultImportance : option Q;
  pc_noisePatterns : option (list regex);
  pc_autoSaveInterval : option Z
}.

(** [Required<PluginConfig>] *)
Record Config : Type := mkConfig {
  dbPath : string;
  maxMemories : Z;
  defaultImportance : Q;
  noisePatterns : list regex;
  autoSaveInterval : Z
}.

(** A row of the table [memories]. *)
Record Row : Type := mkRow {
  row_id : string;
  row_text : string;
  row_text_lower : string;
  row_category : string;
  row_importance : Q;
  row_created_at : string;
  row_updated_at : string;
  row_session_key : option string;
  row_metadata : option string
}.

Definition Table : Type := list Row.

(* ------------------------------------------------------------------------- *)
(** * Default configuration *)
(* ------------------------------------------------------------------------- *)

(** ['^(ok|okay|yes|no|thanks|thank you|sure|got it|cool|nice|great)$'] *)
Definition noise_words : list string :=
  ["ok"; "okay"; "yes"; "no"; "thanks"; "thank you"; "sure"; "got it";
   "cool"; "nice"; "great"]%string.

Definition noise_acknowledgement : regex := anchored (alts (map lit noise_words)).

(** ['^\\s*$'] *)
Definition noise_blank : regex := anchored (Star WhiteSpace).

(** [dbPath] defaults to [join(homedir(), '.moltbot', 'memory.db')]; the
    home directory is written [~]. *)
Definition DEFAULT_CONFIG : Config := {|
  dbPath := "~/.moltbot/memory.db";
  maxMemories := 10000;
  defaultImportance := 7 # 10;
  noisePatterns := [noise_acknowledgement; noise_blank];
  autoSaveInterval := 0
|}.

(** [a ?? b] *)
Definition nullish {A : Type} (a : option A) (b : A) : A :=
  match a with Some x => x | None => b end.

(** [{ ...DEFAULT_CONFIG, ...config }] *)
Definition merge_config (c : PluginConfig) : Config := {|
  dbPath := nullish (pc_dbPath c) (dbPath DEFAULT_CONFIG);
  maxMemories := nullish (pc_maxMemories c) (maxMemories DEFAULT_CONFIG);
  defaultImportance :=
    nullish (pc_defaultImportance c) (defaultImportance DEFAULT_CONFIG);
  noisePatterns := nullish (pc_noisePatterns c) (noisePatterns DEFAULT_CONFIG);
  autoSaveInterval :=
    nullish (pc_autoSaveInterval c) (autoSaveInterval DEFAULT_CONFIG)
|}.

(** The configuration with every field absent. *)
Definition no_config : PluginConfig :=
  mkPluginConfig None None None None None.

(* ------------------------------------------------------------------------- *)
(** * JavaScript operators the methods use *)
(* ------------------------------------------------------------------------- *)

(** [s || d] on an optional string: absent and empty are both falsy. *)
Definition str_or (s : option string) (d : string) : string :=
  match s with
  | Some x => if Str.truthy x then x else d
  | None => d
  end.

(** [s || null], [s || undefined] *)
Definition str_or_null (s : option string) : option string :=
  match s with
  | Some x => if Str.truthy x then Some x else None
  | None => None
  end.

(** [n || d] on an optional number: absent and zero are both falsy. *)
Definition num_or (n : option Z) (d : Z) : Z :=
  match n with
  | Some x => if (x =? 0)%Z then d else x
  | None => d
  end.

(** [a.slice(0, n)]: a negative [n] counts from the end. *)
Definition slice0 {A : Type} (n : Z) (a : list A) : list A :=
  if (n <? 0)%Z then firstn (length a - Z.to_nat (- n)) a
  else firstn (Z.to_nat n) a.

(* ------------------------------------------------------------------------- *)
(** * Instance state, environment and the monad of the methods *)
(* ------------------------------------------------------------------------- *)

Inductive Error : Type :=
| DatabaseNotInitialized   (* 'Database not initialized. Call init() first.' *)
| PluginNotInitialized     (* 'Plugin not initialized' *)
| StorageIOFailure         (* mkdirSync or writeFileSync raised *)
| ConstraintFailed.        (* INSERT of an id the table already holds *)

Inductive Outcome (A : Type) : Type :=
| Return (a : A)
| Throw (e : Error).

Arguments Return {A} a.
Arguments Throw {A} e.

(** The private fields of [SqliteMemoryPlugin]; [saveTimer] records whether
    an interval timer is running. *)
Record SqliteMemoryPlugin : Type := mkPlugin {
  db : option Table;
  config : Config;
  dirty : bool;
  saveTimer : bool;
  initialized : bool
}.

(** What the class sees of the file system: whether the directory of
    [dbPath] exists, the image stored in the file if there is one, and
    whether writing there succeeds. *)
Record FileSystem : Type := mkFs {
  fs_dir : bool;
  fs_file : option Table;
  fs_writable : bool
}.

Record World : Type := mkWorld {
  self : SqliteMemoryPlugin;
  fs : FileSystem
}.

(** A method: it ends by returning or by throwing, and in both cases leaves
    the fields as they were when it ended. *)
Definition M (A : Type) : Type := World -> Outcome A * World.

Definition ret {A : Type} (a : A) : M A := fun w => (Return a, w).

Definition throw {A : Type} (e : Error) : M A := fun w => (Throw e, w).

Definition bind {A B : Type} (m : M A) (k : A -> M B) : M B :=
  fun w =>
    match m w with
    | (Return a, w') => k a w'
    | (Throw e, w') => (Throw e, w')
    end.

Declare Scope method_scope.
Delimit Scope method_scope with method.
Notation "x <- m ;; k" := (bind m (fun x => k))
  (at level 100, m at next level, right associativity) : method_scope.
Notation "m ;; k" := (bind m (fun _ => k))
  (at level 100, right associativity) : method_scope.
Local Open Scope method_scope.

Definition gets {A : Type} (f : SqliteMemoryPlugin -> A) : M A :=
  fun w => (Return (f (self w)), w).

Definition modify (f : SqliteMemoryPlugin -> SqliteMemoryPlugin) : M unit :=
  fun w => (Return tt, mkWorld (f (self w)) (fs w)).

Definition when (b : bool) (m : M unit) : M unit := if b then m else ret tt.

Definition set_db (t : option Table) (p : SqliteMemoryPlugin) :=
  mkPlugin t (config p) (dirty p) (saveTimer p) (initialized p).

Definition set_dirty (b : bool) (p : SqliteMemoryPlugin) :=
  mkPlugin (db p) (config p) b (saveTimer p) (initialized p).

Definition set_saveTimer (b : bool) (p : SqliteMemoryPlugin) :=
  mkPlugin (db p) (config p) (dirty p) b (initialized p).

Definition set_initialized (b : bool) (p : SqliteMemoryPlugin) :=
  mkPlugin (db p) (config p) (dirty p) (saveTimer p) b.

(** [if (!this.db) throw new Error('Database not initialized. ...')] *)
Definition require_db : M Table :=
  fun w =>
    match db (self w) with
    | Some t => (Return t, w)
    | None => (Throw DatabaseNotInitialized, w)
    end.

(* ------------------------------------------------------------------------- *)
(** * File system calls *)
(* ------------------------------------------------------------------------- *)

(** [if (!existsSync(dbDir)) mkdirSync(dbDir, { recursive: true })] *)
Definition ensure_dir : M unit :=
  fun w =>
    if fs_dir (fs w) then (Return tt, w)
    else if fs_writable (fs w)
         then (Return tt,
               mkWorld (self w) (mkFs true (fs_file (fs w)) true))
         else (Throw StorageIOFailure, w).

(** [writeFileSync(this.config.dbPath, buffer)] *)
Definition writeFileSync (image : Table) : M unit :=
  fun w =>
    if fs_writable (fs w)
    then (Return tt,
          mkWorld (self w) (mkFs (fs_dir (fs w)) (Some image) true))
    else (Throw StorageIOFailure, w).

(** [existsSync(dbPath) ? new SQL.Database(readFileSync(dbPath))
                        : new SQL.Database()] *)
Definition open_database : M unit :=
  fun w =>
    let image := match fs_file (fs w) with Some t => t | None => [] end in
    (Return tt, mkWorld (set_db (Some image) (self w)) (fs w)).

(* ------------------------------------------------------------------------- *)
(** * The statements of the class *)
(* ------------------------------------------------------------------------- *)

(** [ORDER BY importance DESC, created_at DESC]: [a] may come before [b]. *)
Definition rank_le (a b : Row) : bool :=
  match Qcompare (row_importance a) (row_importance b) with
  | Gt => true
  | Lt => false
  | Eq => String.leb (row_created_at b) (row_created_at a)
  end.

(** [ORDER BY importance ASC, created_at ASC]: [a] may come before [b]. *)
Definition evict_le (a b : Row) : bool :=
  match Qcompare (row_importance a) (row_importance b) with
  | Lt => true
  | Gt => false
  | Eq => String.leb (row_created_at a) (row_created_at b)
  end.

(** The conditions [recall] pushes, with the values it binds to them. *)
Inductive Condition : Type :=
| LikeAny (patterns : list string)  (* (text_lower LIKE ? OR ...) *)
| CategoryIs (c : string)           (* category = ? *)
| CreatedFrom (d : string)          (* created_at >= ? *)
| CreatedTo (d : string).           (* created_at <= ? *)

Definition holds (c : Condition) (r : Row) : bool :=
  match c with
  | LikeAny patterns =>
      existsb (fun p => Sql.like p (row_text_lower r)) patterns
  | CategoryIs c => (row_category r =? c)%string
  | CreatedFrom d => String.leb d (row_created_at r)
  | CreatedTo d => String.leb (row_created_at r) d
  end.

(** [WHERE c1 AND c2 AND ...]; no conditions, no [WHERE]. *)
Definition where_all (cs : list Condition) (r : Row) : bool :=
  forallb (fun c => holds c r) cs.

(** [INSERT INTO memories ...]: [id] is the primary key. *)
Definition insert (r : Row) : M unit :=
  t <- require_db ;;
  if existsb (fun x => (row_id x =? row_id r)%string) t
  then throw ConstraintFailed
  else modify (set_db (Some (t ++ [r]))).

(** [DELETE FROM memories WHERE id IN (...)], then [getRowsModified()]. *)
Definition id_in (ids : list string) (r : Row) : bool :=
  existsb (fun i => (row_id r =? i)%string) ids.

Definition delete_ids (ids : list string) : M nat :=
  t <- require_db ;;
  modify (set_db (Some (filter (fun r => negb (id_in ids r)) t))) ;;
  ret (length (filter (id_in ids) t)).

(** The object built from a fetched row. *)
Definition memory_of_row (r : Row) : Memory := {|
  mem_id := row_id r;
  mem_text := row_text r;
  mem_category := row_category r;
  mem_importance := row_importance r;
  mem_createdAt := row_created_at r;
  mem_updatedAt := row_updated_at r;
  mem_sessionKey := str_or_null (row_session_key r);
  mem_metadata := str_or_null (row_metadata r)
|}.

(** The values bound by the [INSERT] of [store]. *)
Definition row_of_memory (m : Memory) : Row := {|
  row_id := mem_id m;
  row_text := mem_text m;
  row_text_lower := Str.toLowerCase (mem_text m);
  row_category := mem_category m;
  row_importance := mem_importance m;
  row_created_at := mem_createdAt m;
  row_updated_at := mem_updatedAt m;
  row_session_key := str_or_null (mem_sessionKey m);
  row_metadata := mem_metadata m
|}.

(* ------------------------------------------------------------------------- *)
(** * SqliteMemoryPlugin *)
(* ------------------------------------------------------------------------- *)

Definition constructor (c : PluginConfig) : SqliteMemoryPlugin := {|
  db := None;
  config := merge_config c;
  dirty := false;
  saveTimer := false;
  initialized := false
|}.

Definition save : M unit :=
  fun w =>
    match db (self w) with
    | None => (Return tt, w)
    | Some image => (writeFileSync image ;; modify (set_dirty false)) w
    end.

Definition saveIfDirty : M unit :=
  d <- gets dirty ;; when d save.

Definition markDirty : M unit :=
  modify (set_dirty true) ;;
  cfg <- gets config ;;
  when (autoSaveInterval cfg =? 0)%Z save.

(** The [CREATE ... IF NOT EXISTS] statements leave the rows alone. *)
Definition initializeSchema : M unit :=
  _ <- require_db ;; save.

Definition init : M unit :=
  b <- gets initialized ;;
  if b then ret tt
  else
    ensure_dir ;;
    open_database ;;
    initializeSchema ;;
    modify (set_initialized true) ;;
    cfg <- gets config ;;
    when (0 <? autoSaveInterval cfg)%Z (modify (set_saveTimer true)).

(** The callback of the interval timer. *)
Definition tick : M unit :=
  t <- gets saveTimer ;; when t saveIfDirty.

Record Stats : Type := mkStats {
  total : nat;
  byCategory : list (string * nat)
}.

(** [SELECT category, COUNT( * ) ... GROUP BY category]; the groups are
    listed by first occurrence in the table. *)
Fixpoint group_count (t : Table) (seen : list string) : list (string * nat) :=
  match t with
  | [] => []
  | r :: t' =>
      let c := row_category r in
      if existsb (String.eqb c) seen then group_count t' seen
      else (c, length (filter (fun x => (row_category x =? c)%string) t))
             :: group_count t' (c :: seen)
  end.

Definition stats : M Stats :=
  t <- require_db ;;
  ret {| total := length t; byCategory := group_count t [] |}.

Definition pruneOldMemories : M unit :=
  s <- stats ;;
  cfg <- gets config ;;
  if (maxMemories cfg <? Z.of_nat (total s))%Z then
    let toDelete := (Z.of_nat (total s) - maxMemories cfg)%Z in
    t <- require_db ;;
    _ <- delete_ids (map row_id (Sql.limit toDelete (Sql.order_by evict_le t))) ;;
    markDirty
  else ret tt.

(** The object literal [memory] of [store]; [uuid] is what [randomUUID()]
    returns and [now] what [new Date().toISOString()] returns. *)
Definition new_memory (cfg : Config) (params : MemoryStoreParams)
           (uuid now : string) : Memory := {|
  mem_id := uuid;
  mem_text := sp_text params;
  mem_category := str_or (sp_category params) "other";
  mem_importance := nullish (sp_importance params) (defaultImportance cfg);
  mem_createdAt := now;
  mem_updatedAt := now;
  mem_sessionKey := sp_sessionKey params;
  mem_metadata := sp_metadata params
|}.

Definition store (params : MemoryStoreParams) (uuid now : string) : M Memory :=
  _ <- require_db ;;
  cfg <- gets config ;;
  let memory := new_memory cfg params uuid now in
  insert (row_of_memory memory) ;;
  markDirty ;;
  pruneOldMemories ;;
  ret memory.

(** The words of the text search:
    [query.toLowerCase().split(/\s+/).filter(w => w.length > 1)]. *)
Definition query_words (query : string) : list string :=
  filter (fun w => 1 <? String.length w) (Str.split_ws (Str.toLowerCase query)).

(** [`%${word}%`] *)
Definition like_pattern (word : string) : string :=
  ("%" ++ word ++ "%")%string.

(** The list [conditions] of [recall]. *)
Definition text_conditions (params : MemoryRecallParams) : list Condition :=
  if Str.truthy (rp_query params) then
    let words := query_words (rp_query params) in
    if 0 <? length words then [LikeAny (map like_pattern words)] else []
  else [].

Definition optional_condition (mk : string -> Condition) (v : option string)
  : list Condition :=
  match v with
  | Some x => if Str.truthy x then [mk x] else []
  | None => []
  end.

Definition conditions (params : MemoryRecallParams) : list Condition :=
  text_conditions params
  ++ optional_condition CategoryIs (rp_category params)
  ++ optional_condition CreatedFrom (rp_dateFrom params)
  ++ optional_condition CreatedTo (rp_dateTo params).

(** [params.limit || 5] *)
Definition effective_limit (params : MemoryRecallParams) : Z :=
  num_or (rp_limit params) 5.

(** The rows the [SELECT] of [recall] steps through. *)
Definition fetch (t : Table) (params : MemoryRecallParams) : list Row :=
  Sql.limit (effective_limit params * 2)
    (Sql.order_by rank_le (filter (where_all (conditions params)) t)).

(** [noiseRegexes.some(re => re.test(m.text))] *)
Definition is_noise (cfg : Config) (m : Memory) : bool :=
  existsb (fun re => test re (mem_text m)) (noisePatterns cfg).

(** [params.filterNoise !== false] *)
Definition filters_noise (params : MemoryRecallParams) : bool :=
  match rp_filterNoise params with
  | Some false => false
  | _ => true
  end.

(** What [recall] computes from the configuration and the table. *)
Definition recall_from (cfg : Config) (t : Table) (params : MemoryRecallParams)
  : list Memory :=
  let limit := effective_limit params in
  let rows := map memory_of_row (fetch t params) in
  let memories :=
    if filters_noise params
    then filter (fun m => negb (is_noise cfg m)) rows
    else rows in
  slice0 limit memories.

Definition recall (params : MemoryRecallParams) : M (list Memory) :=
  t <- require_db ;;
  cfg <- gets config ;;
  ret (recall_from cfg t params).

Record ForgetResult : Type := mkForgetResult { deleted : nat }.

Definition forget (params : MemoryForgetParams) : M ForgetResult :=
  _ <- require_db ;;
  n <- match str_or_null (fp_memoryId params) with
       | Some memoryId => delete_ids [memoryId]
       | None =>
           match str_or_null (fp_query params) with
           | Some query =>
               memories <- recall (mkRecallParams query (Some 100%Z) None None
                                                  None (Some false)) ;;
               if 0 <? length memories
               then delete_ids (map mem_id memories)
               else ret 0
           | None => ret 0
           end
       end ;;
  when (0 <? n) markDirty ;;
  ret {| deleted := n |}.

Definition close : M unit :=
  modify (set_saveTimer false) ;;
  saveIfDirty ;;
  modify (set_db None) ;;
  modify (set_initialized false).

(* ------------------------------------------------------------------------- *)
(** * The plugin object *)
(* ------------------------------------------------------------------------- *)

Module plugin.

(** [pluginInstance] and the environment. *)
Record State : Type := mkState {
  pluginInstance : option SqliteMemoryPlugin;
  files : FileSystem
}.

Definition P (A : Type) : Type := State -> Outcome A * State.

(** Run a method on the instance. *)
Definition on_instance {A : Type} (m : M A) : P A :=
  fun s =>
    match pluginInstance s with
    | None => (Throw PluginNotInitialized, s)
    | Some p =>
        let (o, w) := m (mkWorld p (files s)) in
        (o, mkState (Some (self w)) (fs w))
    end.

Definition init (c : PluginConfig) : P unit :=
  fun s => on_instance init (mkState (Some (constructor c)) (files s)).

Definition memory_store (params : MemoryStoreParams) (uuid now : string)
  : P Memory := on_instance (store params uuid now).

Definition memory_recall (params : MemoryRecallParams) : P (list Memory) :=
  on_instance (recall params).

Definition memory_forget (params : MemoryForgetParams) : P ForgetResult :=
  on_instance (forget params).

Definition shutdown : P unit :=
  fun s =>
    match pluginInstance s with
    | None => (Return tt, s)
    | Some p =>
        match close (mkWorld p (files s)) with
        | (Return _, w) => (Return tt, mkState None (fs w))
        | (Throw e, w) => (Throw e, mkState (Some (self w)) (fs w))
        end
    end.

End plugin.


(* ========================================================================= *)
(** * Vocabulary of the statements *)
(* ========================================================================= *)

(** The orders as propositions on the two sort keys. *)
Definition key_desc (i1 : Q) (c1 : string) (i2 : Q) (c2 : string) : Prop :=
  (i2 < i1)%Q \/ ((i1 == i2)%Q /\ String.leb c2 c1 = true).

Definition ranks_before (a b : Row) : Prop :=
  key_desc (row_importance a) (row_created_at a)
           (row_importance b) (row_created_at b).

Definition evicts_before (a b : Row) : Prop := ranks_before b a.

(** The order of the records [recall] returns. *)
Definition recalled_before (a b : Memory) : Prop :=
  key_desc (mem_importance a) (mem_createdAt a)
           (mem_importance b) (mem_createdAt b).

(** The world [w] with the image [t] loaded as its database. *)
Definition with_table (t : Table) (w : World) : World :=
  mkWorld (set_db (Some t) (self w)) (fs w).

(** A row as [store] writes it, from the fields that matter to a query. *)
Definition sample_row (id text : string) (importance : Q) (created : string)
  : Row :=
  mkRow id text (Str.toLowerCase text) "other" importance created created
        None None.

(** A query with no filter but its text, its limit and its noise switch. *)
Definition plain_query (query : string) (limit : option Z)
           (filterNoise : option bool) : MemoryRecallParams :=
  mkRecallParams query limit None None None filterNoise.

(** An instance freshly built over a writable, empty directory. *)
Definition fresh_world (c : PluginConfig) : World :=
  mkWorld (constructor c) (mkFs true None true).

(** The configuration a caller gets by passing only [noisePatterns]. *)
Definition config_with_noise (patterns : list regex) : Config :=
  merge_config (mkPluginConfig None None None (Some patterns) None).

(** Some pattern of the list matches all of the text. *)
Definition whole_match_any (patterns : list regex) (m : Memory) : bool :=
  existsb (fun re => whole re (mem_text m)) patterns.

(** Distinct identifiers for generated rows. *)
Fixpoint tally (n : nat) : string :=
  match n with
  | O => EmptyString
  | S n' => String "i" (tally n')
  end.

(** [k] records of text "ok" and importance 0.9, and [k] records of text
    "look" and importance 0.5; the query "ok" matches both kinds and the
    default patterns make noise of the first kind only. *)
Definition noise_rows (k : nat) : list Row :=
  map (fun i => sample_row ("noise-" ++ tally i) "ok" (9 # 10)
                           "2026-01-01T00:00:00.000Z")
      (seq 0 k).

Definition plain_rows (k : nat) : list Row :=
  map (fun i => sample_row ("plain-" ++ tally i) "look" (5 # 10)
                           "2026-01-01T00:00:00.000Z")
      (seq 0 k).

(** [limit + 1] noise records ranked above [limit] other records. *)
Definition overfetch_store (limit : nat) : Table :=
  noise_rows (limit + 1) ++ plain_rows limit.

(** A record that matches the request and is not noise. *)
Definition matches_and_clean (cfg : Config) (params : MemoryRecallParams)
           (r : Row) : bool :=
  where_all (conditions params) r && negb (is_noise cfg (memory_of_row r)).

(** Writing the image succeeds, or the configuration defers it to the
    timer. *)
Definition save_succeeds (w : World) : bool :=
  fs_writable (fs w) || negb (autoSaveInterval (config (self w)) =? 0)%Z.

(** The rows [pruneOldMemories] selects on a table: the first
    [total - maxMemories] in eviction order when the total is above the
    ceiling, none otherwise. *)
Definition evicted_rows (cfg : Config) (t : Table) : list Row :=
  if (maxMemories cfg <? Z.of_nat (length t))%Z
  then Sql.limit (Z.of_nat (length t) - maxMemories cfg)
                 (Sql.order_by evict_le t)
  else [].

(** The table without the rows whose identifier is in [ids]. *)
Definition without_ids (ids : list string) (t : Table) : Table :=
  filter (fun r => negb (id_in ids r)) t.

(** The identifiers a [forget] request aims at. *)
Definition forget_targets (cfg : Config) (t : Table)
           (params : MemoryForgetParams) : list string :=
  match str_or_null (fp_memoryId params) with
  | Some memoryId => [memoryId]
  | None =>
      match str_or_null (fp_query params) with
      | Some query =>
          map mem_id
              (recall_from cfg t (plain_query query (Some 100%Z) (Some false)))
      | None => []
      end
  end.

(** The identifiers of a table are pairwise distinct: [id] is its primary
    key. *)
Definition unique_ids (t : Table) : Prop := NoDup (map row_id t).

(** A ready instance over the table [t] with ceiling [maxMemories = n] and
    the other settings at their defaults, on a writable directory. *)
Definition ready_world (n : Z) (t : Table) : World :=
  mkWorld
    (mkPlugin (Some t)
              (merge_config (mkPluginConfig None (Some n) None None None))
              false false true)
    (mkFs true (Some t) true).

(** Every character of the string satisfies [p]. *)
Fixpoint all_chars (p : ascii -> bool) (s : string) : bool :=
  match s with
  | EmptyString => true
  | String c s' => p c && all_chars p s'
  end.

(** The two characters [LIKE] reads as wildcards. *)
Definition is_wildcard (c : ascii) : bool := (c =? "%")%char || (c =? "_")%char.

(** A word without wildcard characters. *)
Definition literal_word (w : string) : bool :=
  all_chars (fun c => negb (is_wildcard c)) w.

(** A string without ASCII capitals, as [toLowerCase] leaves it. *)
Definition folded (s : string) : bool :=
  all_chars (fun c => negb (Str.is_ascii_upper c)) s.

(** The text predicate of a recall, in the words of the specification: no
    predicate when no word survives, some surviving word contained in the
    lower-cased text otherwise. *)
Definition text_predicate_spec (query : string) (r : Row) : Prop :=
  query_words query = [] \/
  exists w, In w (query_words query) /\ Str.contains (row_text_lower r) w.

(** The field invariants of a row: [text_lower] is the lower case of [text]
    and [updated_at] equals [created_at]. *)
Definition row_invariant (r : Row) : Prop :=
  row_text_lower r = Str.toLowerCase (row_text r)
  /\ row_updated_at r = row_created_at r.

Definition table_invariant (t : Table) : Prop := Forall row_invariant t.

Definition if_loaded (P : Table -> Prop) (image : option Table) : Prop :=
  match image with
  | Some t => P t
  | None => True
  end.

(** Every persisted record, in the in-memory image and in the file,
    satisfies the field invariants. *)
Definition store_invariant (w : World) : Prop :=
  if_loaded table_invariant (db (self w))
  /\ if_loaded table_invariant (fs_file (fs w)).

(** The calls a host can make on an instance, with the values the
    environment supplies to them. *)
Inductive Call : Type :=
| CallInit
| CallStore (params : MemoryStoreParams) (uuid now : string)
| CallRecall (params : MemoryRecallParams)
| CallForget (params : MemoryForgetParams)
| CallStats
| CallClose
| CallTick.

(** The world a call leaves, whether it returns or throws. *)
Definition after (c : Call) (w : World) : World :=
  match c with
  | CallInit => snd (init w)
  | CallStore params uuid now => snd (store params uuid now w)
  | CallRecall params => snd (recall params w)
  | CallForget params => snd (forget params w)
  | CallStats => snd (stats w)
  | CallClose => snd (close w)
  | CallTick => snd (tick w)
  end.

(** The worlds that arise from a new instance over a directory with no
    database file: by calls, by the directory changing whether it can be
    written, and by a new instance being built over the same directory. *)
Inductive reachable : World -> Prop :=
| reach_new (c : PluginConfig) (dir writable : bool) :
    reachable (mkWorld (constructor c) (mkFs dir None writable))
| reach_call (c : Call) (w : World) :
    reachable w -> reachable (after c w)
| reach_permissions (writable : bool) (w : World) :
    reachable w ->
    reachable (mkWorld (self w)
                       (mkFs (fs_dir (fs w)) (fs_file (fs w)) writable))
| reach_instance (c : PluginConfig) (w : World) :
    reachable w -> reachable (mkWorld (constructor c) (fs w)).

(** A new instance with the default settings over a directory that exists
    and holds no database file, and cannot be written. *)
Definition read_only_world : World :=
  mkWorld (constructor no_config) (mkFs true None false).


(* ========================================================================= *)
(** * Vocabulary of the further properties *)
(* ========================================================================= *)

(** The identifiers are pairwise distinct in the in-memory image and in the
    file. *)
Definition ids_invariant (w : World) : Prop :=
  if_loaded unique_ids (db (self w))
  /\ if_loaded unique_ids (fs_file (fs w)).

(** How the private fields hang together: an initialised instance has a
    database handle; when it is initialised and not dirty the file holds
    the in-memory image; a timer runs only on an initialised instance with
    a positive interval. *)
Definition lifecycle_invariant (w : World) : Prop :=
  (initialized (self w) = true -> db (self w) <> None)
  /\ (initialized (self w) = true -> dirty (self w) = false ->
      fs_file (fs w) = db (self w))
  /\ (saveTimer (self w) = true ->
      initialized (self w) = true
      /\ (0 < autoSaveInterval (config (self w)))%Z).

(** The image [init] opens: the one in the file, or an empty one. *)
Definition file_image (files : FileSystem) : Table :=
  match fs_file files with
  | Some t => t
  | None => []
  end.

(** The rows of the table that satisfy the conditions of a request. *)
Definition matching (t : Table) (params : MemoryRecallParams) : list Row :=
  filter (where_all (conditions params)) t.

(** The noise filter of a request on a list of records. *)
Definition clean (cfg : Config) (params : MemoryRecallParams)
           (memories : list Memory) : list Memory :=
  if filters_noise params
  then filter (fun m => negb (is_noise cfg m)) memories
  else memories.

(** All the matching records in ranked order, noise filtered. *)
Definition all_ranked (cfg : Config) (t : Table) (params : MemoryRecallParams)
  : list Memory :=
  clean cfg params
        (map memory_of_row (Sql.order_by rank_le (matching t params))).

(** A record as it reads back from the row [store] writes for it. *)
Definition read_back (m : Memory) : Memory := memory_of_row (row_of_memory m).

(** The number of rows of a category. *)
Definition category_count (c : string) (t : Table) : nat :=
  length (filter (fun x => (row_category x =? c)%string) t).

(** The sum of the counts of a grouping. *)
Definition sum_counts (groups : list (string * nat)) : nat :=
  fold_right (fun g acc => snd g + acc) 0 groups.

(** A ready instance that saves on a timer of one second and has an unsaved
    table [t] over an empty file. *)
Definition timer_world (t : Table) : World :=
  mkWorld
    (mkPlugin (Some t)
              (merge_config (mkPluginConfig None None None None (Some 1000%Z)))
              true true true)
    (mkFs true (Some []) true).

(** A string without white space. *)
Definition no_space (s : string) : bool :=
  all_chars (fun c => negb (Str.is_space c)) s.

(** A plugin object whose instance holds the table [t] with unsaved writes,
    over a file with the image [file]. *)
Definition unsaved_state (t file : Table) (writable : bool) : plugin.State :=
  plugin.mkState
    (Some (mkPlugin (Some t) (merge_config no_config) true false true))
    (mkFs true (Some file) writable).

(** A text made of white space only, the empty text among them. *)
Definition blank (s : string) : bool := all_chars Str.is_space s.

(** A text that is one of the acknowledgements, whatever its capitals. *)
Definition acknowledgement (s : string) : Prop :=
  In (Str.toLowerCase s) noise_words.
(* ========================================================================= *)
(** * Properties *)
(* ========================================================================= *)

Unset Implicit Arguments.

(* ------------------------------------------------------------------------- *)
(** ** The two sort orders *)
(* ------------------------------------------------------------------------- *)

Lemma string_compare_refl (s : string) : String.compare s s = Eq.
Proof.
  induction s as [|c s IH]; simpl; [reflexivity|].
  unfold Ascii.compare. now rewrite N.compare_refl.
Qed.

Lemma string_compare_lt_trans (s1 s2 s3 : string) :
  String.compare s1 s2 = Lt -> String.compare s2 s3 = Lt ->
  String.compare s1 s3 = Lt.
Proof.
  revert s2 s3.
  induction s1 as [|c1 s1 IH]; intros [|c2 s2] [|c3 s3]; simpl;
    try discriminate; try reflexivity.
  unfold Ascii.compare.
  destruct (N.compare_spec (N_of_ascii c1) (N_of_ascii c2)) as [E12|L12|G12];
    try discriminate;
    destruct (N.compare_spec (N_of_ascii c2) (N_of_ascii c3)) as [E23|L23|G23];
    try discriminate; intros H12 H23.
  - rewrite E12, E23, N.compare_refl. eauto.
  - rewrite E12. now apply N.compare_lt_iff in L23 as ->.
  - rewrite <- E23. now apply N.compare_lt_iff in L12 as ->.
  - assert (L13 : (N_of_ascii c1 < N_of_ascii c3)%N) by lia.
    now apply N.compare_lt_iff in L13 as ->.
Qed.

Lemma string_leb_refl (s : string) : String.leb s s = true.
Proof. unfold String.leb. now rewrite string_compare_refl. Qed.

Lemma string_leb_trans (s1 s2 s3 : string) :
  String.leb s1 s2 = true -> String.leb s2 s3 = true ->
  String.leb s1 s3 = true.
Proof.
  unfold String.leb.
  destruct (String.compare s1 s2) eqn:E12; try discriminate;
    destruct (String.compare s2 s3) eqn:E23; try discriminate; intros _ _.
  - apply String.compare_eq_iff in E12, E23. subst.
    now rewrite string_compare_refl.
  - apply String.compare_eq_iff in E12. subst. now rewrite E23.
  - apply String.compare_eq_iff in E23. subst. now rewrite E12.
  - now rewrite (string_compare_lt_trans _ _ _ E12 E23).
Qed.

Lemma rank_le_iff (a b : Row) : rank_le a b = true <-> ranks_before a b.
Proof.
  unfold rank_le, ranks_before, key_desc.
  destruct (Qcompare_spec (row_importance a) (row_importance b)) as [E|L|G].
  - split; [now right|]. intros [H|[_ H]]; [|exact H].
    rewrite E in H. now apply Qlt_irrefl in H.
  - split; [discriminate|]. intros [H|[H _]].
    + exfalso. apply (Qlt_irrefl (row_importance a)). now apply Qlt_trans with (row_importance b).
    + rewrite H in L. now apply Qlt_irrefl in L.
  - split; [now left|reflexivity].
Qed.

Lemma evict_le_rank_le (a b : Row) : evict_le a b = rank_le b a.
Proof.
  unfold evict_le, rank_le.
  rewrite <- (Qcompare_antisym (row_importance a) (row_importance b)).
  now destruct (Qcompare (row_importance a) (row_importance b)).
Qed.

Lemma evict_le_iff (a b : Row) : evict_le a b = true <-> evicts_before a b.
Proof. rewrite evict_le_rank_le. apply rank_le_iff. Qed.

Lemma rank_le_total (a b : Row) : rank_le a b = true \/ rank_le b a = true.
Proof.
  unfold rank_le.
  rewrite <- (Qcompare_antisym (row_importance a) (row_importance b)).
  destruct (Qcompare (row_importance a) (row_importance b)); simpl; auto.
  destruct (String.leb_total (row_created_at a) (row_created_at b)); auto.
Qed.

Lemma key_desc_trans i1 c1 i2 c2 i3 c3 :
  key_desc i1 c1 i2 c2 -> key_desc i2 c2 i3 c3 -> key_desc i1 c1 i3 c3.
Proof.
  unfold key_desc. intros [L12|[E12 H12]] [L23|[E23 H23]].
  - left. now apply Qlt_trans with i2.
  - left. now rewrite <- E23.
  - left. now rewrite E12.
  - right. split; [now rewrite E12|]. now apply string_leb_trans with c2.
Qed.

Lemma rank_le_trans (a b c : Row) :
  rank_le a b = true -> rank_le b c = true -> rank_le a c = true.
Proof.
  rewrite !rank_le_iff. apply key_desc_trans.
Qed.

Lemma evict_le_total (a b : Row) : evict_le a b = true \/ evict_le b a = true.
Proof. rewrite !evict_le_rank_le. destruct (rank_le_total a b); auto. Qed.

Lemma evict_le_trans (a b c : Row) :
  evict_le a b = true -> evict_le b c = true -> evict_le a c = true.
Proof.
  rewrite !evict_le_rank_le. intros H1 H2. now apply rank_le_trans with b.
Qed.

(* ------------------------------------------------------------------------- *)
(** ** [ORDER BY], [LIMIT] and [slice] on lists *)
(* ------------------------------------------------------------------------- *)

Lemma In_firstn {A : Type} (n : nat) (l : list A) (x : A) :
  In x (firstn n l) -> In x l.
Proof.
  intros H. rewrite <- (firstn_skipn n l). apply in_or_app. now left.
Qed.

Lemma In_skipn {A : Type} (n : nat) (l : list A) (x : A) :
  In x (skipn n l) -> In x l.
Proof.
  intros H. rewrite <- (firstn_skipn n l). apply in_or_app. now right.
Qed.

Section Ordering.

Context {A : Type}.
Variable le : A -> A -> bool.
Hypothesis le_total : forall a b, le a b = true \/ le b a = true.
Hypothesis le_trans :
  forall a b c, le a b = true -> le b c = true -> le a c = true.

Let R (a b : A) : Prop := le a b = true.

Lemma insert_by_perm (x : A) (l : list A) :
  Permutation (x :: l) (Sql.insert_by le x l).
Proof.
  induction l as [|y l IH]; simpl; [reflexivity|].
  destruct (le x y); [reflexivity|].
  rewrite perm_swap. now constructor.
Qed.

Lemma order_by_perm (l : list A) : Permutation l (Sql.order_by le l).
Proof.
  induction l as [|x l IH]; simpl; [reflexivity|].
  rewrite <- insert_by_perm. now constructor.
Qed.

Lemma order_by_length (l : list A) : length (Sql.order_by le l) = length l.
Proof. symmetry. apply Permutation_length, order_by_perm. Qed.

Lemma order_by_In (x : A) (l : list A) : In x (Sql.order_by le l) <-> In x l.
Proof.
  split; apply Permutation_in;
    [symmetry|]; apply order_by_perm.
Qed.

Lemma insert_by_sorted (x : A) (l : list A) :
  StronglySorted R l -> StronglySorted R (Sql.insert_by le x l).
Proof.
  induction 1 as [|y l Hs IH Hy]; simpl.
  - repeat constructor.
  - destruct (le x y) eqn:Exy.
    + constructor; [now constructor|].
      constructor; [exact Exy|].
      eapply Forall_impl; [|exact Hy]. intros z Hz. now apply le_trans with y.
    + constructor; [exact IH|].
      assert (Hyx : R y x) by (destruct (le_total x y); congruence).
      eapply Permutation_Forall; [apply insert_by_perm|].
      now constructor.
Qed.

Lemma order_by_sorted (l : list A) : StronglySorted R (Sql.order_by le l).
Proof.
  induction l as [|x l IH]; simpl; [constructor|now apply insert_by_sorted].
Qed.

(** Rows already in order come out as they are. *)
Lemma order_by_sorted_id (l : list A) :
  StronglySorted R l -> Sql.order_by le l = l.
Proof.
  induction 1 as [|x l Hs IH Hx]; simpl; [reflexivity|].
  rewrite IH. destruct Hx as [|y l' Hxy _]; simpl; [reflexivity|].
  unfold R in Hxy. now rewrite Hxy.
Qed.

(** In a sorted list every row of the first [n] is before every other. *)
Lemma sorted_firstn_skipn (n : nat) (l : list A) :
  StronglySorted R l ->
  forall a b, In a (firstn n l) -> In b (skipn n l) -> R a b.
Proof.
  intros H. revert n.
  induction H as [|x l Hs IH Hx]; intros [|n] a b Ha Hb; simpl in *;
    try contradiction.
  destruct Ha as [<-|Ha].
  - rewrite Forall_forall in Hx. apply Hx.
    now apply (In_skipn n l).
  - now apply (IH n).
Qed.

End Ordering.

Lemma sorted_map {A B : Type} (f : A -> B) (RA : A -> A -> Prop)
      (RB : B -> B -> Prop) (l : list A) :
  (forall a b, RA a b -> RB (f a) (f b)) ->
  StronglySorted RA l -> StronglySorted RB (map f l).
Proof.
  intros Hf. induction 1 as [|x l Hs IH Hx]; simpl; constructor; [exact IH|].
  rewrite Forall_forall in *. intros y Hy.
  apply in_map_iff in Hy as [z [<- Hz]]. auto.
Qed.

Lemma slice0_firstn {A : Type} (n : Z) (l : list A) :
  exists k, slice0 n l = firstn k l.
Proof. unfold slice0. destruct (n <? 0)%Z; eauto. Qed.

Lemma firstn_sorted {A : Type} (R : A -> A -> Prop) (k : nat) (l : list A) :
  StronglySorted R l -> StronglySorted R (firstn k l).
Proof.
  intros H. revert l H.
  induction k as [|k IH]; intros l H; [constructor|].
  destruct H as [|x l Hs Hx]; simpl; constructor; [now apply IH|].
  rewrite Forall_forall in *. intros y Hy. apply Hx. now apply (In_firstn k l).
Qed.

Lemma filter_sorted {A : Type} (R : A -> A -> Prop) (p : A -> bool)
      (l : list A) :
  StronglySorted R l -> StronglySorted R (filter p l).
Proof.
  induction 1 as [|x l Hs IH Hx]; simpl; [constructor|].
  destruct (p x); [|exact IH].
  constructor; [exact IH|].
  rewrite Forall_forall in *. intros y Hy. apply Hx.
  now apply filter_In in Hy.
Qed.

Lemma limit_sorted {A : Type} (R : A -> A -> Prop) (n : Z) (l : list A) :
  StronglySorted R l -> StronglySorted R (Sql.limit n l).
Proof.
  intros H. unfold Sql.limit. destruct (n <? 0)%Z; [exact H|].
  now apply firstn_sorted.
Qed.

(* ------------------------------------------------------------------------- *)
(** ** What [recall] returns on a loaded database *)
(* ------------------------------------------------------------------------- *)

Lemma recall_with_table (w : World) (t : Table) (params : MemoryRecallParams) :
  recall params (with_table t w)
  = (Return (recall_from (config (self w)) t params), with_table t w).
Proof. reflexivity. Qed.

Lemma fetch_sorted (t : Table) (params : MemoryRecallParams) :
  StronglySorted ranks_before (fetch t params).
Proof.
  unfold fetch. apply limit_sorted.
  eapply StronglySorted_ind with
    (P := fun l => StronglySorted ranks_before l);
    [constructor| |apply (order_by_sorted rank_le rank_le_total rank_le_trans)].
  intros a l _ IH Ha. constructor; [exact IH|].
  eapply Forall_impl; [|exact Ha]. intros b. apply rank_le_iff.
Qed.

Lemma recall_from_sorted (cfg : Config) (t : Table)
      (params : MemoryRecallParams) :
  StronglySorted recalled_before (recall_from cfg t params).
Proof.
  unfold recall_from.
  destruct (slice0_firstn (effective_limit params)
              (if filters_noise params
               then filter (fun m => negb (is_noise cfg m))
                           (map memory_of_row (fetch t params))
               else map memory_of_row (fetch t params))) as [k ->].
  apply firstn_sorted.
  assert (Hm : StronglySorted recalled_before
                 (map memory_of_row (fetch t params))).
  { apply sorted_map with (RA := ranks_before); [|apply fetch_sorted].
    intros a b H. exact H. }
  destruct (filters_noise params); [now apply filter_sorted|exact Hm].
Qed.

(** C2. On every initialised store and for every recall request, whatever
    filters it carries, [recall] returns, and the sequence it returns is in
    descending order of importance, records of equal importance being in
    descending order of [createdAt]: each record is before every later one
    in that order. *)
Theorem recall_ordered_by_importance_then_recency
        (w : World) (t : Table) (params : MemoryRecallParams) :
  exists memories : list Memory,
    recall params (with_table t w) = (Return memories, with_table t w)
    /\ StronglySorted recalled_before memories.
Proof.
  exists (recall_from (config (self w)) t params).
  split; [apply recall_with_table|apply recall_from_sorted].
Qed.

(** The ranking scenario of the test list: importances 0.9, 0.7 and 0.85
    come back as 0.9, 0.85, 0.7, and two records of importance 0.7 come
    back newest first. *)
Example recall_ranking_scenario :
  map mem_id
      (recall_from DEFAULT_CONFIG
         [sample_row "a" "first" (9 # 10) "2026-01-01T00:00:01.000Z";
          sample_row "b" "second" (7 # 10) "2026-01-01T00:00:02.000Z";
          sample_row "c" "third" (85 # 100) "2026-01-01T00:00:03.000Z";
          sample_row "d" "fourth" (7 # 10) "2026-01-01T00:00:04.000Z"]
         (plain_query "" None None))
  = ["a"; "c"; "d"; "b"]%string.
Proof. vm_compute. reflexivity. Qed.

(* ------------------------------------------------------------------------- *)
(** ** The limit of a recall *)
(* ------------------------------------------------------------------------- *)

(** C10. A recall whose limit is 0 is answered as the recall with limit 5
    and as the recall with no limit given: the falsy values of [limit], 0
    and absent, both become 5. The answer is the same on every store, for
    every other field of the request; on a store of one record the recall
    with limit 0 returns that record, not the empty sequence, and on a store
    of six records it returns five. *)
Theorem recall_limit_zero_is_default
        (w : World) (t : Table) (q : string) (c : option MemoryCategory)
        (df dt : option string) (fn : option bool) :
  effective_limit (mkRecallParams q (Some 0%Z) c df dt fn) = 5%Z
  /\ effective_limit (mkRecallParams q None c df dt fn) = 5%Z
  /\ recall (mkRecallParams q (Some 0%Z) c df dt fn) (with_table t w)
     = recall (mkRecallParams q (Some 5%Z) c df dt fn) (with_table t w)
  /\ recall (mkRecallParams q (Some 0%Z) c df dt fn) (with_table t w)
     = recall (mkRecallParams q None c df dt fn) (with_table t w)
  /\ (exists memories,
        recall (mkRecallParams q (Some 0%Z) c df dt fn) (with_table t w)
        = (Return memories, with_table t w))
  /\ recall_from DEFAULT_CONFIG
       [sample_row "a" "first" (9 # 10) "2026-01-01T00:00:01.000Z"]
       (plain_query "" (Some 0%Z) None)
     = [memory_of_row
          (sample_row "a" "first" (9 # 10) "2026-01-01T00:00:01.000Z")]
  /\ length (recall_from DEFAULT_CONFIG (plain_rows 6)
                         (plain_query "" (Some 0%Z) None)) = 5.
Proof.
  repeat split; try reflexivity.
  eexists. apply recall_with_table.
Qed.

(* ------------------------------------------------------------------------- *)
(** ** Regular expressions: anchored patterns match whole strings *)
(* ------------------------------------------------------------------------- *)

Lemma if_true_iff (a b : bool) :
  (if a then b else false) = true <-> a = true /\ b = true.
Proof. destruct a, b; intuition discriminate. Qed.

(** A span never runs backwards. *)
Lemma span_le (r : regex) (s : string) (i j : nat) :
  span r s i j = true -> i <= j.
Proof.
  revert i j.
  induction r as [|c| | | |r1 IH1 r2 IH2|r1 IH1 r2 IH2|r IH]; intros i j;
    cbn [span].
  - intros H. apply Nat.eqb_eq in H. lia.
  - destruct (Nat.eqb_spec j (i + 1)); [lia|discriminate].
  - destruct (Nat.eqb_spec j (i + 1)); [lia|discriminate].
  - rewrite andb_true_iff, !Nat.eqb_eq. lia.
  - rewrite andb_true_iff, !Nat.eqb_eq. lia.
  - rewrite existsb_exists. intros [k [_ H]].
    apply if_true_iff in H as [H1 H2].
    apply IH1 in H1. apply IH2 in H2. lia.
  - destruct (span r1 s i j) eqn:E; [intros _; now apply IH1|apply IH2].
  - generalize (j - i) as fuel. intros fuel. revert i.
    induction fuel as [|fuel IHf]; intros i;
      destruct (Nat.eqb_spec i j); try lia; try discriminate.
    rewrite existsb_exists. intros [k [Hk H]].
    apply if_true_iff in H as [_ H]. apply in_seq in Hk.
    apply IHf in H. lia.
Qed.

Lemma span_Cat (r1 r2 : regex) (s : string) (i j : nat) :
  span (Cat r1 r2) s i j = true <->
  exists k, i <= k <= j /\ span r1 s i k = true /\ span r2 s k j = true.
Proof.
  cbn [span]. rewrite existsb_exists. split.
  - intros [k [Hk H]]. apply if_true_iff in H as [H1 H2].
    exists k. split; [|now split].
    apply span_le in H1. apply span_le in H2. lia.
  - intros [k [Hk H]]. exists k. split; [apply in_seq; lia|].
    now apply if_true_iff.
Qed.

Lemma span_Bol (s : string) (i j : nat) :
  span Bol s i j = true <-> i = 0 /\ j = 0.
Proof.
  cbn [span]. rewrite andb_true_iff, !Nat.eqb_eq. lia.
Qed.

Lemma span_Eol (s : string) (i j : nat) :
  span Eol s i j = true <-> i = String.length s /\ j = String.length s.
Proof.
  cbn [span]. rewrite andb_true_iff, !Nat.eqb_eq. lia.
Qed.

Lemma span_anchored (r : regex) (s : string) (i j : nat) :
  span (anchored r) s i j = true <->
  i = 0 /\ j = String.length s /\ whole r s = true.
Proof.
  unfold anchored, whole. rewrite span_Cat. split.
  - intros [k [Hk [Hb Hr]]]. apply span_Bol in Hb as [-> ->].
    apply span_Cat in Hr as [k' [Hk' [Hr He]]].
    apply span_Eol in He as [-> ->]. auto.
  - intros [-> [-> Hr]]. exists 0. split; [lia|]. split; [now apply span_Bol|].
    apply span_Cat. exists (String.length s).
    split; [lia|]. split; [exact Hr|now apply span_Eol].
Qed.

Lemma test_iff (r : regex) (s : string) :
  test r s = true <->
  exists i j, i <= j <= String.length s /\ span r s i j = true.
Proof.
  unfold test. rewrite existsb_exists. split.
  - intros [i [Hi H]]. apply existsb_exists in H as [j [Hj H]].
    apply in_seq in Hi, Hj. exists i, j. split; [lia|exact H].
  - intros [i [j [Hij H]]]. exists i. split; [apply in_seq; lia|].
    apply existsb_exists. exists j. split; [apply in_seq; lia|exact H].
Qed.

(** [^r$] finds a match in [s] exactly when [r] matches all of [s]. *)
Lemma test_anchored (r : regex) (s : string) :
  test (anchored r) s = whole r s.
Proof.
  apply eq_true_iff_eq. rewrite test_iff. split.
  - intros [i [j [_ H]]]. now apply span_anchored in H.
  - intros H. exists 0, (String.length s). split; [lia|].
    now apply span_anchored.
Qed.

Lemma is_noise_anchored (rs : list regex) (m : Memory) :
  is_noise (config_with_noise (map anchored rs)) m = whole_match_any rs m.
Proof.
  unfold is_noise, whole_match_any, config_with_noise. simpl.
  induction rs as [|r rs IH]; simpl; [reflexivity|].
  now rewrite test_anchored, IH.
Qed.

(* ------------------------------------------------------------------------- *)
(** ** Noise filtering *)
(* ------------------------------------------------------------------------- *)

Lemma ok_is_default_noise (m : Memory) :
  mem_text m = "ok"%string -> is_noise DEFAULT_CONFIG m = true.
Proof. unfold is_noise. intros ->. vm_compute. reflexivity. Qed.

Lemma Forall_firstn {A : Type} (P : A -> Prop) (k : nat) (l : list A) :
  Forall P l -> Forall P (firstn k l).
Proof.
  rewrite !Forall_forall. intros H x Hx. apply H. now apply In_firstn in Hx.
Qed.

Lemma Forall_slice0 {A : Type} (P : A -> Prop) (n : Z) (l : list A) :
  Forall P l -> Forall P (slice0 n l).
Proof.
  intros H. destruct (slice0_firstn n l) as [k ->]. now apply Forall_firstn.
Qed.

(** C3, as the code has it. Unless [filterNoise] is [false] (so also when
    it is omitted), [recall] removes from the fetched rows, before it
    truncates them to the limit, exactly the records in whose raw text some
    configured pattern, compiled case-insensitive, finds a match; with
    [filterNoise] false it truncates the fetched rows as they are. A pattern
    anchored as [^r$] finds a match exactly when [r] matches the whole text,
    and the two default patterns are anchored, so under the defaults, and
    under any list of anchored patterns, a record is removed exactly when a
    pattern matches its whole text. Under the defaults no record whose text
    is "ok" is returned unless [filterNoise] is false. *)
Theorem recall_noise_filter
        (w : World) (t : Table) (q : string) (l : option Z)
        (c : option MemoryCategory) (df dt : option string) :
  let request := mkRecallParams q l c df dt in
  let rows := map memory_of_row (fetch t (request None)) in
  let keep cfg := filter (fun m => negb (is_noise cfg m)) rows in
  (* filterNoise omitted or true: filter, then truncate *)
  recall (request None) (with_table t w)
  = (Return (slice0 (num_or l 5) (keep (config (self w)))), with_table t w)
  /\ recall (request (Some true)) (with_table t w)
     = (Return (slice0 (num_or l 5) (keep (config (self w)))), with_table t w)
  (* filterNoise false: truncate only *)
  /\ recall (request (Some false)) (with_table t w)
     = (Return (slice0 (num_or l 5) rows), with_table t w)
  (* a record is noise when some pattern finds a match in its text *)
  /\ (forall cfg m,
        is_noise cfg m = existsb (fun re => test re (mem_text m))
                                 (noisePatterns cfg))
  (* anchored patterns are whole-string patterns *)
  /\ (forall r s, test (anchored r) s = whole r s)
  /\ (forall rs,
        recall_from (config_with_noise (map anchored rs)) t (request None)
        = slice0 (num_or l 5)
                 (filter (fun m => negb (whole_match_any rs m)) rows))
  /\ noisePatterns DEFAULT_CONFIG
     = map anchored [alts (map lit noise_words); Star WhiteSpace]
  (* the record "ok" under the default patterns *)
  /\ Forall (fun m => mem_text m <> "ok"%string)
            (recall_from DEFAULT_CONFIG t (request None))
  /\ Forall (fun m => mem_text m <> "ok"%string)
            (recall_from DEFAULT_CONFIG t (request (Some true)))
  /\ recall_from DEFAULT_CONFIG t (request (Some false))
     = slice0 (num_or l 5) rows.
Proof.
  intros request rows keep.
  assert (Hok : forall cfg, cfg = DEFAULT_CONFIG ->
            Forall (fun m => mem_text m <> "ok"%string)
                   (slice0 (num_or l 5) (keep cfg))).
  { intros cfg ->. apply Forall_slice0. apply Forall_forall. intros m Hm.
    apply filter_In in Hm as [_ Hm]. intros Htext.
    rewrite (ok_is_default_noise m Htext) in Hm. discriminate. }
  repeat split; try reflexivity.
  - apply test_anchored.
  - intros rs. unfold recall_from. simpl. fold rows. f_equal.
    apply filter_ext. intros m. now rewrite is_noise_anchored.
  - now apply Hok.
  - now apply Hok.
Qed.

(** C3 as worded fails on a pattern that is not anchored. With the single
    configured pattern [ok], the record "look" is fetched for the empty
    query and no pattern matches its whole text, yet the noise filter
    removes it, because [ok] finds a match inside "look". *)
Lemma recall_noise_filter_searches_unanchored :
  let cfg := config_with_noise [lit "ok"] in
  let t := [sample_row "a" "look" (7 # 10) "2026-01-01T00:00:01.000Z"] in
  let request := plain_query "" None None in
  map mem_text (map memory_of_row (fetch t request)) = ["look"%string]
  /\ whole_match_any (noisePatterns cfg)
       (memory_of_row
          (sample_row "a" "look" (7 # 10) "2026-01-01T00:00:01.000Z"))
     = false
  /\ recall_from cfg t request = [].
Proof. vm_compute. repeat split. Qed.

(* ------------------------------------------------------------------------- *)
(** ** Over-fetch and truncation *)
(* ------------------------------------------------------------------------- *)

Lemma limit_nonneg {A : Type} (n : Z) (l : list A) :
  (0 <= n)%Z -> Sql.limit (n * 2) l = firstn (2 * Z.to_nat n) l.
Proof.
  intros H. unfold Sql.limit.
  destruct (Z.ltb_spec (n * 2) 0); [lia|].
  f_equal. lia.
Qed.

Lemma slice0_nonneg {A : Type} (n : Z) (l : list A) :
  (0 <= n)%Z -> slice0 n l = firstn (Z.to_nat n) l.
Proof.
  intros H. unfold slice0. destruct (Z.ltb_spec n 0); [lia|reflexivity].
Qed.

Lemma sorted_all_pairs {A : Type} (R : A -> A -> Prop) (l : list A) :
  (forall a b, In a l -> In b l -> R a b) -> StronglySorted R l.
Proof.
  induction l as [|x l IH]; intros H; constructor.
  - apply IH. intros a b Ha Hb. apply H; now right.
  - apply Forall_forall. intros y Hy. apply H; [now left|now right].
Qed.

Lemma sorted_app {A : Type} (R : A -> A -> Prop) (l1 l2 : list A) :
  StronglySorted R l1 -> StronglySorted R l2 ->
  (forall a b, In a l1 -> In b l2 -> R a b) ->
  StronglySorted R (l1 ++ l2).
Proof.
  induction 1 as [|x l1 Hs IH Hx]; intros H2 H12; simpl; [exact H2|].
  constructor.
  - apply IH; [exact H2|]. intros a b Ha Hb. apply H12; [now right|exact Hb].
  - apply Forall_app. split; [exact Hx|].
    apply Forall_forall. intros y Hy. apply H12; [now left|exact Hy].
Qed.

Lemma tally_inj (i j : nat) : tally i = tally j -> i = j.
Proof.
  revert j. induction i as [|i IH]; intros [|j]; simpl; try discriminate;
    [reflexivity|].
  intros H. injection H as H. f_equal. now apply IH.
Qed.

Lemma in_noise_rows (k : nat) (r : Row) :
  In r (noise_rows k) ->
  exists i, r = sample_row ("noise-" ++ tally i) "ok" (9 # 10)
                           "2026-01-01T00:00:00.000Z".
Proof.
  unfold noise_rows. intros H. apply in_map_iff in H as [i [<- _]]. now exists i.
Qed.

Lemma in_plain_rows (k : nat) (r : Row) :
  In r (plain_rows k) ->
  exists i, r = sample_row ("plain-" ++ tally i) "look" (5 # 10)
                           "2026-01-01T00:00:00.000Z".
Proof.
  unfold plain_rows. intros H. apply in_map_iff in H as [i [<- _]]. now exists i.
Qed.

Lemma NoDup_map_injective {A B : Type} (f : A -> B) (l : list A) :
  (forall x y, f x = f y -> x = y) -> NoDup l -> NoDup (map f l).
Proof.
  intros Hf. induction 1 as [|x l Hx Hl IH]; simpl; constructor; [|exact IH].
  intros H. apply in_map_iff in H as [y [Hy Hin]].
  apply Hf in Hy. now subst.
Qed.

Lemma overfetch_store_ids (limit : nat) :
  NoDup (map row_id (overfetch_store limit)).
Proof.
  unfold overfetch_store, noise_rows, plain_rows.
  rewrite map_app, !map_map. simpl.
  apply NoDup_app.
  - apply NoDup_map_injective; [|apply seq_NoDup].
    intros i j H. injection H as H. now apply tally_inj.
  - apply NoDup_map_injective; [|apply seq_NoDup].
    intros i j H. injection H as H. now apply tally_inj.
  - intros a Ha Hb.
    apply in_map_iff in Ha as [i [<- _]].
    apply in_map_iff in Hb as [j [Hj _]]. discriminate.
Qed.

Lemma overfetch_store_ranked (limit : nat) :
  StronglySorted (fun a b => rank_le a b = true) (overfetch_store limit).
Proof.
  unfold overfetch_store. apply sorted_app.
  - apply sorted_all_pairs. intros a b Ha Hb.
    apply in_noise_rows in Ha as [i ->]. apply in_noise_rows in Hb as [j ->].
    reflexivity.
  - apply sorted_all_pairs. intros a b Ha Hb.
    apply in_plain_rows in Ha as [i ->]. apply in_plain_rows in Hb as [j ->].
    reflexivity.
  - intros a b Ha Hb.
    apply in_noise_rows in Ha as [i ->]. apply in_plain_rows in Hb as [j ->].
    reflexivity.
Qed.

Lemma filter_all {A : Type} (p : A -> bool) (l : list A) :
  (forall x, In x l -> p x = true) -> filter p l = l.
Proof.
  intros H. apply forallb_filter_id. apply forallb_forall. exact H.
Qed.

Lemma filter_none {A : Type} (p : A -> bool) (l : list A) :
  (forall x, In x l -> p x = false) -> filter p l = [].
Proof.
  induction l as [|x l IH]; intros H; simpl; [reflexivity|].
  rewrite (H x (or_introl eq_refl)). apply IH. intros y Hy. apply H. now right.
Qed.

Lemma plain_rows_S (n : nat) :
  plain_rows (S n)
  = plain_rows n ++ [sample_row ("plain-" ++ tally n) "look" (5 # 10)
                                "2026-01-01T00:00:00.000Z"].
Proof. unfold plain_rows. now rewrite seq_S, map_app. Qed.

Lemma noise_rows_length (k : nat) : length (noise_rows k) = k.
Proof. unfold noise_rows. now rewrite length_map, length_seq. Qed.

Lemma plain_rows_length (k : nat) : length (plain_rows k) = k.
Proof. unfold plain_rows. now rewrite length_map, length_seq. Qed.

(** The boundary of the over-fetch, for every positive limit [S n]: the
    store holds [S n + 1] noise records ranked above [S n] records that match
    the query and are not noise, and the recall returns [n] of them. *)
Lemma overfetch_boundary (n : nat) :
  let limit := S n in
  let request := plain_query "ok" (Some (Z.of_nat limit)) (Some true) in
  let store := overfetch_store limit in
  NoDup (map row_id store)
  /\ (forall a b, In a (noise_rows (limit + 1)) -> In b (plain_rows limit) ->
                  ranks_before a b /\ ~ ranks_before b a)
  /\ filter (matches_and_clean DEFAULT_CONFIG request) store
     = plain_rows limit
  /\ recall_from DEFAULT_CONFIG store request
     = map memory_of_row (plain_rows n)
  /\ length (recall_from DEFAULT_CONFIG store request) < limit.
Proof.
  intros limit request store.
  assert (Hnoise : forall r, In r (noise_rows (limit + 1)) ->
            where_all (conditions request) r = true
            /\ is_noise DEFAULT_CONFIG (memory_of_row r) = true).
  { intros r Hr. apply in_noise_rows in Hr as [i ->]. split; reflexivity. }
  assert (Hplain : forall k r, In r (plain_rows k) ->
            where_all (conditions request) r = true
            /\ is_noise DEFAULT_CONFIG (memory_of_row r) = false).
  { intros k r Hr. apply in_plain_rows in Hr as [i ->].
    split; vm_compute; reflexivity. }
  assert (Hfetch : fetch store request
                   = noise_rows (limit + 1) ++ plain_rows n).
  { unfold fetch.
    replace (effective_limit request) with (Z.of_nat limit)
      by (unfold limit; reflexivity).
    rewrite limit_nonneg, Nat2Z.id by lia.
    rewrite (filter_all (where_all (conditions request)) store).
    2:{ intros r Hr. unfold store, overfetch_store in Hr.
        apply in_app_or in Hr as [Hr|Hr];
          [now apply Hnoise|now apply (Hplain limit)]. }
    unfold store.
    rewrite (order_by_sorted_id rank_le _ (overfetch_store_ranked limit)).
    unfold overfetch_store.
    rewrite firstn_app, noise_rows_length.
    rewrite (firstn_all2 (noise_rows (limit + 1)))
      by (rewrite noise_rows_length; unfold limit; lia).
    replace (2 * limit - (limit + 1)) with n by (unfold limit; lia).
    f_equal. unfold limit.
    rewrite plain_rows_S, firstn_app, plain_rows_length.
    rewrite Nat.sub_diag, firstn_0, app_nil_r.
    apply firstn_all2. now rewrite plain_rows_length. }
  assert (Hrecall : recall_from DEFAULT_CONFIG store request
                    = map memory_of_row (plain_rows n)).
  { unfold recall_from. rewrite Hfetch.
    replace (effective_limit request) with (Z.of_nat limit)
      by (unfold limit; reflexivity).
    rewrite slice0_nonneg, Nat2Z.id by lia.
    change (filters_noise request) with true. cbv iota.
    rewrite map_app, filter_app.
    rewrite filter_none.
    2:{ intros m Hm. apply in_map_iff in Hm as [r [<- Hr]].
        now rewrite (proj2 (Hnoise r Hr)). }
    rewrite filter_all.
    2:{ intros m Hm. apply in_map_iff in Hm as [r [<- Hr]].
        now rewrite (proj2 (Hplain n r Hr)). }
    simpl app. apply firstn_all2.
    rewrite length_map, plain_rows_length. unfold limit. lia. }
  split; [apply overfetch_store_ids|].
  split.
  { intros a b Ha Hb.
    apply in_noise_rows in Ha as [i ->]. apply in_plain_rows in Hb as [j ->].
    rewrite <- !rank_le_iff. split; [reflexivity|discriminate]. }
  split.
  { unfold store, overfetch_store, matches_and_clean. rewrite filter_app.
    rewrite filter_none.
    2:{ intros r Hr. destruct (Hnoise r Hr) as [-> ->]. reflexivity. }
    apply filter_all.
    intros r Hr. destruct (Hplain limit r Hr) as [-> ->]. reflexivity. }
  split; [exact Hrecall|].
  rewrite Hrecall, length_map, plain_rows_length. unfold limit. lia.
Qed.

(** C4, for limits that are not negative. [recall] fetches the first
    [2 * limit] rows of the matching rows in ranked order, so at most
    [2 * limit] rows, filters noise out of them unless told not to, and
    returns the first [limit] of what is left, so at most [limit] records in
    ranked order. For every positive limit there is a store, with
    [limit + 1] noise records ranked above [limit] matching records that are
    not noise, on which the recall with [filterNoise] true returns fewer
    than [limit] records. *)
Theorem recall_overfetch
        (w : World) (t : Table) (params : MemoryRecallParams) :
  (0 <= effective_limit params)%Z ->
  let limit := Z.to_nat (effective_limit params) in
  let ranked :=
    Sql.order_by rank_le (filter (where_all (conditions params)) t) in
  let fetched := map memory_of_row (fetch t params) in
  let cleaned :=
    if filters_noise params
    then filter (fun m => negb (is_noise (config (self w)) m)) fetched
    else fetched in
  fetch t params = firstn (2 * limit) ranked
  /\ length (fetch t params) <= 2 * limit
  /\ StronglySorted ranks_before (fetch t params)
  /\ recall params (with_table t w)
     = (Return (firstn limit cleaned), with_table t w)
  /\ length (firstn limit cleaned) <= limit
  /\ (forall n : nat,
        let request :=
          plain_query "ok" (Some (Z.of_nat (S n))) (Some true) in
        let store := overfetch_store (S n) in
        NoDup (map row_id store)
        /\ (forall a b, In a (noise_rows (S n + 1)) ->
                        In b (plain_rows (S n)) ->
                        ranks_before a b /\ ~ ranks_before b a)
        /\ filter (matches_and_clean DEFAULT_CONFIG request) store
           = plain_rows (S n)
        /\ recall_from DEFAULT_CONFIG store request
           = map memory_of_row (plain_rows n)
        /\ length (recall_from DEFAULT_CONFIG store request) < S n).
Proof.
  intros Hlimit limit ranked fetched cleaned.
  assert (Hfetch : fetch t params = firstn (2 * limit) ranked).
  { unfold fetch. now rewrite limit_nonneg. }
  split; [exact Hfetch|].
  split; [rewrite Hfetch; apply firstn_le_length|].
  split; [apply fetch_sorted|].
  split.
  { rewrite recall_with_table. unfold recall_from.
    now rewrite slice0_nonneg. }
  split; [apply firstn_le_length|].
  intros n. apply overfetch_boundary.
Qed.

Lemma recall_overfetch_witness :
  let t := [sample_row "a" "first" (9 # 10) "2026-01-01T00:00:01.000Z"] in
  let params := plain_query "" (Some 3%Z) None in
  (0 <= effective_limit params)%Z
  /\ length (fetch t params) <= 2 * Z.to_nat (effective_limit params).
Proof.
  split; [vm_compute; discriminate|].
  apply (recall_overfetch (fresh_world no_config)
           [sample_row "a" "first" (9 # 10) "2026-01-01T00:00:01.000Z"]
           (plain_query "" (Some 3%Z) None)).
  vm_compute. discriminate.
Defined.

(** C4 as worded fails on a negative limit: with [limit = -1] the engine
    reads [LIMIT -2] as no bound and [slice(0, -1)] drops one record, so on
    three records the fetch has three rows and the recall returns two,
    neither within [2 * limit] nor within [limit]. *)
Lemma recall_negative_limit_unbounded :
  let t := [sample_row "a" "first" (9 # 10) "2026-01-01T00:00:01.000Z";
            sample_row "b" "second" (8 # 10) "2026-01-01T00:00:02.000Z";
            sample_row "c" "third" (7 # 10) "2026-01-01T00:00:03.000Z"] in
  let params := plain_query "" (Some (-1)%Z) None in
  effective_limit params = (-1)%Z
  /\ length (fetch t params) = 3
  /\ map mem_id (recall_from DEFAULT_CONFIG t params) = ["a"; "b"]%string
  /\ ~ (Z.of_nat (length (fetch t params)) <= 2 * effective_limit params)%Z
  /\ ~ (Z.of_nat (length (recall_from DEFAULT_CONFIG t params))
        <= effective_limit params)%Z.
Proof. vm_compute. repeat split; intros H; now apply H. Qed.

(* ------------------------------------------------------------------------- *)
(** ** Deleting by identifier under the primary key *)
(* ------------------------------------------------------------------------- *)

Lemma id_in_iff (ids : list string) (r : Row) :
  id_in ids r = true <-> In (row_id r) ids.
Proof.
  unfold id_in. rewrite existsb_exists. split.
  - intros [i [Hi H]]. apply String.eqb_eq in H. now subst.
  - intros H. exists (row_id r). split; [exact H|apply String.eqb_refl].
Qed.

Lemma unique_ids_rows (t : Table) : unique_ids t -> NoDup t.
Proof. apply NoDup_map_inv. Qed.

Lemma unique_ids_inj (t : Table) (a b : Row) :
  unique_ids t -> In a t -> In b t -> row_id a = row_id b -> a = b.
Proof.
  unfold unique_ids. induction t as [|x t IH]; simpl; [contradiction|].
  intros Hnd Ha Hb Hid. apply NoDup_cons_iff in Hnd as [Hx Hnd].
  destruct Ha as [<-|Ha], Hb as [<-|Hb]; auto.
  - exfalso. apply Hx. rewrite Hid. now apply in_map.
  - exfalso. apply Hx. rewrite <- Hid. now apply in_map.
Qed.

Lemma unique_ids_without (ids : list string) (t : Table) :
  unique_ids t -> unique_ids (without_ids ids t).
Proof.
  unfold unique_ids, without_ids.
  induction t as [|x t IH]; simpl; intros H; [constructor|].
  apply NoDup_cons_iff in H as [Hx H].
  destruct (negb (id_in ids x)); [|now apply IH].
  simpl. constructor; [|now apply IH].
  intros Hin. apply Hx. apply in_map_iff in Hin as [y [Hy Hin]].
  apply filter_In in Hin as [Hin _]. rewrite <- Hy. now apply in_map.
Qed.

Lemma filter_split_perm {A : Type} (p : A -> bool) (l : list A) :
  Permutation l (filter p l ++ filter (fun x => negb (p x)) l).
Proof.
  induction l as [|x l IH]; simpl; [reflexivity|].
  destruct (p x); simpl.
  - now constructor.
  - now apply Permutation_cons_app.
Qed.

Lemma filter_split_length {A : Type} (p : A -> bool) (l : list A) :
  length (filter p l) + length (filter (fun x => negb (p x)) l) = length l.
Proof.
  rewrite <- length_app. symmetry.
  apply Permutation_length, filter_split_perm.
Qed.

(** Deleting the identifiers of some rows of the table deletes those rows
    and no others. *)
Lemma delete_selected_rows (t sel : list Row) :
  unique_ids t -> NoDup sel -> (forall r, In r sel -> In r t) ->
  Permutation (filter (id_in (map row_id sel)) t) sel
  /\ (forall r, In r (without_ids (map row_id sel) t) <->
                In r t /\ ~ In r sel).
Proof.
  intros Hu Hsel Hsub.
  assert (Hin : forall r, In r t ->
            (id_in (map row_id sel) r = true <-> In r sel)).
  { intros r Hr. rewrite id_in_iff. split.
    - intros H. apply in_map_iff in H as [e [He Hes]].
      now rewrite <- (unique_ids_inj t e r Hu (Hsub e Hes) Hr He).
    - now apply in_map. }
  split.
  - apply NoDup_Permutation;
      [apply NoDup_filter; now apply unique_ids_rows|exact Hsel|].
    intros r. rewrite filter_In. split.
    + intros [Hr H]. now apply Hin.
    + intros H. split; [now apply Hsub|]. apply Hin; auto.
  - intros r. unfold without_ids. rewrite filter_In, negb_true_iff. split.
    + intros [Hr H]. split; [exact Hr|]. intros Hs.
      apply (Hin r Hr) in Hs. congruence.
    + intros [Hr H]. split; [exact Hr|].
      destruct (id_in (map row_id sel) r) eqn:E; [|reflexivity].
      exfalso. apply H. now apply Hin.
Qed.

(* ------------------------------------------------------------------------- *)
(** ** Eviction *)
(* ------------------------------------------------------------------------- *)

Lemma without_no_ids (t : Table) : without_ids [] t = t.
Proof. unfold without_ids. apply filter_all. reflexivity. Qed.

Lemma evicted_rows_firstn (cfg : Config) (t : Table) :
  (0 <= maxMemories cfg)%Z ->
  evicted_rows cfg t
  = firstn (length t - Z.to_nat (maxMemories cfg)) (Sql.order_by evict_le t).
Proof.
  intros H. unfold evicted_rows, Sql.limit.
  destruct (Z.ltb_spec (maxMemories cfg) (Z.of_nat (length t))) as [Hlt|Hge].
  - destruct (Z.ltb_spec (Z.of_nat (length t) - maxMemories cfg) 0); [lia|].
    f_equal. lia.
  - replace (length t - Z.to_nat (maxMemories cfg)) with 0 by lia.
    reflexivity.
Qed.

(** What one eviction pass does to a table under a ceiling that is not
    negative. *)
Lemma eviction_pass (cfg : Config) (t : Table) :
  (0 <= maxMemories cfg)%Z -> unique_ids t ->
  let ceiling := Z.to_nat (maxMemories cfg) in
  let evicted := evicted_rows cfg t in
  let kept := without_ids (map row_id evicted) t in
  length evicted = length t - ceiling
  /\ Permutation t (evicted ++ kept)
  /\ length kept = Nat.min (length t) ceiling
  /\ (forall e r, In e evicted -> In r kept -> evicts_before e r)
  /\ (forall e r, In e evicted -> In r t -> evicts_before e r
                                           \/ In r evicted)
  /\ unique_ids kept.
Proof.
  intros Hmax Hu ceiling evicted kept.
  pose (sorted := Sql.order_by evict_le t).
  pose (k := length t - ceiling).
  assert (Hev : evicted = firstn k sorted)
    by (apply evicted_rows_firstn; exact Hmax).
  assert (Hperm : Permutation t sorted) by apply order_by_perm.
  assert (Hsorted : StronglySorted (fun a b => evict_le a b = true) sorted)
    by (apply order_by_sorted; [apply evict_le_total|apply evict_le_trans]).
  assert (Hnd : NoDup sorted).
  { apply (Permutation_NoDup Hperm). now apply unique_ids_rows. }
  assert (Hnd_ev : NoDup evicted).
  { rewrite Hev. rewrite <- (firstn_skipn k sorted) in Hnd.
    now apply NoDup_app_remove_r in Hnd. }
  assert (Hsub : forall r, In r evicted -> In r t).
  { intros r Hr. rewrite Hev in Hr. apply In_firstn in Hr.
    now apply (Permutation_in _ (Permutation_sym Hperm)). }
  destruct (delete_selected_rows t evicted Hu Hnd_ev Hsub) as [Hdel Hkept].
  assert (Hlen : length evicted = k).
  { rewrite Hev, length_firstn. unfold sorted.
    rewrite order_by_length. unfold k. lia. }
  assert (Hsplit : Permutation t (evicted ++ kept)).
  { rewrite (filter_split_perm (id_in (map row_id evicted)) t) at 1.
    apply Permutation_app; [exact Hdel|reflexivity]. }
  assert (Hrest : forall r, In r t -> ~ In r evicted -> In r (skipn k sorted)).
  { intros r Hr Hne. apply (Permutation_in _ Hperm) in Hr.
    rewrite <- (firstn_skipn k sorted) in Hr.
    apply in_app_or in Hr as [Hr|Hr]; [|exact Hr].
    exfalso. apply Hne. now rewrite Hev. }
  split; [exact Hlen|].
  split; [exact Hsplit|].
  split.
  { apply Permutation_length in Hsplit. rewrite length_app, Hlen in Hsplit.
    unfold k in Hsplit. lia. }
  split.
  { intros e r He Hr. apply Hkept in Hr as [Hr Hne].
    apply evict_le_iff.
    apply (sorted_firstn_skipn evict_le k sorted Hsorted).
    - now rewrite <- Hev.
    - now apply Hrest. }
  split.
  { intros e r He Hr.
    destruct (id_in (map row_id evicted) r) eqn:E.
    - right. apply id_in_iff, in_map_iff in E as [e' [Hid He']].
      now rewrite <- (unique_ids_inj t e' r Hu (Hsub e' He') Hr Hid).
    - left. apply evict_le_iff.
      apply (sorted_firstn_skipn evict_le k sorted Hsorted).
      + now rewrite <- Hev.
      + apply Hrest; [exact Hr|]. intros Hin.
        assert (In r kept) as Hk.
        { unfold kept, without_ids. apply filter_In. now rewrite E. }
        now apply Hkept in Hk. }
  now apply unique_ids_without.
Qed.

(* ------------------------------------------------------------------------- *)
(** ** Running [store] and [forget] *)
(* ------------------------------------------------------------------------- *)

Lemma fresh_id (uuid : string) (t : Table) :
  ~ In uuid (map row_id t) ->
  existsb (fun x => (row_id x =? uuid)%string) t = false.
Proof.
  intros H. apply not_true_iff_false. intros E.
  apply existsb_exists in E as [x [Hx E]]. apply String.eqb_eq in E.
  apply H. rewrite <- E. now apply in_map.
Qed.

Ltac unfold_methods :=
  unfold store, forget, recall, pruneOldMemories, stats, insert, delete_ids,
    markDirty, saveIfDirty, save, writeFileSync, require_db,
    when, gets, modify, bind, ret, throw.

Ltac run_method :=
  cbn -[Z.of_nat Z.ltb Z.eqb Z.sub Sql.limit Sql.order_by new_memory length
        recall_from filter map Nat.ltb].

(** [store] on a loaded database, with a fresh identifier and a save that
    succeeds: it returns the new record, and the table is the old one with
    the new row, less the rows the eviction pass selects. *)
Lemma store_returns (w : World) (t : Table) (params : MemoryStoreParams)
      (uuid now : string) :
  db (self w) = Some t ->
  ~ In uuid (map row_id t) ->
  save_succeeds w = true ->
  let cfg := config (self w) in
  let memory := new_memory cfg params uuid now in
  let t1 := t ++ [row_of_memory memory] in
  exists w',
    store params uuid now w = (Return memory, w')
    /\ db (self w') = Some (without_ids (map row_id (evicted_rows cfg t1)) t1)
    /\ config (self w') = cfg.
Proof.
  destruct w as [[d cfg di tm ini] [dir file wr]].
  unfold save_succeeds. cbn [self fs db config fs_writable].
  intros -> Hfresh Hsave. cbv zeta.
  set (memory := new_memory cfg params uuid now).
  set (t1 := t ++ [row_of_memory memory]).
  apply fresh_id in Hfresh.
  unfold_methods. run_method.
  change (mem_id (new_memory cfg params uuid now)) with uuid.
  rewrite Hfresh. run_method. fold memory. fold t1.
  unfold evicted_rows.
  destruct (autoSaveInterval cfg =? 0)%Z eqn:Eint;
    [destruct wr; [|discriminate]|];
    run_method;
    destruct (maxMemories cfg <? Z.of_nat (length t1))%Z eqn:Emax;
    run_method; rewrite ?Eint; run_method;
    eexists; (split; [reflexivity|]);
    cbn [self db config]; rewrite ?without_no_ids; split; reflexivity.
Qed.

Lemma no_targets (t : Table) : filter (id_in []) t = [].
Proof. apply filter_none. reflexivity. Qed.

Lemma stats_returns (w : World) (t : Table) :
  db (self w) = Some t ->
  stats w = (Return {| total := length t; byCategory := group_count t [] |}, w).
Proof.
  destruct w as [[d cfg di tm ini] env]. cbn [self db]. intros ->. reflexivity.
Qed.

(** [forget] on a loaded database with a save that succeeds: it returns the
    number of rows that carry a targeted identifier, and the table is the
    old one without those rows. *)
Lemma forget_returns (w : World) (t : Table) (params : MemoryForgetParams) :
  db (self w) = Some t ->
  save_succeeds w = true ->
  let cfg := config (self w) in
  let targets := forget_targets cfg t params in
  exists w',
    forget params w
    = (Return {| deleted := length (filter (id_in targets) t) |}, w')
    /\ db (self w') = Some (without_ids targets t)
    /\ config (self w') = cfg.
Proof.
  destruct w as [[d cfg di tm ini] [dir file wr]].
  unfold save_succeeds. cbn [self fs db config fs_writable].
  intros -> Hsave. cbv zeta. unfold forget_targets, plain_query.
  unfold_methods. run_method.
  destruct (str_or_null (fp_memoryId params)) as [memoryId|].
  - run_method.
    destruct (0 <? length (filter (id_in [memoryId]) t)) eqn:En; run_method;
      [destruct (autoSaveInterval cfg =? 0)%Z eqn:Eint;
       [destruct wr; [|discriminate]|]; run_method|];
      eexists; (split; [reflexivity|]); split; reflexivity.
  - destruct (str_or_null (fp_query params)) as [query|]; run_method.
    + set (found := recall_from cfg t _).
      destruct (0 <? length found) eqn:Efound; run_method.
      * destruct (0 <? length (filter (id_in (map mem_id found)) t)) eqn:En;
          run_method;
          [destruct (autoSaveInterval cfg =? 0)%Z eqn:Eint;
           [destruct wr; [|discriminate]|]; run_method|];
          eexists; (split; [reflexivity|]); split; reflexivity.
      * apply Nat.ltb_ge in Efound.
        destruct found as [|m found]; [|simpl in Efound; lia].
        cbn [map]. rewrite no_targets, without_no_ids.
        eexists. split; [reflexivity|]. split; reflexivity.
    + rewrite no_targets, without_no_ids.
      eexists. split; [reflexivity|]. split; reflexivity.
Qed.

Lemma evicts_before_refl (r : Row) : evicts_before r r.
Proof. apply evict_le_iff. now destruct (evict_le_total r r). Qed.

Lemma unique_ids_snoc (t : Table) (r : Row) :
  unique_ids t -> ~ In (row_id r) (map row_id t) -> unique_ids (t ++ [r]).
Proof.
  unfold unique_ids. intros Hu Hfresh. rewrite map_app. simpl.
  apply NoDup_app; [exact Hu|repeat constructor; intros []|].
  intros a Ha [<-|[]]. now apply Hfresh.
Qed.

(** C5. Under a ceiling [maxMemories] that is not negative, a [store] that
    completes leaves at most [maxMemories] records. The table is the old one
    plus the new row, less the evicted rows. Those are removed in one pass,
    are exactly as many as the count exceeds the ceiling, and are the first
    rows of the whole table in the order lowest importance first, oldest
    [createdAt] first among equal importance: every evicted row comes before
    every kept row in that order. When the table held exactly [maxMemories]
    records, one record is removed, and it comes before every record of the
    [maxMemories + 1] in that order. [forget] runs no eviction: it removes
    the rows it targets and no others, whatever the count. *)
Theorem store_enforces_ceiling
        (w : World) (t : Table) (params : MemoryStoreParams)
        (uuid now : string) :
  db (self w) = Some t ->
  unique_ids t ->
  ~ In uuid (map row_id t) ->
  (0 <= maxMemories (config (self w)))%Z ->
  save_succeeds w = true ->
  let cfg := config (self w) in
  let ceiling := Z.to_nat (maxMemories cfg) in
  let memory := new_memory cfg params uuid now in
  let t1 := t ++ [row_of_memory memory] in
  let evicted := firstn (length t1 - ceiling) (Sql.order_by evict_le t1) in
  exists (w' : World) (kept : Table),
    store params uuid now w = (Return memory, w')
    /\ db (self w') = Some kept
    /\ stats w'
       = (Return {| total := length kept; byCategory := group_count kept [] |},
          w')
    /\ length kept <= ceiling
    /\ length kept = Nat.min (length t + 1) ceiling
    /\ length evicted = length t + 1 - ceiling
    /\ kept = without_ids (map row_id evicted) t1
    /\ Permutation t1 (evicted ++ kept)
    /\ (forall e r, In e evicted -> In r kept -> evicts_before e r)
    /\ unique_ids kept
    /\ (length t = ceiling ->
        exists e, evicted = [e]
                  /\ length kept = ceiling
                  /\ forall r, In r t1 -> evicts_before e r)
    /\ (forall request : MemoryForgetParams,
          exists w'',
            forget request w
            = (Return {| deleted :=
                           length (filter (id_in (forget_targets cfg t request))
                                          t) |}, w'')
            /\ db (self w'')
               = Some (without_ids (forget_targets cfg t request) t)).
Proof.
  intros Hdb Hu Hfresh Hmax Hsave cfg ceiling memory t1 evicted.
  destruct (store_returns w t params uuid now Hdb Hfresh Hsave)
    as [w' [Hstore [Hdb' Hcfg']]].
  fold cfg memory t1 in Hstore, Hdb'.
  assert (Hu1 : unique_ids t1) by (now apply unique_ids_snoc).
  assert (Hev : evicted_rows cfg t1 = evicted)
    by (now apply evicted_rows_firstn).
  destruct (eviction_pass cfg t1 Hmax Hu1)
    as [Hlen [Hperm [Hkept [Hord [Hmin Hu']]]]].
  rewrite Hev in *. fold ceiling in Hlen, Hkept.
  assert (Ht1 : length t1 = length t + 1)
    by (unfold t1; now rewrite length_app).
  exists w', (without_ids (map row_id evicted) t1).
  split; [exact Hstore|].
  split; [exact Hdb'|].
  split; [now apply stats_returns|].
  split; [lia|].
  split; [lia|].
  split; [lia|].
  split; [reflexivity|].
  split; [exact Hperm|].
  split; [exact Hord|].
  split; [exact Hu'|].
  split.
  - intros Hfull.
    destruct evicted as [|e [|e' rest]] eqn:E; simpl in Hlen; try lia.
    exists e. split; [reflexivity|]. split; [lia|].
    intros r Hr. destruct (Hmin e r (or_introl eq_refl) Hr) as [H|[<-|[]]];
      [exact H|apply evicts_before_refl].
  - intros request.
    destruct (forget_returns w t request Hdb Hsave) as [w'' [Hf [Hdb'' _]]].
    exists w''. split; [exact Hf|exact Hdb''].
Qed.

Lemma store_enforces_ceiling_witness :
  let old := sample_row "id1" "first" (9 # 10) "2026-01-01T00:00:01.000Z" in
  let w := ready_world 1 [old] in
  let params := mkStoreParams "second" None (Some (5 # 10)%Q) None None in
  exists (w' : World) (kept : Table),
    store params "id2" "2026-01-01T00:00:02.000Z" w
    = (Return (new_memory (config (self w)) params "id2"
                          "2026-01-01T00:00:02.000Z"), w')
    /\ db (self w') = Some kept
    /\ length kept <= 1.
Proof.
  intros old w params.
  destruct (store_enforces_ceiling w [old] params "id2"
              "2026-01-01T00:00:02.000Z") as [w' [kept H]].
  - reflexivity.
  - repeat constructor. intros [].
  - intros [H|[]]. discriminate H.
  - vm_compute. discriminate.
  - reflexivity.
  - exists w', kept. repeat split; apply H.
Defined.

(** Storing into a full store of one record of importance 0.9 a record of
    importance 0.5 evicts the record just stored. *)
Example store_can_evict_the_new_record :
  let old := sample_row "id1" "first" (9 # 10) "2026-01-01T00:00:01.000Z" in
  let params := mkStoreParams "second" None (Some (5 # 10)%Q) None None in
  match store params "id2" "2026-01-01T00:00:02.000Z" (ready_world 1 [old])
  with
  | (Return m, w') => mem_id m = "id2"%string /\ db (self w') = Some [old]
  | (Throw _, _) => False
  end.
Proof. vm_compute. split; reflexivity. Qed.

(* ------------------------------------------------------------------------- *)
(** ** Deletion *)
(* ------------------------------------------------------------------------- *)

Lemma NoDup_firstn {A : Type} (k : nat) (l : list A) :
  NoDup l -> NoDup (firstn k l).
Proof.
  intros H. rewrite <- (firstn_skipn k l) in H.
  now apply NoDup_app_remove_r in H.
Qed.

Lemma limit_In {A : Type} (n : Z) (l : list A) (x : A) :
  In x (Sql.limit n l) -> In x l.
Proof.
  unfold Sql.limit. destruct (n <? 0)%Z; [auto|apply In_firstn].
Qed.

Lemma limit_NoDup {A : Type} (n : Z) (l : list A) :
  NoDup l -> NoDup (Sql.limit n l).
Proof.
  unfold Sql.limit. destruct (n <? 0)%Z; [auto|apply NoDup_firstn].
Qed.

(** Every fetched row is a row of the table that satisfies the conditions. *)
Lemma fetch_In (t : Table) (params : MemoryRecallParams) (r : Row) :
  In r (fetch t params) ->
  In r t /\ where_all (conditions params) r = true.
Proof.
  unfold fetch. intros H. apply limit_In in H.
  apply order_by_In in H. now apply filter_In in H.
Qed.

Lemma fetch_NoDup (t : Table) (params : MemoryRecallParams) :
  NoDup t -> NoDup (fetch t params).
Proof.
  intros H. unfold fetch. apply limit_NoDup.
  apply (Permutation_NoDup (order_by_perm rank_le _)).
  now apply NoDup_filter.
Qed.

(** What a recall without the noise filter returns, in rows. *)
Lemma recall_unfiltered (cfg : Config) (t : Table) (q : string) (n : Z) :
  (0 < n)%Z ->
  recall_from cfg t (plain_query q (Some n) (Some false))
  = map memory_of_row
        (firstn (Z.to_nat n) (fetch t (plain_query q (Some n) (Some false)))).
Proof.
  intros Hn. unfold recall_from.
  replace (effective_limit (plain_query q (Some n) (Some false))) with n.
  - rewrite slice0_nonneg by lia. cbn [filters_noise plain_query rp_filterNoise].
    apply firstn_map.
  - unfold effective_limit, plain_query, num_or. cbn [rp_limit].
    destruct (Z.eqb_spec n 0); [lia|reflexivity].
Qed.

Lemma length_without (ids : list string) (t : Table) :
  length (filter (id_in ids) t) + length (without_ids ids t) = length t.
Proof. apply filter_split_length. Qed.

(** C6. On a loaded database whose save succeeds, [forget] returns, and the
    rows it removes are exactly the rows that carry a targeted identifier:
    the given [memoryId] alone when one is given; otherwise, when a query is
    given, the identifiers of the records that [recall] returns for that
    query with [filterNoise] false and limit 100; otherwise none. The
    [deleted] field is the number of rows removed, and the total count goes
    down by that number. A given identifier removes one row when the table
    holds it and none when it does not; a query removes as many rows as the
    recall returned records. *)
Theorem forget_removes_its_targets
        (w : World) (t : Table) (params : MemoryForgetParams) :
  db (self w) = Some t ->
  unique_ids t ->
  save_succeeds w = true ->
  let cfg := config (self w) in
  let targets := forget_targets cfg t params in
  let t' := without_ids targets t in
  exists (w' : World) (n : nat),
    forget params w = (Return {| deleted := n |}, w')
    /\ db (self w') = Some t'
    /\ (forall r, In r t' <-> In r t /\ ~ In (row_id r) targets)
    /\ length t' + n = length t
    /\ stats w
       = (Return {| total := length t; byCategory := group_count t [] |}, w)
    /\ stats w'
       = (Return {| total := length t - n; byCategory := group_count t' [] |},
          w')
    /\ (forall memoryId,
          str_or_null (fp_memoryId params) = Some memoryId ->
          targets = [memoryId]
          /\ (In memoryId (map row_id t) -> n = 1)
          /\ (~ In memoryId (map row_id t) -> n = 0 /\ t' = t))
    /\ (forall query,
          str_or_null (fp_memoryId params) = None ->
          str_or_null (fp_query params) = Some query ->
          let request := plain_query query (Some 100%Z) (Some false) in
          recall request w = (Return (recall_from cfg t request), w)
          /\ targets = map mem_id (recall_from cfg t request)
          /\ n = length (recall_from cfg t request))
    /\ (str_or_null (fp_memoryId params) = None ->
        str_or_null (fp_query params) = None ->
        targets = [] /\ n = 0 /\ t' = t).
Proof.
  intros Hdb Hu Hsave cfg targets t'.
  destruct (forget_returns w t params Hdb Hsave) as [w' [Hf [Hdb' _]]].
  fold cfg targets t' in Hf, Hdb'.
  pose proof (length_without targets t) as Hlen. fold t' in Hlen.
  exists w', (length (filter (id_in targets) t)).
  split; [exact Hf|].
  split; [exact Hdb'|].
  split.
  { intros r. unfold t', without_ids.
    rewrite filter_In, negb_true_iff, <- id_in_iff.
    destruct (id_in targets r); intuition congruence. }
  split; [lia|].
  split; [now apply stats_returns|].
  split.
  { rewrite (stats_returns w' t' Hdb'). do 3 f_equal. lia. }
  split.
  { intros memoryId Hid. unfold targets, forget_targets. rewrite Hid.
    split; [reflexivity|]. split.
    - intros Hin. apply in_map_iff in Hin as [r [Hr Hin]].
      assert (Hsel : forall x, In x [r] -> In x t) by (intros x [<-|[]]; auto).
      destruct (delete_selected_rows t [r] Hu
                  ltac:(repeat constructor; intros []) Hsel) as [Hp _].
      cbn [map] in Hp. rewrite Hr in Hp.
      now apply Permutation_length in Hp.
    - intros Hout.
      assert (Hnone : filter (id_in [memoryId]) t = []).
      { apply filter_none. intros r Hr.
        apply not_true_iff_false. intros E. apply id_in_iff in E as [E|[]].
        apply Hout. rewrite E. now apply in_map. }
      rewrite Hnone. split; [reflexivity|].
      unfold t', targets, forget_targets in *. rewrite Hid in Hlen.
      rewrite Hid. rewrite Hnone in Hlen. cbn [length] in Hlen.
      unfold without_ids in *.
      apply filter_all. intros r Hr. apply negb_true_iff.
      apply not_true_iff_false. intros E. apply id_in_iff in E as [E|[]].
      apply Hout. rewrite E. now apply in_map. }
  split.
  { intros query Hid Hq request.
    assert (Ht : targets = map mem_id (recall_from cfg t request)).
    { unfold targets, forget_targets. now rewrite Hid, Hq. }
    split.
    { destruct w as [[d c di tm ini] env]. cbn [self db] in Hdb. subst d.
      reflexivity. }
    split; [exact Ht|].
    rewrite Ht. unfold request.
    rewrite recall_unfiltered by lia.
    set (sel := firstn _ _).
    rewrite map_map.
    change (map (fun x => mem_id (memory_of_row x)) sel) with (map row_id sel).
    rewrite length_map.
    assert (Hnd : NoDup sel).
    { apply NoDup_firstn, fetch_NoDup. now apply unique_ids_rows. }
    assert (Hsub : forall r, In r sel -> In r t).
    { intros r Hr. apply In_firstn in Hr. now apply fetch_In in Hr. }
    destruct (delete_selected_rows t sel Hu Hnd Hsub) as [Hp _].
    now apply Permutation_length in Hp. }
  intros Hid Hq.
  assert (Ht : targets = []).
  { unfold targets, forget_targets. now rewrite Hid, Hq. }
  split; [exact Ht|].
  unfold t'. rewrite Ht, no_targets, without_no_ids. split; reflexivity.
Qed.

Lemma forget_removes_its_targets_witness :
  let a := sample_row "id1" "User lives in Switzerland" (8 # 10)
                      "2026-01-01T00:00:01.000Z" in
  let b := sample_row "id2" "User prefers dark mode" (9 # 10)
                      "2026-01-01T00:00:02.000Z" in
  let w := ready_world 10 [a; b] in
  exists (w' : World) (n : nat),
    forget (mkForgetParams None (Some "Switzerland"%string)) w
    = (Return {| deleted := n |}, w')
    /\ db (self w') = Some [b]
    /\ n = 1.
Proof.
  intros a b w.
  destruct (forget_removes_its_targets w [a; b]
              (mkForgetParams None (Some "Switzerland"%string)))
    as [w' [n [Hf [Hdb [_ [Hlen _]]]]]].
  - reflexivity.
  - repeat constructor; simpl; intuition discriminate.
  - reflexivity.
  - exists w', n. split; [exact Hf|]. split; [exact Hdb|].
    vm_compute in Hlen. injection Hlen as Hlen. exact Hlen.
Defined.

(* ------------------------------------------------------------------------- *)
(** ** Strings: substrings, lower case, words *)
(* ------------------------------------------------------------------------- *)

Lemma append_nil_r (s : string) : (s ++ "")%string = s.
Proof. induction s as [|c s IH]; simpl; [reflexivity|now rewrite IH]. Qed.

Lemma append_assoc (a b c : string) :
  ((a ++ b) ++ c)%string = (a ++ (b ++ c))%string.
Proof. induction a as [|x a IH]; simpl; [reflexivity|now rewrite IH]. Qed.

Lemma toLowerCase_append (a b : string) :
  Str.toLowerCase (a ++ b) = (Str.toLowerCase a ++ Str.toLowerCase b)%string.
Proof. induction a as [|x a IH]; simpl; [reflexivity|now rewrite IH]. Qed.

Lemma contains_cons (c : ascii) (s w : string) :
  Str.contains s w -> Str.contains (String c s) w.
Proof. intros [pre [suf ->]]. now exists (String c pre), suf. Qed.

Lemma contains_prefix (a b : string) : Str.contains (a ++ b) a.
Proof. now exists ""%string, b. Qed.

Lemma contains_trans (s t w : string) :
  Str.contains s t -> Str.contains t w -> Str.contains s w.
Proof.
  intros [p1 [s1 ->]] [p2 [s2 ->]].
  exists (p1 ++ p2)%string, (s2 ++ s1)%string.
  now rewrite !append_assoc.
Qed.

Lemma contains_lower (t q : string) :
  Str.contains t q ->
  Str.contains (Str.toLowerCase t) (Str.toLowerCase q).
Proof.
  intros [pre [suf ->]].
  exists (Str.toLowerCase pre), (Str.toLowerCase suf).
  now rewrite !toLowerCase_append.
Qed.

(** Every piece of a split is a substring of the string split. *)
Lemma split_from_contains (s : string) :
  forall (skipping : bool) (cur p : string),
    (skipping = true -> cur = ""%string) ->
    In p (Str.split_from skipping cur s) ->
    (exists a b, s = (a ++ b)%string /\ p = (cur ++ a)%string)
    \/ Str.contains s p.
Proof.
  induction s as [|c s IH]; intros skipping cur p Hskip; simpl.
  - intros [<-|[]]. left. exists ""%string, ""%string.
    split; [reflexivity|now rewrite append_nil_r].
  - destruct (Str.is_space c).
    + destruct skipping.
      * intros Hp. rewrite (Hskip eq_refl) in *. right.
        apply contains_cons.
        destruct (IH true ""%string p (fun _ => eq_refl) Hp)
          as [[a [b [-> ->]]]|H]; [apply contains_prefix|exact H].
      * intros [<-|Hp].
        -- left. exists ""%string, (String c s).
           split; [reflexivity|now rewrite append_nil_r].
        -- right. apply contains_cons.
           destruct (IH true ""%string p (fun _ => eq_refl) Hp)
             as [[a [b [-> ->]]]|H]; [apply contains_prefix|exact H].
    + intros Hp.
      destruct (IH false (cur ++ String c "")%string p
                   ltac:(discriminate) Hp) as [[a [b [-> ->]]]|H].
      * left. exists (String c a), b. now rewrite append_assoc.
      * right. now apply contains_cons.
Qed.

Lemma query_words_contained (q w : string) :
  In w (query_words q) -> Str.contains (Str.toLowerCase q) w.
Proof.
  unfold query_words, Str.split_ws. intros H. apply filter_In in H as [H _].
  destruct (split_from_contains _ false ""%string w ltac:(discriminate) H)
    as [[a [b [-> ->]]]|Hc]; [apply contains_prefix|exact Hc].
Qed.

(* ------------------------------------------------------------------------- *)
(** ** [LIKE] against substrings *)
(* ------------------------------------------------------------------------- *)

Lemma like_char_refl (c : ascii) : Sql.like_char c c = true.
Proof. unfold Sql.like_char. apply Ascii.eqb_refl. Qed.

Lemma like_percent (p t : string) :
  Sql.like (String "%" p) t = true <->
  exists pre s, t = (pre ++ s)%string /\ Sql.like p s = true.
Proof.
  cbn [Sql.like]. change (("%" =? "%")%char) with true. cbv iota.
  induction t as [|c t IH].
  - destruct (Sql.like p "") eqn:E.
    + split; [intros _; now exists ""%string, ""%string|reflexivity].
    + split; [discriminate|]. intros [pre [s [Ht Hs]]].
      destruct pre; [|discriminate]. simpl in Ht. subst s. congruence.
  - destruct (Sql.like p (String c t)) eqn:E.
    + split; [intros _; now exists ""%string, (String c t)|reflexivity].
    + rewrite IH. split.
      * intros [pre [s [-> Hs]]]. now exists (String c pre), s.
      * intros [pre [s [Ht Hs]]]. destruct pre as [|c' pre].
        -- simpl in Ht. subst s. congruence.
        -- injection Ht as -> ->. now exists pre, s.
Qed.

Lemma like_percent_all (t : string) : Sql.like "%" t = true.
Proof.
  apply like_percent. exists t, ""%string.
  split; [now rewrite append_nil_r|reflexivity].
Qed.

(** A word read as a pattern matches itself, wildcards included. *)
Lemma like_word_itself (w p s : string) :
  Sql.like p s = true -> Sql.like (w ++ p) (w ++ s) = true.
Proof.
  intros H. induction w as [|c w IH]; [exact H|].
  destruct (Ascii.eqb_spec c "%") as [->|Hc].
  - apply like_percent. exists (String "%" ""), (w ++ s)%string.
    split; [reflexivity|exact IH].
  - cbn [append Sql.like].
    destruct (Ascii.eqb_spec c "%"); [contradiction|].
    now rewrite like_char_refl, orb_true_r.
Qed.

(** A text that contains the word is matched by [%word%]. *)
Lemma like_contains (t w : string) :
  Str.contains t w -> Sql.like (like_pattern w) t = true.
Proof.
  intros [pre [suf ->]]. unfold like_pattern.
  apply like_percent. exists pre, (w ++ suf)%string.
  split; [reflexivity|]. apply like_word_itself, like_percent_all.
Qed.

(* ------------------------------------------------------------------------- *)
(** ** Recalling what was just stored *)
(* ------------------------------------------------------------------------- *)

Lemma recall_returns (w : World) (t : Table) (params : MemoryRecallParams) :
  db (self w) = Some t ->
  recall params w = (Return (recall_from (config (self w)) t params), w).
Proof.
  destruct w as [[d cfg di tm ini] env]. cbn [self db]. intros ->. reflexivity.
Qed.

Lemma plain_query_conditions (q : string) (l : option Z) (fn : option bool) :
  conditions (plain_query q l fn) = text_conditions (plain_query q l fn).
Proof. unfold conditions, plain_query. simpl. apply app_nil_r. Qed.

(** A row whose lower-cased text contains the lower-cased query passes the
    text condition of the query. *)
Lemma text_condition_of_substring
      (q : string) (l : option Z) (fn : option bool) (r : Row) :
  Str.contains (row_text_lower r) (Str.toLowerCase q) ->
  where_all (conditions (plain_query q l fn)) r = true.
Proof.
  intros Hsub. rewrite plain_query_conditions.
  unfold text_conditions, plain_query. cbn [rp_query].
  destruct (Str.truthy q); [|reflexivity].
  destruct (query_words q) as [|w ws] eqn:Ew; [reflexivity|].
  cbn [length Nat.ltb Nat.leb where_all forallb holds map existsb].
  rewrite like_contains; [reflexivity|].
  apply contains_trans with (Str.toLowerCase q); [exact Hsub|].
  apply query_words_contained. rewrite Ew. now left.
Qed.

Lemma filter_length_bound {A : Type} (p : A -> bool) (l : list A) :
  length (filter p l) <= length l.
Proof.
  induction l as [|x l IH]; simpl; [lia|]. destruct (p x); simpl; lia.
Qed.

(** When no more rows match than the limit allows, a matching row that is
    not filtered as noise is among the records recalled. *)
Lemma recall_within_limit
      (cfg : Config) (t : Table) (params : MemoryRecallParams) (r : Row) :
  In r t ->
  where_all (conditions params) r = true ->
  (filters_noise params = true -> is_noise cfg (memory_of_row r) = false) ->
  (Z.of_nat (length (filter (where_all (conditions params)) t))
   <= effective_limit params)%Z ->
  In (memory_of_row r) (recall_from cfg t params).
Proof.
  intros Hin Hwhere Hnoise Hcount.
  set (matching := filter (where_all (conditions params)) t) in *.
  assert (Hm : In r matching) by (apply filter_In; now split).
  assert (Hpos : (0 <= effective_limit params)%Z) by lia.
  assert (Hfetch : fetch t params = Sql.order_by rank_le matching).
  { unfold fetch. fold matching. rewrite limit_nonneg by exact Hpos.
    apply firstn_all2. rewrite order_by_length. lia. }
  unfold recall_from. rewrite Hfetch, slice0_nonneg by exact Hpos.
  assert (Hrow : In (memory_of_row r)
                    (map memory_of_row (Sql.order_by rank_le matching))).
  { apply in_map. now apply order_by_In. }
  assert (Hlen : length (map memory_of_row (Sql.order_by rank_le matching))
                 <= Z.to_nat (effective_limit params)).
  { rewrite length_map, order_by_length. lia. }
  destruct (filters_noise params).
  - rewrite firstn_all2.
    + apply filter_In. split; [exact Hrow|]. now rewrite Hnoise.
    + etransitivity; [apply filter_length_bound|exact Hlen].
  - now rewrite firstn_all2.
Qed.

Lemma evicted_none_below_ceiling (cfg : Config) (t : Table) :
  (Z.of_nat (length t) <= maxMemories cfg)%Z -> evicted_rows cfg t = [].
Proof.
  intros H. unfold evicted_rows.
  destruct (Z.ltb_spec (maxMemories cfg) (Z.of_nat (length t)));
    [lia|reflexivity].
Qed.

(** C7, with the conditions the code puts on it. A [store] that completes
    returns the new record. An immediate [recall] whose query, lower-cased,
    is a substring of the record's lower-cased text returns that record, as
    read back from its row, provided that (i) the row is still in the table
    after the eviction pass of that same [store], which is so whenever the
    count stays within [maxMemories]; (ii) the noise filter is off or the
    record's text is not noise; (iii) no more records match the query than
    the limit of the recall. *)
Theorem recall_returns_stored_record
        (w : World) (t : Table) (params : MemoryStoreParams)
        (uuid now query : string) (limit : option Z)
        (filterNoise : option bool) :
  db (self w) = Some t ->
  ~ In uuid (map row_id t) ->
  save_succeeds w = true ->
  Str.contains (Str.toLowerCase (sp_text params)) (Str.toLowerCase query) ->
  let cfg := config (self w) in
  let memory := new_memory cfg params uuid now in
  let row := row_of_memory memory in
  let request := plain_query query limit filterNoise in
  exists (w' : World) (t' : Table),
    store params uuid now w = (Return memory, w')
    /\ db (self w') = Some t'
    /\ ((Z.of_nat (length t) < maxMemories cfg)%Z -> t' = t ++ [row])
    /\ mem_id (memory_of_row row) = mem_id memory
    /\ mem_text (memory_of_row row) = mem_text memory
    /\ (In row t' ->
        (filters_noise request = true -> is_noise cfg memory = false) ->
        (Z.of_nat (length (filter (where_all (conditions request)) t'))
         <= effective_limit request)%Z ->
        exists memories,
          recall request w' = (Return memories, w')
          /\ In (memory_of_row row) memories).
Proof.
  intros Hdb Hfresh Hsave Hsub cfg memory row request.
  destruct (store_returns w t params uuid now Hdb Hfresh Hsave)
    as [w' [Hstore [Hdb' Hcfg']]].
  fold cfg memory row in Hstore, Hdb', Hcfg'.
  eexists w', _. split; [exact Hstore|]. split; [exact Hdb'|].
  split.
  { intros Hroom. rewrite evicted_none_below_ceiling.
    - apply without_no_ids.
    - rewrite length_app. simpl. lia. }
  split; [reflexivity|]. split; [reflexivity|].
  intros Hin Hnoise Hcount.
  eexists. split; [apply recall_returns; exact Hdb'|].
  rewrite Hcfg'. apply recall_within_limit.
  - exact Hin.
  - apply text_condition_of_substring. exact Hsub.
  - exact Hnoise.
  - exact Hcount.
Qed.

Lemma recall_returns_stored_record_witness :
  let w := ready_world 10 [] in
  let params :=
    mkStoreParams "User prefers dark mode" (Some "preference"%string)
                  (Some (9 # 10)%Q) None None in
  exists (w' : World) (memories : list Memory),
    snd (store params "id1" "2026-01-01T00:00:01.000Z" w) = w'
    /\ recall (plain_query "Dark Mode" None None) w' = (Return memories, w')
    /\ In (memory_of_row
             (row_of_memory
                (new_memory (config (self w)) params "id1"
                            "2026-01-01T00:00:01.000Z")))
          memories.
Proof.
  intros w params.
  destruct (recall_returns_stored_record w [] params "id1"
              "2026-01-01T00:00:01.000Z" "Dark Mode" None None)
    as [w' [t' [Hstore [Hdb' [Hroom [_ [_ Hrecall]]]]]]].
  - reflexivity.
  - intros [].
  - reflexivity.
  - exists "user prefers "%string, ""%string. reflexivity.
  - assert (Ht' : t' = [] ++ [row_of_memory
                                (new_memory (config (self w)) params "id1"
                                            "2026-01-01T00:00:01.000Z")]).
    { apply Hroom. vm_compute. reflexivity. }
    destruct Hrecall as [memories [Hr Hin]].
    + rewrite Ht'. now left.
    + intros _. vm_compute. reflexivity.
    + rewrite Ht'. vm_compute. discriminate.
    + exists w', memories. split; [now rewrite Hstore|]. split; assumption.
Defined.

(** C7 as worded fails in three ways. A stored "ok" is noise, so the default
    recall of "ok" returns nothing. With limit 1, a stored record ranked
    below another match is cut off. With the store full of a more important
    record, the record just stored is the one evicted. *)
Lemma recall_misses_stored_record :
  (* noise *)
  (let params := mkStoreParams "ok" None None None None in
   match store params "id1" "2026-01-01T00:00:01.000Z" (ready_world 10 []) with
   | (Return m, w') =>
       mem_text m = "ok"%string
       /\ recall (plain_query "ok" None None) w' = (Return [], w')
   | (Throw _, _) => False
   end)
  (* limit *)
  /\ (let old := sample_row "id1" "dark room" (9 # 10)
                            "2026-01-01T00:00:01.000Z" in
      let params := mkStoreParams "dark mode" None (Some (5 # 10)%Q)
                                  None None in
      match store params "id2" "2026-01-01T00:00:02.000Z"
                  (ready_world 10 [old]) with
      | (Return m, w') =>
          mem_text m = "dark mode"%string
          /\ recall (plain_query "dark" (Some 1%Z) None) w'
             = (Return [memory_of_row old], w')
      | (Throw _, _) => False
      end)
  (* eviction *)
  /\ (let old := sample_row "id1" "dark room" (9 # 10)
                            "2026-01-01T00:00:01.000Z" in
      let params := mkStoreParams "dark mode" None (Some (5 # 10)%Q)
                                  None None in
      match store params "id2" "2026-01-01T00:00:02.000Z"
                  (ready_world 1 [old]) with
      | (Return m, w') =>
          mem_text m = "dark mode"%string
          /\ recall (plain_query "dark mode" None None) w'
             = (Return [memory_of_row old], w')
      | (Throw _, _) => False
      end).
Proof. vm_compute. repeat split. Qed.

(* ------------------------------------------------------------------------- *)
(** ** The text search *)
(* ------------------------------------------------------------------------- *)

Lemma lower_char_folded (c : ascii) :
  Str.is_ascii_upper (Str.lower_char c) = false.
Proof. destruct c as [[] [] [] [] [] [] [] []]; reflexivity. Qed.

Lemma toLowerCase_folded (s : string) : folded (Str.toLowerCase s) = true.
Proof.
  induction s as [|c s IH]; [reflexivity|].
  unfold folded in *. cbn [Str.toLowerCase all_chars].
  now rewrite lower_char_folded, IH.
Qed.

Lemma all_chars_append (p : ascii -> bool) (a b : string) :
  all_chars p (a ++ b) = all_chars p a && all_chars p b.
Proof.
  induction a as [|c a IH]; [reflexivity|].
  cbn [append all_chars]. now rewrite IH, andb_assoc.
Qed.

Lemma folded_contains (s w : string) :
  Str.contains s w -> folded s = true -> folded w = true.
Proof.
  intros [pre [suf ->]]. unfold folded.
  rewrite !all_chars_append, !andb_true_iff. tauto.
Qed.

Lemma like_char_folded (p c : ascii) :
  Str.is_ascii_upper p = false -> Str.is_ascii_upper c = false ->
  Sql.like_char p c = true -> p = c.
Proof.
  unfold Sql.like_char, Str.sqlite_lower. intros -> ->.
  apply Ascii.eqb_eq.
Qed.

(** A literal word followed by a pattern matches only texts that begin with
    the word. *)
Lemma like_literal_prefix (w p s : string) :
  literal_word w = true -> folded w = true -> folded s = true ->
  Sql.like (w ++ p) s = true ->
  exists s', s = (w ++ s')%string /\ Sql.like p s' = true.
Proof.
  revert s. induction w as [|c w IH]; intros s Hlit Hw Hs H.
  - now exists s.
  - unfold literal_word, folded, is_wildcard in *.
    cbn [all_chars] in Hlit, Hw.
    apply andb_true_iff in Hlit as [Hc Hlit]. apply andb_true_iff in Hw as [Hcu Hw].
    apply negb_true_iff, orb_false_iff in Hc as [Hpct Hund].
    apply negb_true_iff in Hcu.
    cbn [append Sql.like] in H. rewrite Hpct, Hund in H.
    destruct s as [|c' s]; [discriminate|].
    cbn [all_chars] in Hs. apply andb_true_iff in Hs as [Hc' Hs].
    apply negb_true_iff in Hc'.
    cbn [orb] in H. apply if_true_iff in H as [Hcc H].
    apply (like_char_folded c c' Hcu Hc') in Hcc. subst c'.
    destruct (IH s Hlit Hw Hs H) as [s' [-> Hs']].
    now exists s'.
Qed.

(** For a literal word and a lower-cased text, [%word%] is substring
    containment. *)
Lemma like_literal_word (w t : string) :
  literal_word w = true -> folded w = true -> folded t = true ->
  (Sql.like (like_pattern w) t = true <-> Str.contains t w).
Proof.
  intros Hlit Hw Ht. split; [|apply like_contains].
  unfold like_pattern. intros H.
  apply like_percent in H as [pre [s [-> H]]].
  unfold folded in Ht. rewrite all_chars_append in Ht.
  apply andb_true_iff in Ht as [_ Hs].
  destruct (like_literal_prefix w "%" s Hlit Hw Hs H) as [s' [-> _]].
  now exists pre, s'.
Qed.

Lemma query_words_folded (q w : string) :
  In w (query_words q) -> folded w = true.
Proof.
  intros H. apply query_words_contained in H.
  apply (folded_contains _ _ H), toLowerCase_folded.
Qed.

Lemma query_words_long (q w : string) :
  In w (query_words q) -> 1 < String.length w.
Proof.
  unfold query_words. intros H. apply filter_In in H as [_ H].
  now apply Nat.ltb_lt.
Qed.

Lemma text_conditions_cases (q : string) (l : option Z)
      (c : option MemoryCategory) (df dt : option string) (fn : option bool) :
  text_conditions (mkRecallParams q l c df dt fn)
  = match query_words q with
    | [] => []
    | ws => [LikeAny (map like_pattern ws)]
    end.
Proof.
  unfold text_conditions. cbn [rp_query].
  destruct (Str.truthy q) eqn:Eq.
  - now destruct (query_words q).
  - unfold Str.truthy in Eq. apply negb_false_iff, String.eqb_eq in Eq.
    subst q. reflexivity.
Qed.

Lemma where_all_app (cs1 cs2 : list Condition) (r : Row) :
  where_all (cs1 ++ cs2) r = where_all cs1 r && where_all cs2 r.
Proof. unfold where_all. apply forallb_app. Qed.

(** The part of C1 the code keeps. The conditions of a recall are the text
    condition and the category and date conditions that are given, joined
    by AND; the text condition is absent when no word of length above 1
    survives the split, and is otherwise the OR over the surviving words of
    [text_lower LIKE %word%]; for words free of [%] and [_] on a row written
    by [store], that is containment of some word in the lower-cased text. *)
Lemma recall_conditions_structure
      (q : string) (l : option Z) (c : option MemoryCategory)
      (df dt : option string) (fn : option bool) (r : Row) :
  let params := mkRecallParams q l c df dt fn in
  where_all (conditions params) r
  = (match query_words q with
     | [] => true
     | ws => existsb (fun w => Sql.like (like_pattern w) (row_text_lower r)) ws
     end)
    && (match str_or_null c with
        | Some x => (row_category r =? x)%string
        | None => true
        end)
    && (match str_or_null df with
        | Some d => String.leb d (row_created_at r)
        | None => true
        end)
    && (match str_or_null dt with
        | Some d => String.leb (row_created_at r) d
        | None => true
        end).
Proof.
  intros params. unfold conditions, params.
  rewrite !where_all_app, text_conditions_cases. cbn [rp_category rp_dateFrom rp_dateTo].
  rewrite !andb_assoc. f_equal; [f_equal; [f_equal|]|].
  - destruct (query_words q) as [|w ws]; [reflexivity|].
    unfold where_all. cbn [forallb holds]. rewrite andb_true_r.
    generalize (w :: ws). intros ws'.
    induction ws' as [|x ws' IH]; [reflexivity|].
    cbn [map existsb]. now rewrite IH.
  - unfold optional_condition, str_or_null.
    destruct c as [x|]; [|reflexivity].
    destruct (Str.truthy x); [|reflexivity].
    unfold where_all. cbn. now rewrite andb_true_r.
  - unfold optional_condition, str_or_null.
    destruct df as [x|]; [|reflexivity].
    destruct (Str.truthy x); [|reflexivity].
    unfold where_all. cbn. now rewrite andb_true_r.
  - unfold optional_condition, str_or_null.
    destruct dt as [x|]; [|reflexivity].
    destruct (Str.truthy x); [|reflexivity].
    unfold where_all. cbn. now rewrite andb_true_r.
Qed.

Lemma text_search_literal_words (q : string) (r : Row) :
  Forall (fun w => literal_word w = true) (query_words q) ->
  folded (row_text_lower r) = true ->
  (where_all (conditions (plain_query q None None)) r = true
   <-> text_predicate_spec q r).
Proof.
  intros Hlit Hfold. unfold plain_query, text_predicate_spec.
  rewrite recall_conditions_structure. cbn [str_or_null].
  rewrite !andb_true_r.
  destruct (query_words q) as [|w ws] eqn:Ew; [intuition|].
  rewrite existsb_exists. split.
  - intros [x [Hx H]]. right. exists x. split; [exact Hx|].
    assert (Hl : literal_word x = true)
      by (rewrite Forall_forall in Hlit; now apply Hlit).
    assert (Hf : folded x = true)
      by (apply (query_words_folded q); now rewrite Ew).
    now apply (like_literal_word x (row_text_lower r) Hl Hf Hfold).
  - intros [H|[x [Hx H]]]; [discriminate|].
    exists x. split; [exact Hx|now apply like_contains].
Qed.

(** C1 at a word with a wildcard. The query "a_" has the one word "a_", of
    length 2. The lower-cased text "ab" does not contain "a_", so by C1 the
    record fails the text predicate; the code binds [%a_%] to [LIKE], where
    [_] stands for any one character, and [recall] returns the record. *)
Theorem text_search_matches_wildcards :
  let r := sample_row "id1" "ab" (7 # 10) "2026-01-01T00:00:01.000Z" in
  let w := ready_world 10 [r] in
  query_words "a_" = ["a_"%string]
  /\ row_text_lower r = "ab"%string
  /\ ~ Str.contains (row_text_lower r) "a_"
  /\ ~ text_predicate_spec "a_" r
  /\ where_all (conditions (plain_query "a_" None None)) r = true
  /\ recall (plain_query "a_" None None) w = (Return [memory_of_row r], w).
Proof.
  intros r w.
  assert (Hno : ~ Str.contains (row_text_lower r) "a_").
  { intros [pre [suf H]]. cbn in H.
    destruct pre as [|c1 [|c2 [|c3 pre]]]; cbn in H; try discriminate H;
      injection H; intros; try discriminate; subst; discriminate. }
  split; [reflexivity|]. split; [reflexivity|]. split; [exact Hno|].
  split.
  { intros [H|[x [Hx H]]]; [discriminate H|].
    destruct Hx as [<-|[]]. now apply Hno. }
  split; reflexivity.
Qed.

(* ------------------------------------------------------------------------- *)
(** ** Field invariants of the records *)
(* ------------------------------------------------------------------------- *)

Lemma new_row_invariant (cfg : Config) (params : MemoryStoreParams)
      (uuid now : string) :
  row_invariant (row_of_memory (new_memory cfg params uuid now)).
Proof. split; reflexivity. Qed.

Lemma table_invariant_nil : table_invariant [].
Proof. constructor. Qed.

Lemma table_invariant_snoc (t : Table) (r : Row) :
  table_invariant t -> row_invariant r -> table_invariant (t ++ [r]).
Proof.
  intros Ht Hr. apply Forall_app. split; [exact Ht|now constructor].
Qed.

Lemma table_invariant_filter (p : Row -> bool) (t : Table) :
  table_invariant t -> table_invariant (filter p t).
Proof.
  unfold table_invariant. rewrite !Forall_forall.
  intros H r Hr. apply filter_In in Hr as [Hr _]. now apply H.
Qed.

Ltac case_conditions :=
  repeat match goal with
         | |- context [if ?b then _ else _] => destruct b eqn:?
         | |- context [match ?o with Some _ => _ | None => _ end] =>
             destruct o eqn:?
         end.

Ltac close_invariant :=
  cbn [snd self fs db fs_file set_db set_dirty set_saveTimer set_initialized
       if_loaded];
  repeat split;
  auto using table_invariant_snoc, table_invariant_filter, new_row_invariant,
    table_invariant_nil.

(** Every call leaves the field invariants in place, whether it returns or
    throws. *)
Lemma call_preserves_invariant (c : Call) (w : World) :
  store_invariant w -> store_invariant (after c w).
Proof.
  destruct w as [[d cfg di tm ini] [dir file wr]].
  unfold store_invariant. cbn [self fs db fs_file].
  intros [Hdb Hfile].
  destruct c as [|params uuid now|params|params| | |]; unfold after.
  - unfold init, initializeSchema, ensure_dir, open_database.
    unfold_methods. run_method.
    destruct ini, dir, wr, file as [image|];
      run_method; case_conditions; close_invariant.
  - destruct d as [t|]; [|split; assumption].
    unfold_methods. run_method.
    destruct (existsb _ t); run_method; [close_invariant|].
    destruct (autoSaveInterval cfg =? 0)%Z eqn:Eint, wr; run_method;
      try close_invariant;
      destruct (maxMemories cfg <? _)%Z; run_method;
        rewrite ?Eint; run_method; close_invariant.
  - destruct d as [t|]; split; assumption.
  - destruct d as [t|]; [|split; assumption].
    unfold_methods. run_method.
    destruct (str_or_null (fp_memoryId params)) as [memoryId|]; run_method.
    + destruct (0 <? _); run_method; [|close_invariant].
      destruct (autoSaveInterval cfg =? 0)%Z, wr; run_method; close_invariant.
    + destruct (str_or_null (fp_query params)) as [query|]; run_method;
        [|close_invariant].
      destruct (0 <? length (recall_from _ _ _)); run_method;
        [|close_invariant].
      destruct (0 <? _); run_method; [|close_invariant].
      destruct (autoSaveInterval cfg =? 0)%Z, wr; run_method; close_invariant.
  - destruct d as [t|]; split; assumption.
  - unfold close. unfold_methods. run_method.
    destruct di, d as [t|], wr; run_method; close_invariant.
  - unfold tick. unfold_methods. run_method.
    destruct tm, di, d as [t|], wr; run_method; close_invariant.
Qed.


Lemma store_returns_new_memory
      (w w' : World) (params : MemoryStoreParams) (uuid now : string)
      (m : Memory) :
  store params uuid now w = (Return m, w') ->
  m = new_memory (config (self w)) params uuid now.
Proof.
  destruct w as [[d cfg di tm ini] [dir file wr]].
  unfold_methods. run_method.
  destruct d as [t|]; [|discriminate].
  run_method. destruct (existsb _ t); run_method; [discriminate|].
  destruct (autoSaveInterval cfg =? 0)%Z eqn:Eint, wr; run_method;
    try discriminate;
    destruct (maxMemories cfg <? _)%Z; run_method;
      rewrite ?Eint; run_method; intros H; now injection H.
Qed.

Lemma reachable_invariant (w : World) : reachable w -> store_invariant w.
Proof.
  induction 1 as [c dir wr|c w Hw IH|wr w Hw IH|c w Hw IH].
  - split; exact I.
  - now apply call_preserves_invariant.
  - destruct IH as [H1 H2]. split; assumption.
  - destruct IH as [H1 H2]. split; [exact I|assumption].
Qed.

(** C8. In every world reached from a new instance over a directory with no
    database file, every persisted record, in the in-memory image and in the
    file, has [text_lower] equal to the lower case of its [text] and
    [updated_at] equal to its [created_at]. Every call keeps it so, whether
    it returns or throws, and the record that a [store] returns has
    [updatedAt] equal to [createdAt] and is written as a row with both
    properties. *)
Theorem field_invariants_hold (w : World) :
  reachable w ->
  store_invariant w
  /\ (forall c : Call, store_invariant (after c w))
  /\ (forall params uuid now m w',
        store params uuid now w = (Return m, w') ->
        mem_updatedAt m = mem_createdAt m
        /\ row_invariant (row_of_memory m)).
Proof.
  intros Hreach.
  pose proof (reachable_invariant w Hreach) as Hinv.
  split; [exact Hinv|].
  split; [intros c; now apply call_preserves_invariant|].
  intros params uuid now m w' Hstore.
  apply store_returns_new_memory in Hstore. subst m.
  split; [reflexivity|apply new_row_invariant].
Qed.

Lemma field_invariants_hold_witness :
  let params := mkStoreParams "User Prefers Dark Mode" None None None None in
  let w := after (CallStore params "id1" "2026-01-01T00:00:01.000Z")
                 (after CallInit (fresh_world no_config)) in
  store_invariant w
  /\ db (self w)
     = Some [mkRow "id1" "User Prefers Dark Mode" "user prefers dark mode"
                   "other" (7 # 10) "2026-01-01T00:00:01.000Z"
                   "2026-01-01T00:00:01.000Z" None None].
Proof.
  intros params w. split; [|reflexivity].
  apply (field_invariants_hold w).
  unfold w. apply reach_call, reach_call. apply reach_new.
Defined.

(* ------------------------------------------------------------------------- *)
(** ** Calls on an instance that is not ready *)
(* ------------------------------------------------------------------------- *)

(** With no database handle, the four operations throw the
    not-initialized error and change nothing. *)
Lemma calls_without_database_fail (w : World) :
  db (self w) = None ->
  (forall params uuid now,
     store params uuid now w = (Throw DatabaseNotInitialized, w))
  /\ (forall params, recall params w = (Throw DatabaseNotInitialized, w))
  /\ (forall params, forget params w = (Throw DatabaseNotInitialized, w))
  /\ stats w = (Throw DatabaseNotInitialized, w).
Proof.
  destruct w as [[d cfg di tm ini] env]. cbn [self db]. intros ->.
  repeat split.
Qed.

(** A new instance has no database handle. *)
Lemma constructor_has_no_database (c : PluginConfig) :
  db (constructor c) = None /\ initialized (constructor c) = false.
Proof. split; reflexivity. Qed.

(** A [close] that returns leaves no database handle. *)
Lemma close_drops_database (w w' : World) :
  close w = (Return tt, w') ->
  db (self w') = None /\ initialized (self w') = false.
Proof.
  destruct w as [[d cfg di tm ini] [dir file wr]].
  unfold close. unfold_methods. run_method.
  destruct di, d as [t|], wr; run_method; intros H;
    try discriminate H; injection H as <-; split; reflexivity.
Qed.

(** An [init] that returns leaves a database handle and the flag set. *)
Lemma init_loads_database (w w' : World) :
  init w = (Return tt, w') ->
  initialized (self w') = true
  /\ (initialized (self w) = false -> exists t, db (self w') = Some t).
Proof.
  destruct w as [[d cfg di tm ini] [dir file wr]].
  unfold init, initializeSchema, ensure_dir, open_database.
  unfold_methods. run_method.
  destruct ini; run_method.
  - intros H. injection H as <-. split; [reflexivity|discriminate].
  - destruct dir, wr; run_method; try discriminate;
      destruct (0 <? autoSaveInterval cfg)%Z; run_method;
      intros H; injection H as <-; split; try reflexivity;
      intros _; eexists; reflexivity.
Qed.

(** Before [plugin.init] and after a [shutdown] that returns, the handlers
    of the plugin object throw and change nothing. *)
Lemma handlers_without_instance_fail (files : FileSystem) :
  let s := plugin.mkState None files in
  (forall params uuid now,
     plugin.memory_store params uuid now s = (Throw PluginNotInitialized, s))
  /\ (forall params,
        plugin.memory_recall params s = (Throw PluginNotInitialized, s))
  /\ (forall params,
        plugin.memory_forget params s = (Throw PluginNotInitialized, s)).
Proof. repeat split. Qed.

(** C9 at an [init] that fails. Over a directory that cannot be written,
    [init] creates the database handle, then throws while saving the schema
    and never sets [initialized]. The operations guard on the handle, so
    after that failed [init] they run: [recall], [stats] and [forget]
    return results, and [store] inserts its row before it throws on the
    save, so it fails with a storage error and changes the store. *)
Theorem calls_run_after_failed_init :
  let params := mkStoreParams "remember" None None None None in
  exists (w1 w2 : World),
    init read_only_world = (Throw StorageIOFailure, w1)
    /\ initialized (self w1) = false
    /\ db (self w1) = Some []
    /\ recall (plain_query "" None None) w1 = (Return [], w1)
    /\ stats w1 = (Return {| total := 0; byCategory := [] |}, w1)
    /\ forget (mkForgetParams None None) w1 = (Return {| deleted := 0 |}, w1)
    /\ store params "id1" "2026-01-01T00:00:01.000Z" w1
       = (Throw StorageIOFailure, w2)
    /\ db (self w2)
       = Some [row_of_memory
                 (new_memory DEFAULT_CONFIG params "id1"
                             "2026-01-01T00:00:01.000Z")]
    /\ w2 <> w1.
Proof.
  intros params.
  exists (snd (init read_only_world)).
  exists (snd (store params "id1" "2026-01-01T00:00:01.000Z"
                     (snd (init read_only_world)))).
  repeat (split; [vm_compute; reflexivity|]).
  intros H. apply (f_equal (fun w => db (self w))) in H.
  vm_compute in H. discriminate H.
Qed.

(** The same through the plugin object: after a [plugin.init] that fails,
    [memory_recall] returns. *)
Example handlers_run_after_failed_init :
  let s0 := plugin.mkState None (mkFs true None false) in
  exists s1,
    plugin.init no_config s0 = (Throw StorageIOFailure, s1)
    /\ plugin.memory_recall (plain_query "" None None) s1 = (Return [], s1).
Proof. eexists. split; reflexivity. Qed.

(** A [close] that throws on its final save keeps the database handle, and
    the operations still run after it. *)
Example calls_run_after_failed_close :
  let params := mkStoreParams "remember" None None None None in
  let w0 := mkWorld (constructor no_config) (mkFs true None true) in
  let w1 := snd (init w0) in
  let w2 := mkWorld (self w1) (mkFs true (fs_file (fs w1)) false) in
  let w3 := snd (store params "id1" "2026-01-01T00:00:01.000Z" w2) in
  exists w4,
    close w3 = (Throw StorageIOFailure, w4)
    /\ exists memories, recall (plain_query "" None None) w4
                        = (Return memories, w4)
                        /\ length memories = 1.
Proof. eexists. split; [reflexivity|]. eexists. split; reflexivity. Qed.


(* ========================================================================= *)
(** * Further properties of the class *)
(* ========================================================================= *)

(* ------------------------------------------------------------------------- *)
(** ** The primary key *)
(* ------------------------------------------------------------------------- *)

Lemma unique_ids_filter (p : Row -> bool) (t : Table) :
  unique_ids t -> unique_ids (filter p t).
Proof.
  unfold unique_ids.
  induction t as [|x t IH]; simpl; intros H; [constructor|].
  apply NoDup_cons_iff in H as [Hx H].
  destruct (p x); [|now apply IH].
  simpl. constructor; [|now apply IH].
  intros Hin. apply Hx. apply in_map_iff in Hin as [y [Hy Hin]].
  apply filter_In in Hin as [Hin _]. rewrite <- Hy. now apply in_map.
Qed.

Lemma not_existing_id (uuid : string) (t : Table) :
  existsb (fun x => (row_id x =? uuid)%string) t = false ->
  ~ In uuid (map row_id t).
Proof.
  intros E Hin. apply in_map_iff in Hin as [r [Hr Hin]].
  apply not_true_iff_false in E. apply E.
  apply existsb_exists. exists r. split; [exact Hin|].
  now apply String.eqb_eq.
Qed.

Lemma existing_id (uuid : string) (t : Table) :
  In uuid (map row_id t) ->
  existsb (fun x => (row_id x =? uuid)%string) t = true.
Proof.
  intros Hin. apply in_map_iff in Hin as [r [Hr Hin]].
  apply existsb_exists. exists r. split; [exact Hin|].
  now apply String.eqb_eq.
Qed.

Lemma unique_ids_nil : unique_ids [].
Proof. constructor. Qed.

Ltac close_ids :=
  cbn [snd self fs db fs_file set_db set_dirty set_saveTimer set_initialized
       if_loaded];
  repeat split;
  auto using unique_ids_filter, unique_ids_nil.

Lemma call_preserves_ids (c : Call) (w : World) :
  ids_invariant w -> ids_invariant (after c w).
Proof.
  destruct w as [[d cfg di tm ini] [dir file wr]].
  unfold ids_invariant. cbn [self fs db fs_file].
  intros [Hdb Hfile].
  destruct c as [|params uuid now|params|params| | |]; unfold after.
  - unfold init, initializeSchema, ensure_dir, open_database.
    unfold_methods. run_method.
    destruct ini, dir, wr, file as [image|];
      run_method; case_conditions; close_ids.
  - destruct d as [t|]; [|split; assumption].
    unfold_methods. run_method.
    destruct (existsb _ t) eqn:Efresh; run_method; [close_ids|].
    apply not_existing_id in Efresh.
    change (mem_id (new_memory cfg params uuid now)) with uuid in Efresh.
    assert (Hnew : unique_ids
                     (t ++ [row_of_memory (new_memory cfg params uuid now)]))
      by (now apply unique_ids_snoc).
    destruct (autoSaveInterval cfg =? 0)%Z eqn:Eint, wr; run_method;
      try close_ids;
      destruct (maxMemories cfg <? _)%Z; run_method;
        rewrite ?Eint; run_method; close_ids.
  - destruct d as [t|]; split; assumption.
  - destruct d as [t|]; [|split; assumption].
    unfold_methods. run_method.
    destruct (str_or_null (fp_memoryId params)) as [memoryId|]; run_method.
    + destruct (0 <? _); run_method; [|close_ids].
      destruct (autoSaveInterval cfg =? 0)%Z, wr; run_method; close_ids.
    + destruct (str_or_null (fp_query params)) as [query|]; run_method;
        [|close_ids].
      destruct (0 <? length (recall_from _ _ _)); run_method; [|close_ids].
      destruct (0 <? _); run_method; [|close_ids].
      destruct (autoSaveInterval cfg =? 0)%Z, wr; run_method; close_ids.
  - destruct d as [t|]; split; assumption.
  - unfold close. unfold_methods. run_method.
    destruct di, d as [t|], wr; run_method; close_ids.
  - unfold tick. unfold_methods. run_method.
    destruct tm, di, d as [t|], wr; run_method; close_ids.
Qed.

Lemma reachable_ids (w : World) : reachable w -> ids_invariant w.
Proof.
  induction 1 as [c dir wr|c w Hw IH|wr w Hw IH|c w Hw IH].
  - split; exact I.
  - now apply call_preserves_ids.
  - destruct IH as [H1 H2]. split; assumption.
  - destruct IH as [H1 H2]. split; [exact I|assumption].
Qed.

Lemma store_existing_id (w : World) (t : Table) (params : MemoryStoreParams)
      (uuid now : string) :
  db (self w) = Some t -> In uuid (map row_id t) ->
  store params uuid now w = (Throw ConstraintFailed, w).
Proof.
  destruct w as [[d cfg di tm ini] env]. cbn [self db]. intros -> Hin.
  apply existing_id in Hin. unfold_methods. run_method.
  change (mem_id (new_memory cfg params uuid now)) with uuid.
  now rewrite Hin.
Qed.

(** X1. The identifier is a primary key that holds throughout: in every
    world reached from a new instance over a directory with no database
    file, the identifiers of the in-memory image and of the file are
    pairwise distinct; every call keeps them so; and a [store] whose
    identifier the table already holds throws on the [INSERT] and changes
    neither the table nor the file nor the dirty flag. *)
Theorem identifiers_stay_unique (w : World) :
  reachable w ->
  ids_invariant w
  /\ (forall c : Call, ids_invariant (after c w))
  /\ (forall t params uuid now,
        db (self w) = Some t -> In uuid (map row_id t) ->
        store params uuid now w = (Throw ConstraintFailed, w)).
Proof.
  intros Hreach. pose proof (reachable_ids w Hreach) as Hinv.
  split; [exact Hinv|].
  split; [intros c; now apply call_preserves_ids|].
  intros t params uuid now. apply store_existing_id.
Qed.

Lemma identifiers_stay_unique_witness :
  let params := mkStoreParams "first" None None None None in
  let w := after (CallStore params "id1" "2026-01-01T00:00:01.000Z")
                 (after CallInit (fresh_world no_config)) in
  ids_invariant w
  /\ store params "id1" "2026-01-01T00:00:02.000Z" w
     = (Throw ConstraintFailed, w).
Proof.
  intros params w.
  assert (Hreach : reachable w)
    by (unfold w; apply reach_call, reach_call, reach_new).
  destruct (identifiers_stay_unique w Hreach) as [Hinv [_ Hdup]].
  split; [exact Hinv|].
  eapply Hdup; [reflexivity|]. now left.
Defined.

(* ------------------------------------------------------------------------- *)
(** ** The dirty flag, the handle and the timer *)
(* ------------------------------------------------------------------------- *)

Ltac run_call :=
  cbn -[Z.of_nat Z.ltb Z.eqb Z.sub Sql.limit Sql.order_by new_memory length
        recall_from filter map Nat.ltb id_in].

Ltac close_lifecycle :=
  solve [ cbn [snd self fs db fs_file config dirty saveTimer initialized
               set_db set_dirty set_saveTimer set_initialized] in *;
          repeat split; intros;
          try discriminate; try reflexivity; try congruence;
          try (apply Z.ltb_lt; assumption);
          try tauto ].

Lemma delete_nothing (ids : list string) (t : Table) :
  (0 <? length (filter (id_in ids) t)) = false ->
  filter (fun r => negb (id_in ids r)) t = t.
Proof.
  intros H. apply Nat.ltb_ge in H.
  apply filter_all. intros r Hr. apply negb_true_iff.
  destruct (id_in ids r) eqn:E; [|reflexivity].
  assert (Hin : In r (filter (id_in ids) t)) by (apply filter_In; now split).
  destruct (filter (id_in ids) t); [contradiction|simpl in H; lia].
Qed.

Lemma call_preserves_lifecycle (c : Call) (w : World) :
  lifecycle_invariant w -> lifecycle_invariant (after c w).
Proof.
  destruct w as [[d cfg di tm ini] [dir file wr]].
  unfold lifecycle_invariant. cbn [self fs db fs_file config dirty saveTimer
                                   initialized].
  intros [Hdb [Hfile Htimer]].
  destruct c as [|params uuid now|params|params| | |]; unfold after.
  - unfold init, initializeSchema, ensure_dir, open_database.
    unfold_methods. run_method.
    destruct ini, dir, wr, file as [image|];
      run_method; case_conditions; close_lifecycle.
  - unfold_methods. run_method.
    destruct d as [t|]; run_method; [|close_lifecycle].
    destruct (existsb _ t); run_method; [close_lifecycle|].
    destruct (autoSaveInterval cfg =? 0)%Z eqn:Eint, wr; run_method;
      try close_lifecycle;
      destruct (maxMemories cfg <? _)%Z; run_method;
        rewrite ?Eint; run_method; close_lifecycle.
  - unfold_methods. run_method. destruct d as [t|]; run_method; close_lifecycle.
  - unfold_methods. run_call.
    destruct d as [t|]; run_call; [|close_lifecycle].
    destruct (str_or_null (fp_memoryId params)) as [memoryId|]; run_call.
    + destruct (0 <? _) eqn:En; run_call;
        [|rewrite (delete_nothing _ _ En); close_lifecycle].
      destruct (autoSaveInterval cfg =? 0)%Z, wr; run_call; close_lifecycle.
    + destruct (str_or_null (fp_query params)) as [query|]; run_call;
        [|close_lifecycle].
      destruct (0 <? length (recall_from _ _ _)); run_call;
        [|close_lifecycle].
      destruct (0 <? _) eqn:En; run_call;
        [|rewrite (delete_nothing _ _ En); close_lifecycle].
      destruct (autoSaveInterval cfg =? 0)%Z, wr; run_call; close_lifecycle.
  - unfold_methods. run_method. destruct d as [t|]; run_method; close_lifecycle.
  - unfold close. unfold_methods. run_method.
    destruct di, d as [t|], wr; run_method; close_lifecycle.
  - unfold tick. unfold_methods. run_method.
    destruct tm, di, d as [t|], wr; run_method; close_lifecycle.
Qed.

Lemma reachable_lifecycle (w : World) : reachable w -> lifecycle_invariant w.
Proof.
  induction 1 as [c dir wr|c w Hw IH|wr w Hw IH|c w Hw IH].
  - repeat split; discriminate.
  - now apply call_preserves_lifecycle.
  - exact IH.
  - repeat split; discriminate.
Qed.

(** X2. The private fields stay consistent in every world reached from a
    new instance: an instance whose [initialized] flag is set has a database
    handle; when it is initialised and its [dirty] flag is clear, the file
    holds exactly the in-memory image, so a clear flag never hides an
    unsaved write; and a save timer runs only on an initialised instance
    whose [autoSaveInterval] is positive. Every call keeps this so, whether
    it returns or throws. *)
Theorem dirty_flag_is_sound (w : World) :
  reachable w ->
  lifecycle_invariant w
  /\ (forall c : Call, lifecycle_invariant (after c w))
  /\ (forall t, initialized (self w) = true -> dirty (self w) = false ->
                db (self w) = Some t -> fs_file (fs w) = Some t).
Proof.
  intros Hreach. pose proof (reachable_lifecycle w Hreach) as Hinv.
  split; [exact Hinv|].
  split; [intros c; now apply call_preserves_lifecycle|].
  intros t Hini Hclean Hdb. destruct Hinv as [_ [Hfile _]].
  rewrite <- Hdb. now apply Hfile.
Qed.

Lemma dirty_flag_is_sound_witness :
  let params := mkStoreParams "first" None None None None in
  let w := after (CallStore params "id1" "2026-01-01T00:00:01.000Z")
                 (after CallInit (fresh_world no_config)) in
  lifecycle_invariant w
  /\ dirty (self w) = false
  /\ fs_file (fs w) = db (self w).
Proof.
  intros params w.
  assert (Hreach : reachable w)
    by (unfold w; apply reach_call, reach_call, reach_new).
  destruct (dirty_flag_is_sound w Hreach) as [Hinv _].
  split; [exact Hinv|]. split; reflexivity.
Defined.

(* ------------------------------------------------------------------------- *)
(** ** Write-through and write-back *)
(* ------------------------------------------------------------------------- *)

(** X3. How [store] saves. With [autoSaveInterval = 0] and a file that can
    be written, a [store] with a fresh identifier returns with the file
    holding exactly the in-memory image and the dirty flag clear. With any
    other interval it returns, even when the file cannot be written, leaves
    the file as it was and sets the dirty flag. With [autoSaveInterval = 0]
    and a file that cannot be written it throws a storage error after the
    row is inserted: the in-memory table has the new row, the file does not,
    and the dirty flag is set. *)
Theorem store_save_policy
        (w : World) (t : Table) (params : MemoryStoreParams)
        (uuid now : string) :
  db (self w) = Some t ->
  ~ In uuid (map row_id t) ->
  let cfg := config (self w) in
  let memory := new_memory cfg params uuid now in
  exists w',
    snd (store params uuid now w) = w'
    /\ ((autoSaveInterval cfg = 0)%Z -> fs_writable (fs w) = true ->
        fst (store params uuid now w) = Return memory
        /\ fs_file (fs w') = db (self w')
        /\ dirty (self w') = false)
    /\ ((autoSaveInterval cfg <> 0)%Z ->
        fst (store params uuid now w) = Return memory
        /\ fs w' = fs w
        /\ dirty (self w') = true)
    /\ ((autoSaveInterval cfg = 0)%Z -> fs_writable (fs w) = false ->
        fst (store params uuid now w) = Throw StorageIOFailure
        /\ db (self w') = Some (t ++ [row_of_memory memory])
        /\ fs w' = fs w
        /\ dirty (self w') = true).
Proof.
  destruct w as [[d cfg di tm ini] [dir file wr]].
  cbn [self fs db config fs_writable]. intros -> Hfresh. cbv zeta.
  apply fresh_id in Hfresh.
  eexists. split; [reflexivity|].
  unfold_methods. run_method.
  change (mem_id (new_memory cfg params uuid now)) with uuid.
  rewrite Hfresh. run_method.
  destruct (Z.eqb_spec (autoSaveInterval cfg) 0) as [E0|E0].
  - destruct wr; run_method.
    + split; [|split; [intros H; contradiction|intros _ H; discriminate H]].
      intros _ _.
      destruct (maxMemories cfg <? _)%Z; run_method.
      * apply Z.eqb_eq in E0. rewrite E0. run_method.
        repeat split.
      * repeat split.
    + split; [intros _ H; discriminate H|].
      split; [intros H; contradiction|]. intros _ _. repeat split.
  - run_method.
    split; [intros H; contradiction|].
    split; [|intros H; contradiction]. intros _.
    destruct (maxMemories cfg <? _)%Z; run_method.
    + apply Z.eqb_neq in E0. rewrite E0. run_method. repeat split.
    + repeat split.
Qed.

Lemma store_save_policy_witness :
  let w := ready_world 10 [] in
  let params := mkStoreParams "first" None None None None in
  exists w',
    snd (store params "id1" "2026-01-01T00:00:01.000Z" w) = w'
    /\ fs_file (fs w') = db (self w')
    /\ dirty (self w') = false.
Proof.
  intros w params.
  destruct (store_save_policy w [] params "id1" "2026-01-01T00:00:01.000Z")
    as [w' [Hw' [Hthrough _]]].
  - reflexivity.
  - intros [].
  - exists w'. split; [exact Hw'|].
    destruct Hthrough as [_ [Hfile Hdirty]]; [reflexivity|reflexivity|].
    split; assumption.
Defined.

(* ------------------------------------------------------------------------- *)
(** ** [init] and [close] *)
(* ------------------------------------------------------------------------- *)

(** X4. The outcomes of [init]. On an initialised instance it returns and
    changes nothing. Otherwise, when the directory is missing and cannot be
    created it throws and changes nothing; when the file cannot be written
    it throws with the database handle set to the image of the file and
    [initialized] still false; and when the file can be written it returns
    with the in-memory table equal to the image of the file (empty when
    there was no file), whatever table the instance held before, with that
    image written to the file, the dirty flag clear, [initialized] set, and
    a timer started exactly when [autoSaveInterval] is positive. *)
Theorem init_outcomes (w : World) :
  (initialized (self w) = true -> init w = (Return tt, w))
  /\ (initialized (self w) = false ->
      fs_dir (fs w) = false -> fs_writable (fs w) = false ->
      init w = (Throw StorageIOFailure, w))
  /\ (initialized (self w) = false ->
      fs_dir (fs w) = true -> fs_writable (fs w) = false ->
      exists w',
        init w = (Throw StorageIOFailure, w')
        /\ db (self w') = Some (file_image (fs w))
        /\ initialized (self w') = false
        /\ fs w' = fs w)
  /\ (initialized (self w) = false -> fs_writable (fs w) = true ->
      exists w',
        init w = (Return tt, w')
        /\ db (self w') = Some (file_image (fs w))
        /\ fs_file (fs w') = Some (file_image (fs w))
        /\ fs_dir (fs w') = true
        /\ dirty (self w') = false
        /\ initialized (self w') = true
        /\ config (self w') = config (self w)
        /\ saveTimer (self w')
           = ((0 <? autoSaveInterval (config (self w)))%Z || saveTimer (self w))).
Proof.
  destruct w as [[d cfg di tm ini] [dir file wr]].
  cbn [self fs db config initialized saveTimer fs_dir fs_writable].
  unfold init, initializeSchema, ensure_dir, open_database, file_image.
  repeat split.
  - intros ->. reflexivity.
  - intros -> -> ->. reflexivity.
  - intros -> -> ->. eexists. split; [reflexivity|]. repeat split.
  - intros -> ->. unfold_methods. run_method.
    destruct dir; run_method;
      destruct (0 <? autoSaveInterval cfg)%Z; run_method;
      eexists; (split; [reflexivity|]); repeat split.
Qed.

Lemma init_outcomes_witness :
  exists w',
    init (fresh_world no_config) = (Return tt, w')
    /\ db (self w') = Some [].
Proof.
  destruct (init_outcomes (fresh_world no_config)) as [_ [_ [_ H]]].
  destruct H as [w' [Hinit [Hdb _]]]; [reflexivity|reflexivity|].
  exists w'. split; [exact Hinit|exact Hdb].
Defined.

(** X5. The outcomes of [close]. It always stops the timer. When the
    instance is dirty, has a database handle and the file cannot be written,
    it throws and keeps the handle, the table and the dirty flag. In every
    other case it returns with the handle dropped and [initialized] false,
    having written the table to the file when the instance was dirty and had
    a handle. A [close] after a [close] that returned returns and changes
    nothing. *)
Theorem close_outcomes (w : World) :
  saveTimer (self (snd (close w))) = false
  /\ (forall t,
        dirty (self w) = true -> db (self w) = Some t ->
        fs_writable (fs w) = false ->
        exists w',
          close w = (Throw StorageIOFailure, w')
          /\ db (self w') = Some t
          /\ dirty (self w') = true
          /\ fs w' = fs w)
  /\ (forall t,
        dirty (self w) = true -> db (self w) = Some t ->
        fs_writable (fs w) = true ->
        exists w',
          close w = (Return tt, w')
          /\ db (self w') = None
          /\ initialized (self w') = false
          /\ fs_file (fs w') = Some t)
  /\ (dirty (self w) = false \/ db (self w) = None ->
      exists w',
        close w = (Return tt, w')
        /\ db (self w') = None
        /\ initialized (self w') = false
        /\ fs w' = fs w)
  /\ (forall w', close w = (Return tt, w') -> close w' = (Return tt, w')).
Proof.
  destruct w as [[d cfg di tm ini] [dir file wr]].
  cbn [self fs db dirty fs_writable]. unfold close. unfold_methods.
  repeat split.
  - run_method. destruct di, d as [t|], wr; reflexivity.
  - intros t -> -> ->. eexists. split; [reflexivity|]. repeat split.
  - intros t -> -> ->. eexists. split; [reflexivity|]. repeat split.
  - intros [->| ->].
    + eexists. split; [reflexivity|]. repeat split.
    + destruct di; eexists; (split; [reflexivity|]); repeat split.
  - intros w'. run_method.
    destruct di, d as [t|], wr; run_method; intros H;
      try discriminate H; injection H as <-; reflexivity.
Qed.

Lemma close_outcomes_witness :
  let w := ready_world 10 [] in
  exists w',
    close w = (Return tt, w')
    /\ db (self w') = None
    /\ close w' = (Return tt, w').
Proof.
  intros w.
  destruct (close_outcomes w) as [_ [_ [_ [Hclean Hagain]]]].
  destruct Hclean as [w' [Hclose [Hdb _]]]; [now left|].
  exists w'. split; [exact Hclose|]. split; [exact Hdb|].
  now apply Hagain.
Defined.



(* ------------------------------------------------------------------------- *)
(** ** What [recall] returns *)
(* ------------------------------------------------------------------------- *)

Lemma recall_from_In (cfg : Config) (t : Table) (params : MemoryRecallParams)
      (m : Memory) :
  In m (recall_from cfg t params) ->
  exists r, In r (fetch t params) /\ m = memory_of_row r
            /\ (filters_noise params = true -> is_noise cfg m = false).
Proof.
  unfold recall_from. intros H.
  destruct (slice0_firstn (effective_limit params)
              (if filters_noise params
               then filter (fun m => negb (is_noise cfg m))
                           (map memory_of_row (fetch t params))
               else map memory_of_row (fetch t params))) as [k Hk].
  rewrite Hk in H. apply In_firstn in H.
  destruct (filters_noise params).
  - apply filter_In in H as [H Hn]. apply in_map_iff in H as [r [<- Hr]].
    exists r. split; [exact Hr|]. split; [reflexivity|].
    intros _. now apply negb_true_iff.
  - apply in_map_iff in H as [r [<- Hr]].
    exists r. split; [exact Hr|]. split; [reflexivity|discriminate].
Qed.

(** Dropping records from a list keeps their identifiers distinct. *)
Lemma kept_records_unique (keep : Memory -> bool) (ms : list Memory) :
  NoDup (map mem_id ms) -> NoDup (map mem_id (filter keep ms)).
Proof.
  intros Hms. induction ms as [|m ms IH]; [exact Hms|].
  cbn [map] in Hms. apply NoDup_cons_iff in Hms as [Hfresh Hrest].
  cbn [filter]. destruct (keep m); [|exact (IH Hrest)].
  cbn [map]. apply NoDup_cons; [|exact (IH Hrest)].
  intros Hin. apply Hfresh.
  apply in_map_iff in Hin as [m' [Eid Hin]].
  apply filter_In in Hin as [Hin _].
  apply in_map_iff. now exists m'.
Qed.

Lemma fetch_unique_ids (t : Table) (params : MemoryRecallParams) :
  unique_ids t -> unique_ids (fetch t params).
Proof.
  intros Hu. unfold fetch, unique_ids.
  assert (Hs : NoDup (map row_id
                        (Sql.order_by rank_le
                           (filter (where_all (conditions params)) t)))).
  { eapply Permutation_NoDup;
      [apply Permutation_map, order_by_perm|].
    now apply unique_ids_filter. }
  unfold Sql.limit. destruct (_ <? 0)%Z; [exact Hs|].
  rewrite <- firstn_map. now apply NoDup_firstn.
Qed.

Lemma recall_from_unique_ids (cfg : Config) (t : Table)
      (params : MemoryRecallParams) :
  unique_ids t -> NoDup (map mem_id (recall_from cfg t params)).
Proof.
  intros Hu. unfold recall_from.
  assert (Hrows : NoDup (map mem_id (map memory_of_row (fetch t params)))).
  { rewrite map_map.
    change (map (fun x => mem_id (memory_of_row x)) (fetch t params))
      with (map row_id (fetch t params)).
    now apply fetch_unique_ids. }
  destruct (slice0_firstn (effective_limit params)
              (if filters_noise params
               then filter (fun m => negb (is_noise cfg m))
                           (map memory_of_row (fetch t params))
               else map memory_of_row (fetch t params))) as [k ->].
  rewrite <- firstn_map. apply NoDup_firstn.
  destruct (filters_noise params); [now apply kept_records_unique|exact Hrows].
Qed.

(** X7. Every record [recall] returns is a row of the table that passes
    every filter of the request: its category is the requested category,
    its [createdAt] lies between [dateFrom] and [dateTo] inclusive in string
    order, when the query has words its lower-cased text matches the LIKE
    pattern of at least one of them, and unless [filterNoise] is false it is
    not noise. No record is returned twice, and [recall] changes neither
    the instance nor the file. *)
Theorem recall_respects_filters
        (w : World) (t : Table) (q : string) (l : option Z)
        (c : option MemoryCategory) (df dt : option string)
        (fn : option bool) :
  db (self w) = Some t ->
  unique_ids t ->
  let params := mkRecallParams q l c df dt fn in
  exists memories,
    recall params w = (Return memories, w)
    /\ NoDup (map mem_id memories)
    /\ forall m, In m memories ->
         exists r,
           In r t /\ m = memory_of_row r
           /\ (forall x, str_or_null c = Some x -> mem_category m = x)
           /\ (forall d, str_or_null df = Some d ->
                         String.leb d (mem_createdAt m) = true)
           /\ (forall d, str_or_null dt = Some d ->
                         String.leb (mem_createdAt m) d = true)
           /\ (query_words q <> [] ->
               exists word, In word (query_words q)
                            /\ Sql.like (like_pattern word) (row_text_lower r)
                               = true)
           /\ (fn <> Some false -> is_noise (config (self w)) m = false).
Proof.
  intros Hdb Hu params.
  exists (recall_from (config (self w)) t params).
  split; [now apply recall_returns|].
  split; [now apply recall_from_unique_ids|].
  intros m Hm. apply recall_from_In in Hm as [r [Hr [-> Hnoise]]].
  apply fetch_In in Hr as [Hr Hwhere].
  unfold params in Hwhere. rewrite recall_conditions_structure in Hwhere.
  apply andb_true_iff in Hwhere as [Hwhere Hto].
  apply andb_true_iff in Hwhere as [Hwhere Hfrom].
  apply andb_true_iff in Hwhere as [Htext Hcat].
  exists r. split; [exact Hr|]. split; [reflexivity|].
  split.
  { intros x Hx. rewrite Hx in Hcat. now apply String.eqb_eq in Hcat. }
  split.
  { intros d Hd. now rewrite Hd in Hfrom. }
  split.
  { intros d Hd. now rewrite Hd in Hto. }
  split.
  { intros Hwords. destruct (query_words q) as [|x xs]; [contradiction|].
    apply existsb_exists in Htext as [word [Hin Hlike]]. now exists word. }
  intros Hfn. apply Hnoise. unfold params, filters_noise. cbn [rp_filterNoise].
  destruct fn as [[|]|]; try reflexivity. now contradiction Hfn.
Qed.

Lemma recall_respects_filters_witness :
  let a := sample_row "id1" "User lives in Switzerland" (8 # 10)
                      "2026-01-01T00:00:01.000Z" in
  let b := mkRow "id2" "User prefers dark mode" "user prefers dark mode"
                 "preference" (9 # 10) "2026-01-01T00:00:02.000Z"
                 "2026-01-01T00:00:02.000Z" None None in
  let w := ready_world 10 [a; b] in
  exists memories,
    recall (mkRecallParams "" (Some 10%Z) (Some "preference"%string) None None
                           None) w
    = (Return memories, w)
    /\ forall m, In m memories -> mem_category m = "preference"%string.
Proof.
  intros a b w.
  destruct (recall_respects_filters w [a; b] "" (Some 10%Z)
              (Some "preference"%string) None None None)
    as [memories [Hrecall [_ Hall]]].
  - reflexivity.
  - repeat constructor; simpl; intuition discriminate.
  - exists memories. split; [exact Hrecall|].
    intros m Hm. destruct (Hall m Hm) as [r [_ [_ [Hcat _]]]].
    now apply Hcat.
Defined.

Lemma limit_all {A : Type} (n : Z) (l : list A) :
  (Z.of_nat (length l) <= n)%Z -> Sql.limit (n * 2) l = l.
Proof.
  intros H. rewrite limit_nonneg by lia. apply firstn_all2. lia.
Qed.

Lemma filter_perm {A : Type} (p : A -> bool) (l l' : list A) :
  Permutation l l' -> Permutation (filter p l) (filter p l').
Proof.
  induction 1; simpl.
  - constructor.
  - destruct (p x); [now constructor|assumption].
  - destruct (p x), (p y); try reflexivity. apply perm_swap.
  - etransitivity; eassumption.
Qed.

Lemma recall_from_all_ranked
      (cfg : Config) (t : Table) (params : MemoryRecallParams) :
  (Z.of_nat (length (matching t params)) <= effective_limit params)%Z ->
  recall_from cfg t params = all_ranked cfg t params.
Proof.
  intros Hcount.
  unfold recall_from, all_ranked, clean, fetch. fold (matching t params).
  rewrite limit_all by (rewrite order_by_length; exact Hcount).
  rewrite slice0_nonneg by lia. apply firstn_all2.
  destruct (filters_noise params).
  - etransitivity; [apply filter_length_bound|].
    rewrite length_map, order_by_length. lia.
  - rewrite length_map, order_by_length. lia.
Qed.

(** X8. When no more rows match a request than its limit, [recall] returns
    every matching record that the noise filter lets through, each once, in
    ranked order: nothing is cut off. *)
Theorem recall_complete_within_limit
        (cfg : Config) (t : Table) (params : MemoryRecallParams) :
  (Z.of_nat (length (matching t params)) <= effective_limit params)%Z ->
  recall_from cfg t params = all_ranked cfg t params
  /\ Permutation (recall_from cfg t params)
                 (clean cfg params (map memory_of_row (matching t params)))
  /\ (forall r, In r t -> where_all (conditions params) r = true ->
                (filters_noise params = true ->
                 is_noise cfg (memory_of_row r) = false) ->
                In (memory_of_row r) (recall_from cfg t params)).
Proof.
  intros Hcount.
  pose proof (recall_from_all_ranked cfg t params Hcount) as Heq.
  split; [exact Heq|]. split.
  - rewrite Heq. unfold all_ranked, clean.
    assert (Hp : Permutation
                   (map memory_of_row (Sql.order_by rank_le (matching t params)))
                   (map memory_of_row (matching t params))).
    { apply Permutation_map, Permutation_sym, order_by_perm. }
    destruct (filters_noise params); [|exact Hp].
    now apply filter_perm.
  - intros r Hr Hwhere Hnoise. now apply recall_within_limit.
Qed.

Lemma recall_complete_within_limit_witness :
  let t := [sample_row "a" "first" (7 # 10) "2026-01-01T00:00:01.000Z";
            sample_row "b" "second" (9 # 10) "2026-01-01T00:00:02.000Z"] in
  map mem_id (recall_from DEFAULT_CONFIG t (plain_query "" None None))
  = ["b"; "a"]%string.
Proof.
  intros t.
  destruct (recall_complete_within_limit DEFAULT_CONFIG t
              (plain_query "" None None)) as [Heq _].
  - vm_compute. discriminate.
  - rewrite Heq. reflexivity.
Defined.

(** X9. A negative limit [-k] lifts the bound of the fetch and cuts from
    the end: [recall] returns all the matching records that the noise filter
    lets through, in ranked order, except the last [k]. *)
Theorem recall_negative_limit
        (cfg : Config) (t : Table) (params : MemoryRecallParams) :
  (effective_limit params < 0)%Z ->
  recall_from cfg t params
  = firstn (length (all_ranked cfg t params)
            - Z.to_nat (- effective_limit params))
           (all_ranked cfg t params).
Proof.
  intros Hneg. unfold recall_from, all_ranked, clean, fetch, Sql.limit, slice0.
  fold (matching t params).
  destruct (Z.ltb_spec (effective_limit params * 2) 0); [|lia].
  destruct (Z.ltb_spec (effective_limit params) 0); [|lia].
  reflexivity.
Qed.

Lemma recall_negative_limit_witness :
  let t := [sample_row "a" "first" (9 # 10) "2026-01-01T00:00:01.000Z";
            sample_row "b" "second" (8 # 10) "2026-01-01T00:00:02.000Z";
            sample_row "c" "third" (7 # 10) "2026-01-01T00:00:03.000Z"] in
  map mem_id (recall_from DEFAULT_CONFIG t (plain_query "" (Some (-2)%Z) None))
  = ["a"]%string.
Proof.
  intros t.
  rewrite (recall_negative_limit DEFAULT_CONFIG t
             (plain_query "" (Some (-2)%Z) None)).
  - reflexivity.
  - reflexivity.
Defined.

(* ------------------------------------------------------------------------- *)
(** ** What [forget] removes *)
(* ------------------------------------------------------------------------- *)




Lemma forget_absent_id (w : World) (t : Table) (i : string)
      (q : option string) :
  db (self w) = Some t -> Str.truthy i = true -> ~ In i (map row_id t) ->
  forget (mkForgetParams (Some i) q) w = (Return {| deleted := 0 |}, w).
Proof.
  destruct w as [[d cfg di tm ini] env]. cbn [self db]. intros -> Hi Hout.
  assert (Hnone : filter (id_in [i]) t = []).
  { apply filter_none. intros r Hr.
    apply not_true_iff_false. intros E. apply id_in_iff in E as [E|[]].
    apply Hout. rewrite E. now apply in_map. }
  assert (Hall : filter (fun r => negb (id_in [i] r)) t = t).
  { apply delete_nothing. now rewrite Hnone. }
  unfold_methods. run_call. cbn [str_or_null]. rewrite Hi. run_call.
  rewrite Hnone, Hall. reflexivity.
Qed.

(** X11. [forget] by identifier removes at most one record, leaves no row
    with that identifier, and is idempotent: a second [forget] of the same
    identifier returns [deleted = 0] and changes nothing. A query passed
    along with the identifier is ignored. *)
Theorem forget_by_id_is_idempotent
        (w : World) (t : Table) (i : string) (q : option string) :
  db (self w) = Some t ->
  unique_ids t ->
  save_succeeds w = true ->
  Str.truthy i = true ->
  exists (w' : World) (n : nat),
    forget (mkForgetParams (Some i) q) w = (Return {| deleted := n |}, w')
    /\ n <= 1
    /\ (n = 1 <-> In i (map row_id t))
    /\ db (self w') = Some (filter (fun r => negb (row_id r =? i)%string) t)
    /\ forget (mkForgetParams (Some i) q) w'
       = (Return {| deleted := 0 |}, w').
Proof.
  intros Hdb Hu Hsave Hi.
  destruct (forget_returns w t (mkForgetParams (Some i) q) Hdb Hsave)
    as [w' [Hf [Hdb' _]]].
  assert (Htargets : forget_targets (config (self w)) t
                                    (mkForgetParams (Some i) q) = [i]).
  { unfold forget_targets. cbn [fp_memoryId str_or_null]. now rewrite Hi. }
  rewrite Htargets in Hf, Hdb'.
  assert (Hsame : without_ids [i] t
                  = filter (fun r => negb (row_id r =? i)%string) t).
  { unfold without_ids. apply filter_ext. intros r. unfold id_in. simpl.
    now rewrite orb_false_r. }
  assert (Hgone : ~ In i (map row_id (without_ids [i] t))).
  { intros Hin. apply in_map_iff in Hin as [r [Hr Hin]].
    unfold without_ids in Hin. apply filter_In in Hin as [_ Hin].
    apply negb_true_iff, not_true_iff_false in Hin. apply Hin.
    apply id_in_iff. now left. }
  assert (Hcount : In i (map row_id t) ->
                   length (filter (id_in [i]) t) = 1).
  { intros Hin. apply in_map_iff in Hin as [r [Hr Hin]].
    assert (Hsel : forall x, In x [r] -> In x t) by (intros x [<-|[]]; auto).
    destruct (delete_selected_rows t [r] Hu
                ltac:(repeat constructor; intros []) Hsel) as [Hp _].
    cbn [map] in Hp. rewrite Hr in Hp. now apply Permutation_length in Hp. }
  assert (Hzero : ~ In i (map row_id t) ->
                  length (filter (id_in [i]) t) = 0).
  { intros Hout. rewrite filter_none; [reflexivity|].
    intros r Hr. apply not_true_iff_false. intros E.
    apply id_in_iff in E as [E|[]]. apply Hout. rewrite E. now apply in_map. }
  exists w', (length (filter (id_in [i]) t)).
  split; [exact Hf|].
  destruct (in_dec string_dec i (map row_id t)) as [Hin|Hout].
  - rewrite (Hcount Hin). split; [lia|]. split; [tauto|].
    split; [now rewrite <- Hsame|].
    now apply (forget_absent_id w' (without_ids [i] t)).
  - rewrite (Hzero Hout). split; [lia|].
    split; [split; [discriminate|contradiction]|].
    split; [now rewrite <- Hsame|].
    now apply (forget_absent_id w' (without_ids [i] t)).
Qed.

Lemma forget_by_id_is_idempotent_witness :
  let a := sample_row "id1" "first" (8 # 10) "2026-01-01T00:00:01.000Z" in
  let w := ready_world 10 [a] in
  exists w',
    forget (mkForgetParams (Some "id1"%string) None) w
    = (Return {| deleted := 1 |}, w')
    /\ forget (mkForgetParams (Some "id1"%string) None) w'
       = (Return {| deleted := 0 |}, w').
Proof.
  intros a w.
  destruct (forget_by_id_is_idempotent w [a] "id1" None)
    as [w' [n [Hf [_ [Hone [_ Hagain]]]]]].
  - reflexivity.
  - repeat constructor. intros [].
  - reflexivity.
  - reflexivity.
  - exists w'. split; [|exact Hagain].
    rewrite Hf. do 3 f_equal. apply Hone. now left.
Defined.

(* ------------------------------------------------------------------------- *)
(** ** [store]: eviction of the new record, and reading it back *)
(* ------------------------------------------------------------------------- *)

Lemma without_fresh_id (t : Table) (r : Row) :
  ~ In (row_id r) (map row_id t) ->
  without_ids [row_id r] (t ++ [r]) = t.
Proof.
  intros Hfresh. unfold without_ids. rewrite filter_app.
  rewrite filter_all.
  - simpl. unfold id_in. simpl. rewrite String.eqb_refl. simpl.
    apply app_nil_r.
  - intros x Hx. apply negb_true_iff, not_true_iff_false. intros E.
    apply id_in_iff in E as [E|[]]. apply Hfresh. rewrite E. now apply in_map.
Qed.

(** X12. A [store] can return a record that is not in the store. When the
    table already holds [maxMemories] records and each of them is ahead of
    the new record in the eviction order (higher importance, or equal
    importance and not older), the eviction pass of that same [store]
    removes the new record: [store] returns it, and the table is what it
    was before the call. *)
Theorem store_evicts_lowest_new_record
        (w : World) (t : Table) (params : MemoryStoreParams)
        (uuid now : string) :
  db (self w) = Some t ->
  unique_ids t ->
  ~ In uuid (map row_id t) ->
  save_succeeds w = true ->
  let cfg := config (self w) in
  let memory := new_memory cfg params uuid now in
  (0 <= maxMemories cfg)%Z ->
  length t = Z.to_nat (maxMemories cfg) ->
  (forall r, In r t -> ~ evicts_before r (row_of_memory memory)) ->
  exists w',
    store params uuid now w = (Return memory, w')
    /\ db (self w') = Some t.
Proof.
  intros Hdb Hu Hfresh Hsave cfg memory Hmax Hfull Hlow.
  destruct (store_returns w t params uuid now Hdb Hfresh Hsave)
    as [w' [Hstore [Hdb' _]]].
  fold cfg memory in Hstore, Hdb'.
  set (row := row_of_memory memory) in *.
  set (t1 := t ++ [row]) in *.
  assert (Hu1 : unique_ids t1) by (now apply unique_ids_snoc).
  destruct (eviction_pass cfg t1 Hmax Hu1)
    as [Hlen [Hperm [_ [_ [Hmin _]]]]].
  assert (Ht1 : length t1 = length t + 1)
    by (unfold t1; now rewrite length_app).
  destruct (evicted_rows cfg t1) as [|e [|e' rest]] eqn:Eev;
    simpl in Hlen; try lia.
  assert (He : In e t1).
  { apply (Permutation_in _ (Permutation_sym Hperm)). now left. }
  assert (Hrow : e = row).
  { unfold t1 in He. apply in_app_or in He as [He|[He|[]]]; [|now symmetry].
    destruct (Hmin e row (or_introl eq_refl)) as [Hbefore|[Heq|[]]].
    - unfold t1. apply in_or_app. right. now left.
    - exfalso. now apply (Hlow e He).
    - now symmetry. }
  exists w'. split; [exact Hstore|].
  rewrite Hdb'. subst e. cbn [map]. f_equal.
  now apply without_fresh_id.
Qed.

Lemma store_evicts_lowest_new_record_witness :
  let old := sample_row "id1" "first" (9 # 10) "2026-01-01T00:00:01.000Z" in
  let w := ready_world 1 [old] in
  let params := mkStoreParams "second" None (Some (5 # 10)%Q) None None in
  exists w',
    store params "id2" "2026-01-01T00:00:02.000Z" w
    = (Return (new_memory (config (self w)) params "id2"
                          "2026-01-01T00:00:02.000Z"), w')
    /\ db (self w') = Some [old].
Proof.
  intros old w params.
  apply (store_evicts_lowest_new_record w [old] params "id2"
           "2026-01-01T00:00:02.000Z").
  - reflexivity.
  - repeat constructor. intros [].
  - intros [H|[]]. discriminate H.
  - reflexivity.
  - vm_compute. discriminate.
  - reflexivity.
  - intros r [<-|[]] H. apply evict_le_iff in H. vm_compute in H.
    discriminate H.
Defined.

Lemma str_or_null_idem (s : option string) :
  str_or_null (str_or_null s) = str_or_null s.
Proof.
  destruct s as [x|]; [|reflexivity]. simpl.
  destruct (Str.truthy x) eqn:E; [|reflexivity]. simpl. now rewrite E.
Qed.

Lemma str_or_null_id (s : option string) :
  s <> Some ""%string -> str_or_null s = s.
Proof.
  destruct s as [x|]; [|reflexivity]. intros H. simpl.
  destruct (Str.truthy x) eqn:E; [reflexivity|].
  unfold Str.truthy in E. apply negb_false_iff, String.eqb_eq in E.
  subst x. now contradiction H.
Qed.

(** X13. Writing a record and reading it back. A [store] into an empty
    store with room for one record returns, and an immediate [recall] with
    the empty query and the noise filter off returns exactly one record: the
    stored one with its identifier, text, category, importance and both
    timestamps as [store] returned them. Its [sessionKey] and [metadata]
    come back as stored too, except that an empty string comes back absent,
    because the row keeps NULL for it. *)
Theorem store_then_recall_round_trip
        (w : World) (params : MemoryStoreParams) (uuid now : string)
        (limit : option Z) :
  db (self w) = Some [] ->
  save_succeeds w = true ->
  (0 < maxMemories (config (self w)))%Z ->
  (0 < num_or limit 5)%Z ->
  let memory := new_memory (config (self w)) params uuid now in
  exists w',
    store params uuid now w = (Return memory, w')
    /\ recall (plain_query "" limit (Some false)) w'
       = (Return [read_back memory], w')
    /\ mem_id (read_back memory) = uuid
    /\ mem_text (read_back memory) = sp_text params
    /\ mem_category (read_back memory) = mem_category memory
    /\ mem_importance (read_back memory) = mem_importance memory
    /\ mem_createdAt (read_back memory) = now
    /\ mem_updatedAt (read_back memory) = now
    /\ mem_sessionKey (read_back memory) = str_or_null (sp_sessionKey params)
    /\ mem_metadata (read_back memory) = str_or_null (sp_metadata params)
    /\ (sp_sessionKey params <> Some ""%string ->
        sp_metadata params <> Some ""%string ->
        read_back memory = memory).
Proof.
  intros Hdb Hsave Hmax Hlimit memory.
  destruct (store_returns w [] params uuid now Hdb ltac:(intros []) Hsave)
    as [w' [Hstore [Hdb' Hcfg']]].
  fold memory in Hstore, Hdb'.
  rewrite evicted_none_below_ceiling in Hdb' by (simpl; lia).
  rewrite without_no_ids in Hdb'. cbn [app] in Hdb'.
  exists w'. split; [exact Hstore|].
  split.
  { rewrite (recall_returns w' _ _ Hdb'). f_equal.
    rewrite recall_from_all_ranked; [reflexivity|].
    unfold matching, effective_limit, plain_query. cbn [rp_limit].
    cbn [filter conditions]. simpl length. lia. }
  assert (Hkey_back : mem_sessionKey (read_back memory)
                      = str_or_null (sp_sessionKey params))
    by apply str_or_null_idem.
  do 6 (split; [reflexivity|]).
  split; [exact Hkey_back|]. split; [reflexivity|].
  intros Hkey Hmeta.
  assert (Hk : str_or_null (sp_sessionKey params) = sp_sessionKey params)
    by (now apply str_or_null_id).
  assert (Hj : str_or_null (sp_metadata params) = sp_metadata params)
    by (now apply str_or_null_id).
  unfold read_back, memory_of_row, row_of_memory, memory, new_memory.
  cbn [mem_id mem_text mem_category mem_importance mem_createdAt mem_updatedAt
       mem_sessionKey mem_metadata row_id row_text row_category row_importance
       row_created_at row_updated_at row_session_key row_metadata].
  now rewrite str_or_null_idem, Hk, Hj.
Qed.

Lemma store_then_recall_round_trip_witness :
  let w := ready_world 10 [] in
  let params := mkStoreParams "User prefers dark mode" None None
                              (Some ""%string) None in
  exists w' m,
    snd (store params "id1" "2026-01-01T00:00:01.000Z" w) = w'
    /\ recall (plain_query "" None (Some false)) w' = (Return [m], w')
    /\ mem_text m = "User prefers dark mode"%string
    /\ mem_sessionKey m = None.
Proof.
  intros w params.
  destruct (store_then_recall_round_trip w params "id1"
              "2026-01-01T00:00:01.000Z" None)
    as [w' [Hstore [Hrecall [_ [Htext [_ [_ [_ [_ [Hkey _]]]]]]]]]].
  - reflexivity.
  - reflexivity.
  - reflexivity.
  - reflexivity.
  - exists w', (read_back (new_memory (config (self w)) params "id1"
                                      "2026-01-01T00:00:01.000Z")).
    split; [now rewrite Hstore|]. split; [exact Hrecall|].
    split; [exact Htext|exact Hkey].
Defined.

(* ------------------------------------------------------------------------- *)
(** ** [stats] *)
(* ------------------------------------------------------------------------- *)

Lemma seen_spec (c : string) (seen : list string) :
  existsb (String.eqb c) seen = true <-> In c seen.
Proof.
  rewrite existsb_exists. split.
  - intros [x [Hx E]]. apply String.eqb_eq in E. now subst.
  - intros H. exists c. split; [exact H|apply String.eqb_refl].
Qed.

Lemma category_count_cons (c : string) (r : Row) (t : Table) :
  category_count c (r :: t)
  = (if (row_category r =? c)%string then 1 else 0) + category_count c t.
Proof.
  unfold category_count. simpl. now destruct (row_category r =? c)%string.
Qed.

Lemma category_count_pos (c : string) (t : Table) :
  0 < category_count c t <-> exists r, In r t /\ row_category r = c.
Proof.
  unfold category_count. split.
  - intros H. destruct (filter _ t) as [|r l] eqn:E; [simpl in H; lia|].
    assert (Hr : In r (filter (fun x => (row_category x =? c)%string) t))
      by (rewrite E; now left).
    apply filter_In in Hr as [Hr Hc]. apply String.eqb_eq in Hc. now exists r.
  - intros [r [Hr Hc]].
    assert (Hin : In r (filter (fun x => (row_category x =? c)%string) t)).
    { apply filter_In. split; [exact Hr|]. now apply String.eqb_eq. }
    destruct (filter _ t); [contradiction|simpl; lia].
Qed.

(** The groups of [group_count t seen]: the categories of [t] outside
    [seen], each with its number of rows in [t]. *)
Lemma group_count_In (t : Table) :
  forall (seen : list string) (c : string) (n : nat),
    In (c, n) (group_count t seen) <->
    ~ In c seen /\ 0 < n /\ n = category_count c t.
Proof.
  induction t as [|r t IH]; intros seen c n; cbn [group_count].
  - split; [intros []|]. intros [_ [Hpos Hn]]. unfold category_count in Hn.
    simpl in Hn. lia.
  - destruct (existsb (String.eqb (row_category r)) seen) eqn:Eseen.
    + apply seen_spec in Eseen. rewrite IH, category_count_cons.
      destruct (String.eqb_spec (row_category r) c) as [Hc|Hc].
      * subst c. tauto.
      * reflexivity.
    + apply not_true_iff_false in Eseen. rewrite seen_spec in Eseen.
      fold (category_count (row_category r) (r :: t)).
      cbn [In]. rewrite IH, !category_count_cons. cbn [In].
      rewrite String.eqb_refl.
      destruct (String.eqb_spec (row_category r) c) as [Hc|Hc].
      * subst c. split.
        -- intros [H|[H _]]; [|tauto].
           injection H as <-. repeat split; [exact Eseen|lia].
        -- intros [_ [_ ->]]. now left.
      * split.
        -- intros [H|[Hn [Hpos ->]]].
           ++ injection H as H _. contradiction.
           ++ repeat split; [tauto|exact Hpos].
        -- intros [Hn [Hpos ->]]. right. repeat split; [tauto|exact Hpos].
Qed.

Lemma group_count_keys (t : Table) :
  forall seen : list string, NoDup (map fst (group_count t seen)).
Proof.
  induction t as [|r t IH]; intros seen; cbn [group_count]; [constructor|].
  destruct (existsb (String.eqb (row_category r)) seen); [apply IH|].
  cbn [map fst]. constructor; [|apply IH].
  intros Hin. apply in_map_iff in Hin as [[c n] [Hc Hin]].
  cbn [fst] in Hc. subst c.
  apply group_count_In in Hin as [Hseen _]. apply Hseen. now left.
Qed.

Lemma count_unseen (c : string) (seen : list string) (t : Table) :
  ~ In c seen ->
  category_count c t
  + length (filter (fun x => negb (existsb (String.eqb (row_category x))
                                            (c :: seen))) t)
  = length (filter (fun x => negb (existsb (String.eqb (row_category x)) seen))
                   t).
Proof.
  intros Hc. induction t as [|r t IH]; [reflexivity|].
  rewrite category_count_cons. cbn [filter existsb]. cbn [existsb] in IH.
  destruct (String.eqb_spec (row_category r) c) as [E|E].
  - subst c.
    assert (Hs : existsb (String.eqb (row_category r)) seen = false).
    { apply not_true_iff_false. intros H. apply Hc. now apply seen_spec. }
    rewrite Hs. cbn [orb negb length]. lia.
  - cbn [orb]. destruct (existsb (String.eqb (row_category r)) seen);
      cbn [negb length]; lia.
Qed.

Lemma group_count_sum (t : Table) :
  forall seen : list string,
    sum_counts (group_count t seen)
    = length (filter (fun x => negb (existsb (String.eqb (row_category x)) seen))
                     t).
Proof.
  induction t as [|r t IH]; intros seen; cbn [group_count]; [reflexivity|].
  destruct (existsb (String.eqb (row_category r)) seen) eqn:Eseen.
  - rewrite IH. cbn [filter]. now rewrite Eseen.
  - cbn [sum_counts fold_right snd]. fold (sum_counts (group_count t (row_category r :: seen))).
    rewrite IH. fold (category_count (row_category r) (r :: t)).
    rewrite category_count_cons, String.eqb_refl.
    cbn [filter]. rewrite Eseen. cbn [negb length].
    assert (Hc : ~ In (row_category r) seen).
    { intros H. apply seen_spec in H. congruence. }
    pose proof (count_unseen (row_category r) seen t Hc). lia.
Qed.

(** X14. What [stats] reports. On a loaded database [stats] returns and
    changes nothing; [total] is the number of rows; [byCategory] lists each
    category that occurs in the table exactly once, with the number of rows
    of that category, and lists no other; and the counts by category add
    up to [total]. *)
Theorem stats_counts_by_category (w : World) (t : Table) :
  db (self w) = Some t ->
  exists s,
    stats w = (Return s, w)
    /\ total s = length t
    /\ NoDup (map fst (byCategory s))
    /\ (forall c n, In (c, n) (byCategory s) <->
                    0 < n /\ n = category_count c t)
    /\ (forall r, In r t ->
                  In (row_category r, category_count (row_category r) t)
                     (byCategory s))
    /\ sum_counts (byCategory s) = total s.
Proof.
  intros Hdb.
  exists {| total := length t; byCategory := group_count t [] |}.
  split; [apply stats_returns; exact Hdb|].
  cbn [total byCategory].
  split; [reflexivity|]. split; [apply group_count_keys|].
  split.
  { intros c n. rewrite group_count_In. cbn [In]. tauto. }
  split.
  { intros r Hr. apply group_count_In. split; [intros []|].
    split; [|reflexivity]. apply category_count_pos. now exists r. }
  rewrite group_count_sum. cbn [existsb negb]. now rewrite filter_true.
Qed.

Lemma stats_counts_by_category_witness :
  let a := sample_row "id1" "first" (8 # 10) "2026-01-01T00:00:01.000Z" in
  let b := mkRow "id2" "second" "second" "fact" (9 # 10)
                 "2026-01-01T00:00:02.000Z" "2026-01-01T00:00:02.000Z"
                 None None in
  let c := sample_row "id3" "third" (7 # 10) "2026-01-01T00:00:03.000Z" in
  let w := ready_world 10 [a; b; c] in
  exists s,
    stats w = (Return s, w)
    /\ total s = 3
    /\ In ("other"%string, 2) (byCategory s)
    /\ In ("fact"%string, 1) (byCategory s).
Proof.
  intros a b c w.
  destruct (stats_counts_by_category w [a; b; c] eq_refl)
    as [s [Hs [Htotal [_ [Hin _]]]]].
  exists s. split; [exact Hs|]. split; [exact Htotal|].
  split; apply Hin; split; try reflexivity; vm_compute; lia.
Defined.

(* ------------------------------------------------------------------------- *)
(** ** The save timer *)
(* ------------------------------------------------------------------------- *)

(** X15. The deferred save. The timer callback does nothing when no timer
    is running or the instance is not dirty. On a dirty instance with a
    running timer and a file that can be written it writes the in-memory
    table to the file and clears the dirty flag, leaving the table as it
    is; when the file cannot be written it throws and the instance stays
    dirty. So with a positive interval a stored record reaches the file at
    the next tick: [store] then [tick] leaves the file equal to the table. *)
Theorem tick_saves_when_dirty (w : World) (t : Table) :
  db (self w) = Some t ->
  (saveTimer (self w) = false \/ dirty (self w) = false ->
   tick w = (Return tt, w))
  /\ (saveTimer (self w) = true -> dirty (self w) = true ->
      fs_writable (fs w) = true ->
      exists w',
        tick w = (Return tt, w')
        /\ db (self w') = Some t
        /\ fs_file (fs w') = Some t
        /\ dirty (self w') = false)
  /\ (saveTimer (self w) = true -> dirty (self w) = true ->
      fs_writable (fs w) = false ->
      tick w = (Throw StorageIOFailure, w))
  /\ (forall params uuid now,
        saveTimer (self w) = true ->
        (autoSaveInterval (config (self w)) <> 0)%Z ->
        fs_writable (fs w) = true ->
        ~ In uuid (map row_id t) ->
        let w1 := snd (store params uuid now w) in
        let w2 := snd (tick w1) in
        dirty (self w1) = true
        /\ fs_file (fs w1) = fs_file (fs w)
        /\ fs_file (fs w2) = db (self w2)
        /\ db (self w2) = db (self w1)
        /\ dirty (self w2) = false).
Proof.
  destruct w as [[d cfg di tm ini] [dir file wr]].
  cbn [self fs db config dirty saveTimer fs_writable fs_file]. intros ->.
  unfold tick. unfold_methods.
  repeat split.
  - intros [->| ->]; [reflexivity|]. now destruct tm.
  - intros -> -> ->. eexists. split; [reflexivity|]. repeat split.
  - intros -> -> ->. reflexivity.
  - revert H H0 H1 H2. intros -> Hint -> Hfresh.
    apply fresh_id in Hfresh. run_method.
    change (mem_id (new_memory cfg params uuid now)) with uuid.
    rewrite Hfresh. run_method.
    apply Z.eqb_neq in Hint. rewrite Hint. run_method.
    destruct (maxMemories cfg <? _)%Z; run_method; rewrite ?Hint; reflexivity.
  - revert H H0 H1 H2. intros -> Hint -> Hfresh.
    apply fresh_id in Hfresh. run_method.
    change (mem_id (new_memory cfg params uuid now)) with uuid.
    rewrite Hfresh. run_method.
    apply Z.eqb_neq in Hint. rewrite Hint. run_method.
    destruct (maxMemories cfg <? _)%Z; run_method; rewrite ?Hint; reflexivity.
  - revert H H0 H1 H2. intros -> Hint -> Hfresh.
    apply fresh_id in Hfresh. run_method.
    change (mem_id (new_memory cfg params uuid now)) with uuid.
    rewrite Hfresh. run_method.
    apply Z.eqb_neq in Hint. rewrite Hint. run_method.
    destruct (maxMemories cfg <? _)%Z; run_method; rewrite ?Hint; run_method;
      reflexivity.
  - revert H H0 H1 H2. intros -> Hint -> Hfresh.
    apply fresh_id in Hfresh. run_method.
    change (mem_id (new_memory cfg params uuid now)) with uuid.
    rewrite Hfresh. run_method.
    apply Z.eqb_neq in Hint. rewrite Hint. run_method.
    destruct (maxMemories cfg <? _)%Z; run_method; rewrite ?Hint; run_method;
      reflexivity.
  - revert H H0 H1 H2. intros -> Hint -> Hfresh.
    apply fresh_id in Hfresh. run_method.
    change (mem_id (new_memory cfg params uuid now)) with uuid.
    rewrite Hfresh. run_method.
    apply Z.eqb_neq in Hint. rewrite Hint. run_method.
    destruct (maxMemories cfg <? _)%Z; run_method; rewrite ?Hint; run_method;
      reflexivity.
Qed.

Lemma tick_saves_when_dirty_witness :
  let t := [sample_row "id1" "first" (8 # 10) "2026-01-01T00:00:01.000Z"] in
  exists w',
    tick (timer_world t) = (Return tt, w')
    /\ fs_file (fs w') = Some t
    /\ dirty (self w') = false.
Proof.
  intros t.
  destruct (tick_saves_when_dirty (timer_world t) t eq_refl)
    as [_ [Hsave _]].
  destruct Hsave as [w' [Htick [_ [Hfile Hdirty]]]]; try reflexivity.
  exists w'. repeat split; assumption.
Defined.

(* ------------------------------------------------------------------------- *)
(** ** The words of a query and the text search *)
(* ------------------------------------------------------------------------- *)

Lemma split_from_no_space (s : string) :
  forall (skipping : bool) (cur p : string),
    no_space cur = true ->
    In p (Str.split_from skipping cur s) -> no_space p = true.
Proof.
  induction s as [|c s IH]; intros skipping cur p Hcur; cbn [Str.split_from].
  - intros [<-|[]]. exact Hcur.
  - destruct (Str.is_space c) eqn:Ec.
    + destruct skipping.
      * now apply IH.
      * intros [<-|Hp]; [exact Hcur|]. now apply (IH true ""%string).
    + apply IH. unfold no_space in *. rewrite all_chars_append, Hcur.
      cbn [all_chars]. now rewrite Ec.
Qed.

(** X16. The words of a query. Every word that the text search of [recall]
    uses is longer than one character, has no white space and no ASCII
    capital, and occurs in the lower-cased query. A query with no such word,
    the empty query among them, puts no text condition on the rows, so
    every row passes the text search; words of one character at the head of
    a query are dropped. *)
Theorem query_words_are_tokens (q : string) :
  (forall w, In w (query_words q) ->
             1 < String.length w
             /\ no_space w = true
             /\ folded w = true
             /\ Str.contains (Str.toLowerCase q) w)
  /\ (query_words q = [] ->
      forall l fn r, where_all (conditions (plain_query q l fn)) r = true)
  /\ query_words "" = []
  /\ query_words (" a  b " ++ q) = query_words (" " ++ q).
Proof.
  split.
  { intros w Hw. split; [now apply (query_words_long q)|].
    split; [|split; [now apply (query_words_folded q)
                    |now apply query_words_contained]].
    unfold query_words, Str.split_ws in Hw. apply filter_In in Hw as [Hw _].
    now apply (split_from_no_space (Str.toLowerCase q) false ""%string w). }
  split.
  { intros Hnone l fn r. unfold plain_query.
    rewrite recall_conditions_structure, Hnone. reflexivity. }
  split; [reflexivity|].
  unfold query_words, Str.split_ws. cbn. reflexivity.
Qed.

Lemma query_words_are_tokens_witness :
  1 < String.length "dark"
  /\ no_space "dark" = true
  /\ folded "dark" = true
  /\ Str.contains (Str.toLowerCase "I like Dark mode") "dark".
Proof.
  destruct (query_words_are_tokens "I like Dark mode") as [Hwords _].
  apply Hwords. vm_compute. auto.
Defined.

(* ------------------------------------------------------------------------- *)
(** ** The plugin object *)
(* ------------------------------------------------------------------------- *)

(** X17. [plugin.init] replaces the instance without closing it. Over a
    file that can be written it returns, whatever instance the plugin object
    held, with a new instance of the merged configuration whose table is the
    image of the file: rows that the former instance had not saved are not
    in it, and [memory_recall] answers from the image of the file. *)
Theorem plugin_init_replaces_instance
        (s : plugin.State) (c : PluginConfig) (params : MemoryRecallParams) :
  fs_writable (plugin.files s) = true ->
  exists (s' : plugin.State) (p : SqliteMemoryPlugin),
    plugin.init c s = (Return tt, s')
    /\ plugin.pluginInstance s' = Some p
    /\ db p = Some (file_image (plugin.files s))
    /\ config p = merge_config c
    /\ initialized p = true
    /\ dirty p = false
    /\ fs_file (plugin.files s') = Some (file_image (plugin.files s))
    /\ plugin.memory_recall params s'
       = (Return (recall_from (merge_config c)
                              (file_image (plugin.files s)) params), s').
Proof.
  destruct s as [old [dir file wr]]. cbn [plugin.files fs_writable].
  intros ->.
  unfold plugin.init, plugin.memory_recall, plugin.on_instance, init,
    initializeSchema, ensure_dir, open_database, constructor, file_image.
  remember (merge_config c) as mc eqn:Emc.
  unfold_methods.
  destruct dir, (0 <? autoSaveInterval mc)%Z eqn:Etimer;
    run_method; rewrite ?Etimer; run_method;
    eexists _, _;
    (split; [reflexivity|]); (split; [reflexivity|]);
    (split; [reflexivity|]); (split; [reflexivity|]);
    (split; [reflexivity|]); (split; [reflexivity|]);
    (split; [reflexivity|]); run_method; reflexivity.
Qed.

Lemma plugin_init_replaces_instance_witness :
  let unsaved := sample_row "id2" "not yet saved" (9 # 10)
                            "2026-01-01T00:00:02.000Z" in
  let saved := sample_row "id1" "saved" (8 # 10) "2026-01-01T00:00:01.000Z" in
  exists (s' : plugin.State) (p : SqliteMemoryPlugin),
    plugin.init no_config (unsaved_state [saved; unsaved] [saved] true)
    = (Return tt, s')
    /\ plugin.pluginInstance s' = Some p
    /\ db p = Some [saved].
Proof.
  intros unsaved saved.
  destruct (plugin_init_replaces_instance
              (unsaved_state [saved; unsaved] [saved] true) no_config
              (plain_query "saved" None None) eq_refl)
    as [s' [p [Hinit [Hinst [Hdb _]]]]].
  exists s', p. repeat split; assumption.
Defined.

(** X18. The outcomes of [plugin.shutdown]. Without an instance it returns
    and changes nothing. When it returns, the plugin object holds no
    instance: every handler then throws "Plugin not initialized" and a
    second [shutdown] changes nothing. It throws only when the instance has
    unsaved writes, a database handle and a file that cannot be written;
    the instance then stays in place with its table, and [memory_recall]
    still answers from that table. *)
Theorem plugin_shutdown_outcomes (s : plugin.State) :
  (plugin.pluginInstance s = None -> plugin.shutdown s = (Return tt, s))
  /\ (forall s',
        plugin.shutdown s = (Return tt, s') ->
        plugin.pluginInstance s' = None
        /\ plugin.shutdown s' = (Return tt, s')
        /\ (forall params uuid now,
              plugin.memory_store params uuid now s'
              = (Throw PluginNotInitialized, s'))
        /\ (forall params,
              plugin.memory_recall params s' = (Throw PluginNotInitialized, s'))
        /\ (forall params,
              plugin.memory_forget params s'
              = (Throw PluginNotInitialized, s')))
  /\ (forall e s',
        plugin.shutdown s = (Throw e, s') ->
        e = StorageIOFailure
        /\ fs_writable (plugin.files s) = false
        /\ plugin.files s' = plugin.files s
        /\ exists p p' t,
             plugin.pluginInstance s = Some p
             /\ plugin.pluginInstance s' = Some p'
             /\ dirty p = true /\ dirty p' = true
             /\ db p = Some t /\ db p' = Some t
             /\ forall params,
                  plugin.memory_recall params s'
                  = (Return (recall_from (config p) t params), s')).
Proof.
  destruct s as [[[d cfg di tm ini]|] [dir file wr]];
    cbn [plugin.pluginInstance plugin.files fs_writable];
    unfold plugin.shutdown, plugin.memory_store, plugin.memory_recall,
      plugin.memory_forget, plugin.on_instance, close;
    unfold_methods.
  - split; [intros H; discriminate H|].
    destruct d as [t|], di, wr; run_method;
      (split;
       [intros s' H; inversion H; subst s'; repeat split
       |intros e s' H; inversion H; subst e s']).
    repeat split.
    eexists _, _, _. repeat split.
  - split; [reflexivity|].
    split.
    + intros s' H. inversion H; subst s'. repeat split.
    + intros e s' H. discriminate H.
Qed.

Lemma plugin_shutdown_outcomes_witness :
  let r := sample_row "id1" "not yet saved" (8 # 10)
                      "2026-01-01T00:00:01.000Z" in
  exists s',
    plugin.shutdown (unsaved_state [r] [] false) = (Throw StorageIOFailure, s')
    /\ plugin.files s' = plugin.files (unsaved_state [r] [] false)
    /\ plugin.memory_recall (plain_query "saved" None None) s'
       = (Return [memory_of_row r], s').
Proof.
  intros r.
  destruct (plugin_shutdown_outcomes (unsaved_state [r] [] false))
    as [_ [_ Hthrow]].
  destruct (plugin.shutdown (unsaved_state [r] [] false)) as [o s'] eqn:E.
  assert (Eo : o = Throw StorageIOFailure)
    by (apply (f_equal fst) in E; vm_compute in E; now symmetry).
  subst o. exists s'. split; [reflexivity|].
  destruct (Hthrow StorageIOFailure s' eq_refl)
    as [_ [_ [Hfiles [p [p' [t [Hp [Hp' [_ [_ [Hdb [_ Hrecall]]]]]]]]]]]].
  split; [exact Hfiles|].
  rewrite Hrecall. injection Hp as <-. cbn [db] in Hdb. injection Hdb as <-.
  reflexivity.
Defined.

(* ------------------------------------------------------------------------- *)
(** ** The default noise patterns *)
(* ------------------------------------------------------------------------- *)

Lemma span_Chr (c : ascii) (s : string) (i j : nat) :
  span (Chr c) s i j = true <-> j = i + 1 /\ char_at s i (char_ci c) = true.
Proof.
  cbn [span]. rewrite if_true_iff, Nat.eqb_eq. reflexivity.
Qed.

Lemma span_WhiteSpace (s : string) (i j : nat) :
  span WhiteSpace s i j = true <->
  j = i + 1 /\ char_at s i Str.is_space = true.
Proof.
  cbn [span]. rewrite if_true_iff, Nat.eqb_eq. reflexivity.
Qed.

(** A literal is its first character, then the rest. *)
Lemma span_lit_cons (c : ascii) (w : string) (s : string) (i j : nat) :
  span (lit (String c w)) s i j = true <->
  char_at s i (char_ci c) = true /\ span (lit w) s (i + 1) j = true.
Proof.
  destruct w as [|c' w'].
  - cbn [lit]. rewrite span_Chr. cbn [span]. rewrite Nat.eqb_eq.
    split; intros [H1 H2]; split; auto.
  - change (lit (String c (String c' w')))
      with (Cat (Chr c) (lit (String c' w'))).
    rewrite span_Cat. split.
    + intros [k [_ [Hc Hw]]]. apply span_Chr in Hc as [-> Hc]. now split.
    + intros [Hc Hw]. exists (i + 1). split.
      * apply span_le in Hw. lia.
      * split; [|exact Hw]. apply span_Chr. now split.
Qed.

Lemma char_at_cons (d : ascii) (s : string) (i : nat) (p : ascii -> bool) :
  char_at (String d s) (S i) p = char_at s i p.
Proof. reflexivity. Qed.

(** A literal over a longer string: the first character plays no part. *)
Lemma span_lit_shift (w : string) :
  forall (d : ascii) (s : string) (i j : nat),
    span (lit w) (String d s) (S i) (S j) = span (lit w) s i j.
Proof.
  induction w as [|c w IH]; intros d s i j.
  - reflexivity.
  - apply eq_true_iff_eq. rewrite !span_lit_cons.
    change (S i + 1) with (S (i + 1)). now rewrite char_at_cons, IH.
Qed.

(** Under the [i] flag a literal matches all of a text exactly when the two
    are the same up to capitals. *)
Lemma whole_lit (w : string) :
  forall s, whole (lit w) s = true <-> Str.toLowerCase s = Str.toLowerCase w.
Proof.
  unfold whole. induction w as [|c w IH]; intros s.
  - cbn [lit span Str.toLowerCase]. rewrite Nat.eqb_eq.
    destruct s; cbn [String.length Str.toLowerCase]; split;
      intros H; try reflexivity; discriminate H.
  - rewrite span_lit_cons. destruct s as [|d s].
    + cbn. split; [intros [H _]|intros H]; discriminate H.
    + cbn [String.length Str.toLowerCase Nat.add].
      rewrite span_lit_shift, IH. unfold char_at, char_ci. cbn [String.get].
      rewrite Ascii.eqb_eq. split.
      * intros [-> ->]. reflexivity.
      * intros H. injection H as H1 H2. now split.
Qed.

(** An alternation matches where one of its branches does. *)
Lemma span_alts (rs : list regex) (s : string) (i j : nat) :
  rs <> [] ->
  (span (alts rs) s i j = true <-> exists r, In r rs /\ span r s i j = true).
Proof.
  induction rs as [|r rs IH]; [congruence|]. intros _.
  destruct rs as [|r' rs'].
  - cbn [alts]. split.
    + intros H. exists r. split; [now left|exact H].
    + intros [r0 [[<-|[]] H]]. exact H.
  - change (alts (r :: r' :: rs')) with (Alt r (alts (r' :: rs'))).
    cbn [span]. destruct (span r s i j) eqn:Er.
    + split; [|reflexivity]. intros _. exists r. split; [now left|exact Er].
    + rewrite IH by discriminate. split.
      * intros [r0 [Hin H]]. exists r0. split; [now right|exact H].
      * intros [r0 [[<-|Hin] H]]; [congruence|]. now exists r0.
Qed.

(** [\s*] matches a span exactly when every character in it is white
    space. *)
Lemma span_star_space (s : string) (i j : nat) :
  span (Star WhiteSpace) s i j = true <->
  i <= j /\ forall k, i <= k < j -> char_at s k Str.is_space = true.
Proof.
  cbn [span].
  assert (H : forall fuel i0, j - i0 <= fuel ->
    ((fix star (fuel : nat) (i : nat) {struct fuel} : bool :=
        if i =? j then true
        else match fuel with
             | O => false
             | S fuel' =>
                 existsb (fun k => if if k =? i + 1
                                      then char_at s i Str.is_space else false
                                   then star fuel' k else false)
                         (seq (i + 1) (j - i))
             end) fuel i0) = true <->
    i0 <= j /\ forall k, i0 <= k < j -> char_at s k Str.is_space = true).
  { induction fuel as [|fuel IH]; intros i0 Hfuel.
    - destruct (i0 =? j) eqn:E.
      + apply Nat.eqb_eq in E. subst. split; [|reflexivity]. intros _.
        split; [lia|]. intros k Hk. lia.
      + apply Nat.eqb_neq in E. split; [discriminate|]. intros [Hle _]. lia.
    - destruct (i0 =? j) eqn:E.
      + apply Nat.eqb_eq in E. subst. split; [|reflexivity]. intros _.
        split; [lia|]. intros k Hk. lia.
      + apply Nat.eqb_neq in E. rewrite existsb_exists. split.
        * intros [k [Hin Hk]]. apply in_seq in Hin.
          apply if_true_iff in Hk as [Hws Hstar].
          apply if_true_iff in Hws as [Hk Hc]. apply Nat.eqb_eq in Hk. subst k.
          apply IH in Hstar as [Hle Hall]; [|lia]. split; [lia|].
          intros k Hk. destruct (Nat.eq_dec k i0) as [->|Hne]; [exact Hc|].
          apply Hall. lia.
        * intros [Hle Hall]. exists (i0 + 1). split; [apply in_seq; lia|].
          apply if_true_iff. split.
          -- apply if_true_iff. split; [apply Nat.eqb_refl|]. apply Hall. lia.
          -- apply IH; [lia|]. split; [lia|]. intros k Hk. apply Hall. lia. }
  apply H. lia.
Qed.

Lemma all_chars_char_at (p : ascii -> bool) (s : string) :
  all_chars p s = true <->
  forall k, k < String.length s -> char_at s k p = true.
Proof.
  induction s as [|c s IH]; cbn [all_chars String.length].
  - split; [intros _ k Hk; lia|reflexivity].
  - rewrite andb_true_iff, IH. split.
    + intros [Hc Hs] [|k] Hk; [exact Hc|]. rewrite char_at_cons.
      apply Hs. lia.
    + intros H. split; [apply (H 0); lia|]. intros k Hk.
      rewrite <- (char_at_cons c). apply H. lia.
Qed.

Lemma whole_star_space (s : string) :
  whole (Star WhiteSpace) s = blank s.
Proof.
  apply eq_true_iff_eq. unfold whole, blank.
  rewrite span_star_space, all_chars_char_at. split.
  - intros [_ H] k Hk. apply H. lia.
  - intros H. split; [lia|]. intros k Hk. apply H. lia.
Qed.

(** X19. The texts the default patterns hide. When the configuration names
    no noise patterns, a record is noise exactly when its text is, up to
    capitals, one of the eleven acknowledgements of the default pattern, or
    is made of white space only (the empty text among them). So a [recall]
    that filters noise returns no record with such a text. *)
Theorem default_noise_texts (c : PluginConfig) (m : Memory) :
  pc_noisePatterns c = None ->
  (is_noise (merge_config c) m = true <->
   acknowledgement (mem_text m) \/ blank (mem_text m) = true)
  /\ (forall t params,
        filters_noise params = true ->
        In m (recall_from (merge_config c) t params) ->
        ~ acknowledgement (mem_text m) /\ blank (mem_text m) = false).
Proof.
  intros Hc.
  assert (Hiff : is_noise (merge_config c) m = true <->
                 acknowledgement (mem_text m) \/ blank (mem_text m) = true).
  { unfold is_noise, merge_config. cbn [noisePatterns]. rewrite Hc.
    cbn [nullish DEFAULT_CONFIG noisePatterns existsb].
    unfold noise_acknowledgement, noise_blank.
    rewrite !test_anchored, whole_star_space, orb_false_r, orb_true_iff.
    unfold whole at 1. rewrite span_alts by discriminate.
    unfold acknowledgement. split.
    - intros [[r [Hin Hr]]|Hb]; [left|now right].
      apply in_map_iff in Hin as [w [<- Hw]].
      apply whole_lit in Hr. rewrite Hr.
      replace (Str.toLowerCase w) with w; [exact Hw|].
      cbn [noise_words In] in Hw.
      repeat (destruct Hw as [<-|Hw]; [reflexivity|]). destruct Hw.
    - intros [Hin|Hb]; [left|now right].
      exists (lit (Str.toLowerCase (mem_text m))). split.
      + now apply in_map.
      + apply whole_lit.
        remember (Str.toLowerCase (mem_text m)) as w eqn:Ew.
        cbn [noise_words In] in Hin.
        clear Ew; repeat (destruct Hin as [<-|Hin]; [reflexivity|]).
        destruct Hin. }
  split; [exact Hiff|].
  intros t params Hfilter Hin.
  apply recall_from_In in Hin as [r [_ [_ Hclean]]].
  specialize (Hclean Hfilter).
  split.
  - intros Hack. rewrite (proj2 Hiff (or_introl Hack)) in Hclean.
    discriminate Hclean.
  - destruct (blank (mem_text m)) eqn:Eb; [|reflexivity].
    rewrite (proj2 Hiff (or_intror eq_refl)) in Hclean. discriminate Hclean.
Qed.

Lemma default_noise_texts_witness :
  let m := memory_of_row
             (sample_row "id1" "Thank You" (8 # 10)
                         "2026-01-01T00:00:01.000Z") in
  is_noise (merge_config no_config) m = true.
Proof.
  intros m.
  destruct (default_noise_texts no_config m eq_refl) as [Hiff _].
  apply Hiff. left. vm_compute. auto 10.
Defined.
